(** * Shallow embedding of the grt Gerrit client core (crate [grt])

    Modules covered:
    - [gerrit.rs]: [strip_xssi_prefix], [GerritError::is_retryable],
      [GerritClient::get_once], [GerritClient::get], the API response types;
    - [config.rs]: [alias_url], [longest_match_replace];
    - [review_query.rs]: the SSH raw types, their serde decoding,
      [ssh_change_to_change_info], [parse_ssh_query_output];
    - [review.rs]: [find_target_revision];
    - [comments.rs]: [build_threads], [collect_thread].

    Rust [String]/[&str] are modelled as Stdlib [string] (a list of 8-bit
    characters, i.e. the UTF-8 bytes); [Vec] as [list]; [HashMap] as stdpp's
    [gmap] where only lookups matter, and as an explicit iteration list where
    the code iterates over it (Rust's hash order is unspecified). *)

From Stdlib Require Import String Ascii ZArith Lia Permutation Sorted.
From stdpp Require Import base gmap strings list pretty.

Open Scope Z_scope.

(* ================================================================== *)
(** ** String helpers mirroring [str] methods *)

Definition newline : ascii := "010"%char.

(** [str::find(c)]: byte index of the first occurrence of [c]. *)
Fixpoint str_find (c : ascii) (s : string) : option nat :=
  match s with
  | EmptyString => None
  | String x s' =>
      if Ascii.eqb x c then Some 0%nat
      else match str_find c s' with Some i => Some (S i) | None => None end
  end.

(** [s.starts_with(p)]. *)
Definition starts_with (s p : string) : bool := String.prefix p s.

(** [&s[n..]]. *)
Definition str_drop (n : nat) (s : string) : string :=
  String.substring n (String.length s - n) s.

(** [&s[..n]]. *)
Definition str_take (n : nat) (s : string) : string := String.substring 0 n s.

(* ================================================================== *)
(** ** [gerrit.rs]: [strip_xssi_prefix] *)

(** Strip the XSSI prevention prefix from Gerrit API responses. *)
Definition strip_xssi_prefix (body : string) : string :=
  match str_find newline body with
  | Some newline_pos =>
      let prefix := str_take newline_pos body in
      if starts_with prefix ")]}" then str_drop (S newline_pos) body
      else body
  | None => body
  end.

(* ================================================================== *)
(** ** [config.rs]: URL rewrites *)

Record UrlRewrites := mkUrlRewrites {
  instead_of : list (string * string);
  push_instead_of : list (string * string);
}.

(** Find the longest matching prefix and replace it.  The loop state is
    [(best_match, best_len)]. *)
Fixpoint longest_match_loop (url : string) (rules : list (string * string))
    (best_match : option (string * string)) (best_len : nat)
    : option (string * string) :=
  match rules with
  | [] => best_match
  | (prefix, replacement) :: rest =>
      if starts_with url prefix && (best_len <? String.length prefix)%nat
      then longest_match_loop url rest (Some (prefix, replacement))
             (String.length prefix)
      else longest_match_loop url rest best_match best_len
  end.

Definition longest_match_replace (url : string) (rules : list (string * string))
    : option string :=
  match longest_match_loop url rules None 0%nat with
  | Some (prefix, replacement) =>
      Some (replacement ++ str_drop (String.length prefix) url)%string
  | None => None
  end.

(** Apply URL rewrite rules using longest-match semantics. *)
Definition alias_url (url : string) (rewrites : UrlRewrites) (for_push : bool)
    : string :=
  match (if for_push then longest_match_replace url (push_instead_of rewrites)
         else None) with
  | Some result => result
  | None =>
      match longest_match_replace url (instead_of rewrites) with
      | Some result => result
      | None => url
      end
  end.

(* ================================================================== *)
(** ** [gerrit.rs]: typed errors, [get_once] and the retry loop [get] *)

(** Rust's [Result<T, E>]. *)
Inductive result (A E : Type) : Type :=
| Ok : A -> result A E
| Err : E -> result A E.
Arguments Ok {A E} _.
Arguments Err {A E} _.

(** [GerritError]; HTTP statuses ([u16]) as [Z]. *)
Inductive GerritError : Type :=
| AuthFailed (status : Z)
| NotFound
| ServerError (status : Z) (body : string)
| Network (description : string).

(** [GerritError::is_retryable]. *)
Definition is_retryable (e : GerritError) : bool :=
  match e with
  | ServerError status _ => 500 <=? status
  | Network _ => true
  | _ => false
  end.

(** [anyhow::Error] values built by this code: a typed Gerrit error, a
    plain message ([anyhow::bail!], [Option::context]) or a context layer
    added by [.context(..)]. *)
Inductive Error : Type :=
| EGerrit (e : GerritError)
| EMsg (msg : string)
| EContext (ctx : string) (inner : Error).

(** One HTTP exchange as [get_once] observes it: [send()] fails with a
    description, or a response arrives with its status and the outcome of
    reading its body with [resp.text()]. *)
Inductive HttpExchange : Type :=
| SendFailed (description : string)
| Responded (status : Z) (body : result string string).

(** [StatusCode::is_success]: [200..=299]. *)
Definition is_success (status : Z) : bool := (200 <=? status) && (status <=? 299).

(** [GerritClient::get_once]. *)
Definition get_once (x : HttpExchange) : result string GerritError :=
  match x with
  | SendFailed d => Err (Network d)
  | Responded status body =>
      if (status =? 401) || (status =? 403) then Err (AuthFailed status)
      else if status =? 404 then Err NotFound
      else if negb (is_success status) then
        (* [resp.text().await.unwrap_or_default()] *)
        let body := match body with Ok b => b | Err _ => "" end in
        Err (ServerError status body)
      else
        match body with
        | Ok b => Ok (strip_xssi_prefix b)
        | Err d => Err (Network d)
        end
  end.

Definition MAX_RETRIES : nat := 3.

(** Observable effects of [get]: each call of [get_once] (by attempt index)
    and each [tokio::time::sleep] (in seconds).  The [warn!] log line is not
    modelled. *)
Inductive Event : Type :=
| Attempt (attempt : nat)
| Sleep (secs : Z).

(** Final value of [get]; [GPanic] is the [last_err.unwrap()] panic on
    [None]. *)
Inductive GetOutcome : Type :=
| GOk (body : string)
| GErr (e : Error)
| GPanic.

Definition ctx_request (path : string) : string :=
  "Gerrit API request to " ++ path.

Definition ctx_exhausted (path : string) : string :=
  "Gerrit API request to " ++ path ++ " (exhausted retries)".

(** The loop [for attempt in 0..=MAX_RETRIES]; [remaining] counts the
    iterations left and [server attempt] is the exchange of that attempt. *)
Fixpoint get_loop (path : string) (server : nat -> HttpExchange)
    (remaining attempt : nat) (last_err : option GerritError)
    : list Event * GetOutcome :=
  match remaining with
  | O =>
      ([], match last_err with
           | Some e => GErr (EContext (ctx_exhausted path) (EGerrit e))
           | None => GPanic
           end)
  | S rem =>
      match get_once (server attempt) with
      | Ok body => ([Attempt attempt], GOk body)
      | Err e =>
          if is_retryable e && (attempt <? MAX_RETRIES)%nat then
            let delay := 2 ^ Z.of_nat attempt in
            let '(tr, out) := get_loop path server rem (S attempt) (Some e) in
            (Attempt attempt :: Sleep delay :: tr, out)
          else ([Attempt attempt], GErr (EContext (ctx_request path) (EGerrit e)))
      end
  end.

(** [GerritClient::get] ([api_url] cannot fail and is left out: [path]
    names the request). *)
Definition get (path : string) (server : nat -> HttpExchange)
    : list Event * GetOutcome :=
  get_loop path server (S MAX_RETRIES) 0 None.

(* ================================================================== *)
(** ** [gerrit.rs]: API response types *)

Module AccountInfo.
Record t := mk {
    account_id : Z;  (* [#[serde(rename = "_account_id")] account_id: i64] *)
    name : option string;
    email : option string;
    username : option string;
    display_name : option string;
  }.
End AccountInfo.

Module GitPersonInfo.
Record t := mk {
    name : option string;
    email : option string;
    date : option string;
  }.
End GitPersonInfo.

Module CommitInfo.
Record t := mk {
    subject : option string;
    message : option string;
    author : option GitPersonInfo.t;
    committer : option GitPersonInfo.t;
  }.
End CommitInfo.

Module RevisionInfo.
Record t := mk {
    number : option Z;  (* [_number: Option<i32>] *)
    git_ref : option string;
    commit : option CommitInfo.t;
  }.
End RevisionInfo.

Module ChangeMessageInfo.
Record t := mk {
    id : option string;
    author : option AccountInfo.t;
    date : option string;
    message : option string;
    revision_number : option Z;
  }.
End ChangeMessageInfo.

Module ChangeInfo.
Record t := mk {
    id : option string;
    project : option string;
    branch : option string;
    change_id : option string;
    subject : option string;
    status : option string;
    topic : option string;
    created : option string;
    updated : option string;
    number : option Z;  (* [_number: Option<i64>] *)
    owner : option AccountInfo.t;
    current_revision : option string;
    revisions : option (gmap string RevisionInfo.t);
    messages : option (list ChangeMessageInfo.t);
    insertions : option Z;
    deletions : option Z;
  }.
End ChangeInfo.

Module CommentRange.
Record t := mk {
    start_line : Z;
    start_character : Z;
    end_line : Z;
    end_character : Z;
  }.
End CommentRange.

Module CommentInfo.
Record t := mk {
    id : option string;
    path : option string;
    line : option Z;
    range : option CommentRange.t;
    in_reply_to : option string;
    message : option string;
    updated : option string;
    author : option AccountInfo.t;
    patch_set : option Z;
    unresolved : option bool;
  }.
End CommentInfo.

(* ================================================================== *)
(** ** [review.rs]: [find_target_revision] *)

(** The [for (sha, rev) in revisions] scan; the list is the map's iteration
    order. *)
Fixpoint find_revision_by_number (ps : Z) (entries : list (string * RevisionInfo.t))
    : option (string * RevisionInfo.t) :=
  match entries with
  | [] => None
  | (sha, rev) :: rest =>
      if bool_decide (RevisionInfo.number rev = Some ps) then Some (sha, rev)
      else find_revision_by_number ps rest
  end.

(** Find the target revision from a change's revision map.  Rust's
    [HashMap] iteration order is unspecified; [map_to_list] stands for it
    (the statements below hold for whichever entry the scan meets first). *)
Definition find_target_revision (change : ChangeInfo.t) (patchset : option Z)
    : result (string * RevisionInfo.t) Error :=
  match ChangeInfo.revisions change with
  | None => Err (EMsg "change has no revision data")
  | Some revisions =>
      match patchset with
      | Some ps =>
          match find_revision_by_number ps (map_to_list revisions) with
          | Some (sha, rev) => Ok (sha, rev)
          | None => Err (EMsg ("patchset " ++ pretty ps ++ " not found in change"))
          end
      | None =>
          match ChangeInfo.current_revision change with
          | None => Err (EMsg "change has no current revision")
          | Some current =>
              match revisions !! current with
              | None => Err (EMsg "current revision not found in revision map")
              | Some rev => Ok (current, rev)
              end
          end
      end
  end.

(* ================================================================== *)
(** ** [review_query.rs]: the SSH raw types and their normalisation *)

Module SshPatchSet.
Record t := mk {
    number : option Z;  (* [Option<i32>], flexible decoding *)
    git_ref : option string;
    revision : option string;
  }.
End SshPatchSet.

Module SshChangeRaw.
Record t := mk {
    number : option Z;
    id : option string;
    project : option string;
    branch : option string;
    change_id : option string;
    subject : option string;
    status : option string;
    topic : option string;
    created : option string;
    updated : option string;
    owner : option AccountInfo.t;
    current_patch_set : option SshPatchSet.t;
    patch_sets : option (list SshPatchSet.t);
  }.
End SshChangeRaw.

(** [raw.current_patch_set.as_ref().map(|cps| cps.number == Some(num))
    .unwrap_or(false)]. *)
Definition cps_number_is (cps : option SshPatchSet.t) (num : Z) : bool :=
  match cps with
  | Some c => bool_decide (SshPatchSet.number c = Some num)
  | None => false
  end.

(** Loop state of [for ps in patch_sets]: [(revs, current, highest_num)]. *)
Definition ssh_ps_state : Type :=
  (gmap string RevisionInfo.t * option string * option Z)%type.

(** One iteration of the [for ps in patch_sets] loop. *)
Definition ssh_ps_step (cps : option SshPatchSet.t) (st : ssh_ps_state)
    (ps : SshPatchSet.t) : ssh_ps_state :=
  match st with
  | (revs, current, highest_num) =>
      match SshPatchSet.revision ps, SshPatchSet.number ps, SshPatchSet.git_ref ps with
      | Some rev, Some num, Some r =>
          let revs := <[rev := RevisionInfo.mk (Some num) (Some r) None]> revs in
          let current := if cps_number_is cps num then Some rev else current in
          let highest_num :=
            match highest_num with
            | None => Some num
            | Some h => if h <? num then Some num else highest_num
            end in
          (revs, current, highest_num)
      | _, _, _ => (revs, current, highest_num)
      end
  end.

(** [patch_sets.iter().find(|ps| ps.number == Some(hn)).and_then(|ps|
    ps.revision.clone())]. *)
Definition revision_of_number (patch_sets : list SshPatchSet.t) (hn : Z)
    : option string :=
  match List.find (fun ps => bool_decide (SshPatchSet.number ps = Some hn)) patch_sets with
  | Some ps => SshPatchSet.revision ps
  | None => None
  end.

(** The [(revisions, current_revision)] computation of
    [ssh_change_to_change_info]. *)
Definition ssh_revisions (raw : SshChangeRaw.t)
    : option (gmap string RevisionInfo.t) * option string :=
  let cps := SshChangeRaw.current_patch_set raw in
  match SshChangeRaw.patch_sets raw with
  | Some patch_sets =>
      match fold_left (ssh_ps_step cps) patch_sets (∅, None, None) with
      | (revs, current, highest_num) =>
          let current :=
            match current with
            | None => match cps with Some c => SshPatchSet.revision c | None => None end
            | Some _ => current
            end in
          let current :=
            match current with
            | None =>
                match highest_num with
                | Some hn => revision_of_number patch_sets hn
                | None => None
                end
            | Some _ => current
            end in
          (Some revs, current)
      end
  | None =>
      match cps with
      | Some c =>
          match SshPatchSet.revision c, SshPatchSet.number c, SshPatchSet.git_ref c with
          | Some rev, Some num, Some r =>
              (Some {[rev := RevisionInfo.mk (Some num) (Some r) None]}, Some rev)
          | _, _, _ => (None, None)
          end
      | None => (None, None)
      end
  end.

(** [ssh_change_to_change_info]. *)
Definition ssh_change_to_change_info (raw : SshChangeRaw.t) : ChangeInfo.t :=
  let '(revisions, current_revision) := ssh_revisions raw in
  ChangeInfo.mk
    (SshChangeRaw.id raw)
    (SshChangeRaw.project raw)
    (SshChangeRaw.branch raw)
    (match SshChangeRaw.change_id raw with
     | Some c => Some c
     | None => SshChangeRaw.id raw
     end)
    (SshChangeRaw.subject raw)
    (SshChangeRaw.status raw)
    (SshChangeRaw.topic raw)
    (SshChangeRaw.created raw)
    (SshChangeRaw.updated raw)
    (SshChangeRaw.number raw)
    (SshChangeRaw.owner raw)
    current_revision
    revisions
    None None None.

(* ================================================================== *)
(** ** [comments.rs]: [build_threads] and [collect_thread] *)

Module ThreadComment.
Record t := mk {
    author : string;
    patch_set : option Z;
    date : string;
    message : string;
  }.
End ThreadComment.

Module CommentThread.
Record t := mk {
    file : string;
    line : option Z;
    resolved : bool;
    comments : list ThreadComment.t;
  }.
End CommentThread.

(** A stable sort ([slice::sort_by] and [sort_by_key] are stable): insertion
    keeps every element after the already placed ones that are not greater. *)
Fixpoint insert_stable {A} (le : A -> A -> bool) (x : A) (l : list A) : list A :=
  match l with
  | [] => [x]
  | y :: l' => if le y x then y :: insert_stable le x l' else x :: l
  end.

Definition stable_sort {A} (le : A -> A -> bool) (l : list A) : list A :=
  fold_left (fun acc x => insert_stable le x acc) l [].

(** [Ord for str]: byte-wise lexicographic order. *)
Definition str_le (a b : string) : bool :=
  match String.compare a b with Gt => false | _ => true end.

(** [sort_by_key(|c| c.updated.as_deref().unwrap_or(""))]. *)
Definition updated_key (c : CommentInfo.t) : string :=
  default "" (CommentInfo.updated c).

Definition sort_replies (replies : list CommentInfo.t) : list CommentInfo.t :=
  stable_sort (fun a b => str_le (updated_key a) (updated_key b)) replies.

(** Collect all comments into a single list with their file paths; the
    outer list is the [HashMap]'s iteration order. *)
Definition all_comments (comments_by_file : list (string * list CommentInfo.t))
    : list (string * CommentInfo.t) :=
  concat (map (fun '(file, comments) => map (fun c => (file, c)) comments)
              comments_by_file).

(** Index by ID for reply chain resolution. *)
Definition by_id (all : list (string * CommentInfo.t))
    : gmap string (string * CommentInfo.t) :=
  fold_left (fun m '(file, c) =>
               match CommentInfo.id c with
               | Some id => <[id := (file, c)]> m
               | None => m
               end) all ∅.

(** The loop that splits comments into [roots] and [children]; its state is
    [(roots, children)]. *)
Definition roots_children_step (ids : gmap string (string * CommentInfo.t))
    (st : list (string * CommentInfo.t) * gmap string (list CommentInfo.t))
    (fc : string * CommentInfo.t)
    : list (string * CommentInfo.t) * gmap string (list CommentInfo.t) :=
  match st, fc with
  | (roots, children), (file, comment) =>
      match CommentInfo.in_reply_to comment with
      | Some parent_id =>
          if bool_decide (is_Some (ids !! parent_id)) then
            (roots, <[parent_id := default [] (children !! parent_id) ++ [comment]]> children)
          else (roots ++ [(file, comment)], children)
      | None => (roots ++ [(file, comment)], children)
      end
  end.

Definition roots_children (all : list (string * CommentInfo.t))
    : list (string * CommentInfo.t) * gmap string (list CommentInfo.t) :=
  fold_left (roots_children_step (by_id all)) all ([], ∅).

(** [collect_thread]: the comments of a thread, depth-first, replies in
    [updated] order.  The Rust recursion has no bound; [None] stands for its
    non-termination, which happens exactly when a comment is reachable from
    itself (possible only with duplicate ids).  A fuel of one more than the
    number of comments covers every terminating run. *)
Fixpoint collect_thread (fuel : nat) (children : gmap string (list CommentInfo.t))
    (comment : CommentInfo.t) : option (list CommentInfo.t) :=
  match fuel with
  | O => None
  | S fuel' =>
      let replies :=
        match CommentInfo.id comment with
        | Some id => default [] (children !! id)
        | None => []
        end in
      rest ← mapM (collect_thread fuel' children) (sort_replies replies);
      Some (comment :: concat rest)
  end.

(** The tuple pushed by [collect_thread] (without its [unresolved] flag),
    i.e. the [ThreadComment] built from it. *)
Definition to_thread_comment (c : CommentInfo.t) : ThreadComment.t :=
  ThreadComment.mk
    (default "Unknown" (CommentInfo.author c ≫= AccountInfo.name))
    (CommentInfo.patch_set c)
    (default "" (CommentInfo.updated c))
    (default "" (CommentInfo.message c)).

(** [comment.unresolved.unwrap_or(true)], the third tuple field. *)
Definition comment_unresolved (c : CommentInfo.t) : bool :=
  default true (CommentInfo.unresolved c).

(** [thread_comments.last().map(|c| !c.2).unwrap_or(false)]. *)
Definition thread_resolved (thread_comments : list CommentInfo.t) : bool :=
  match last thread_comments with
  | Some c => negb (comment_unresolved c)
  | None => false
  end.

Definition make_thread (file : string) (root : CommentInfo.t)
    (thread_comments : list CommentInfo.t) : CommentThread.t :=
  CommentThread.mk file (CommentInfo.line root) (thread_resolved thread_comments)
    (map to_thread_comment thread_comments).

(** [threads.sort_by(file, then line.unwrap_or(0))]. *)
Definition thread_le (a b : CommentThread.t) : bool :=
  match String.compare (CommentThread.file a) (CommentThread.file b) with
  | Lt => true
  | Gt => false
  | Eq => default 0 (CommentThread.line a) <=? default 0 (CommentThread.line b)
  end.

(** Build comment threads from a flat map of file -> comments, given as the
    list of its entries in iteration order. *)
Definition build_threads (comments_by_file : list (string * list CommentInfo.t))
    : option (list CommentThread.t) :=
  let all := all_comments comments_by_file in
  let '(roots, children) := roots_children all in
  threads ← mapM (fun '(file, root) =>
                    thread_comments ← collect_thread (S (length all)) children root;
                    Some (make_thread file root thread_comments)) roots;
  Some (stable_sort thread_le threads).

(* ================================================================== *)
(** ** JSON values and the serde decoding of the SSH wire types *)

#[local] Set Warnings "-register-all".

(** [serde_json::Value]; a number is an integer ([u64]/[i64], as [Z]) or a
    float, whose value this development never inspects. *)
Inductive json : Type :=
| JNull
| JBool (b : bool)
| JInt (n : Z)
| JFloat (repr : string)
| JStr (s : string)
| JArr (items : list json)
| JObj (entries : list (string * json)).

(** [?] on [Result]. *)
Definition res_bind {A B E} (m : result A E) (k : A -> result B E) : result B E :=
  match m with Ok a => k a | Err e => Err e end.
Notation "'let?' x ':=' m 'in' k" := (res_bind m (fun x => k))
  (at level 200, x name, m at level 100, k at level 200).

(** serde errors, by their message (without serde_json's position suffix). *)
Definition DeError := string.

Definition i64_min : Z := - 2 ^ 63.
Definition i64_max : Z := 2 ^ 63 - 1.
Definition i32_min : Z := - 2 ^ 31.
Definition i32_max : Z := 2 ^ 31 - 1.

(** [Number::as_i64]. *)
Definition json_as_i64 (v : json) : option Z :=
  match v with
  | JInt n => if (i64_min <=? n) && (n <=? i64_max) then Some n else None
  | _ => None
  end.

(** [String] from a JSON value. *)
Definition de_string (v : json) : result string DeError :=
  match v with JStr s => Ok s | _ => Err "invalid type: expected a string" end.

(** [i64] from a JSON value. *)
Definition de_i64 (v : json) : result Z DeError :=
  match v with
  | JInt n =>
      match json_as_i64 v with
      | Some i => Ok i
      | None => Err "invalid value: integer out of range for i64"
      end
  | _ => Err "invalid type: expected i64"
  end.

(** [Option<T>] from a present JSON value: [null] is [None]. *)
Definition de_option {T} (de : json -> result T DeError) (v : json)
    : result (option T) DeError :=
  match v with
  | JNull => Ok None
  | _ => let? x := de v in Ok (Some x)
  end.

(** [str::parse::<i32>]: an optional sign followed by at least one ASCII
    digit, in range. *)
Fixpoint parse_digits (s : string) (acc : Z) : option Z :=
  match s with
  | EmptyString => Some acc
  | String c s' =>
      let d := Z.of_nat (nat_of_ascii c) - 48 in
      if (0 <=? d) && (d <=? 9) then parse_digits s' (acc * 10 + d) else None
  end.

Definition parse_i32 (s : string) : option Z :=
  let '(neg, digits) :=
    match s with
    | String "+"%char rest => (false, rest)
    | String "-"%char rest => (true, rest)
    | _ => (false, s)
    end in
  match digits with
  | EmptyString => None
  | _ =>
      match parse_digits digits 0 with
      | Some n =>
          let v := if neg then - n else n in
          if (i32_min <=? v) && (v <=? i32_max) then Some v else None
      | None => None
      end
  end.

(** [deserialize_optional_i32_flexible], on a present field value. *)
Definition de_optional_i32_flexible (v : json) : result (option Z) DeError :=
  match v with
  | JNull => Ok None
  | JInt _ | JFloat _ =>
      match json_as_i64 v with
      | Some i => if (i32_min <=? i) && (i <=? i32_max) then Ok (Some i)
                  else Err "patch set number out of range"
      | None => Err "patch set number out of range"
      end
  | JStr s =>
      match parse_i32 s with
      | Some i => Ok (Some i)
      | None => Err "patch set number not a valid integer"
      end
  | _ => Ok None
  end.

(** [deserialize_optional_string_flexible], on a present field value. *)
Definition de_optional_string_flexible (v : json) : result (option string) DeError :=
  match v with
  | JNull => Ok None
  | JStr s => Ok (Some s)
  | JInt _ | JFloat _ =>
      match json_as_i64 v with
      | Some i => Ok (Some (pretty i))
      | None => Ok None
      end
  | _ => Ok None
  end.

(** How the derived [Deserialize] of a struct received its fields: from a
    JSON object (by name, aliases included) or from a JSON array (by
    position).  The collected field values are indexed by declaration
    position. *)
Inductive struct_src : Type := FromMap | FromSeq.

Definition field_index (names : list (list string)) (key : string) : option nat :=
  list_find (fun ns => key ∈ ns) names ≫= fun '(i, _) => Some i.

(** The walk over the entries of an object: unknown keys are ignored, a
    second value for a known field is the [duplicate field] error. *)
Fixpoint collect_entries (names : list (list string))
    (entries : list (string * json)) (acc : list (nat * json))
    : result (list (nat * json)) DeError :=
  match entries with
  | [] => Ok acc
  | (key, v) :: rest =>
      match field_index names key with
      | None => collect_entries names rest acc
      | Some i =>
          if bool_decide (i ∈ map fst acc) then Err ("duplicate field `" ++ key ++ "`")%string
          else collect_entries names rest (acc ++ [(i, v)])
      end
  end.

Definition collect_struct (names : list (list string)) (v : json)
    : result (struct_src * list (nat * json)) DeError :=
  match v with
  | JObj entries => let? fs := collect_entries names entries [] in Ok (FromMap, fs)
  | JArr items =>
      if bool_decide (length items <= length names)%nat
      then Ok (FromSeq, zip (seq 0 (length items)) items)
      else Err "invalid length"
  | _ => Err "invalid type: expected a struct"
  end.

Definition field_value (fs : list (nat * json)) (i : nat) : option json :=
  snd <$> List.find (fun '(j, _) => Nat.eqb i j) fs.

(** A plain [Option<T>] field: absent from an object it is [None], absent
    from an array it is the [invalid length] error. *)
Definition de_field_opt {T} (de : json -> result T DeError)
    (src : struct_src) (fs : list (nat * json)) (i : nat)
    : result (option T) DeError :=
  match field_value fs i with
  | Some v => de_option de v
  | None => match src with FromMap => Ok None | FromSeq => Err "invalid length" end
  end.

(** A field with [#[serde(default)]] and a [deserialize_with] function. *)
Definition de_field_default {T} (de : json -> result (option T) DeError)
    (fs : list (nat * json)) (i : nat) : result (option T) DeError :=
  match field_value fs i with Some v => de v | None => Ok None end.

(** A field without default, not an [Option] handled by serde itself (a
    plain type, or a [deserialize_with] field): absence is an error. *)
Definition de_field_required {T} (de : json -> result T DeError)
    (src : struct_src) (fs : list (nat * json)) (i : nat) (name : string)
    : result T DeError :=
  match field_value fs i with
  | Some v => de v
  | None =>
      match src with
      | FromMap => Err ("missing field `" ++ name ++ "`")%string
      | FromSeq => Err "invalid length"
      end
  end.

(** [#[derive(Deserialize)] struct AccountInfo]. *)
Definition de_AccountInfo (v : json) : result AccountInfo.t DeError :=
  let? collected := collect_struct
         [["_account_id"]; ["name"]; ["email"]; ["username"]; ["display_name"]] v in
  let '(src, fs) := collected in
  let? account_id := de_field_required de_i64 src fs 0 "_account_id" in
  let? name := de_field_opt de_string src fs 1 in
  let? email := de_field_opt de_string src fs 2 in
  let? username := de_field_opt de_string src fs 3 in
  let? display_name := de_field_opt de_string src fs 4 in
  Ok (AccountInfo.mk account_id name email username display_name).

(** [#[derive(Deserialize)] struct SshPatchSet]. *)
Definition de_SshPatchSet (v : json) : result SshPatchSet.t DeError :=
  let? collected := collect_struct [["number"]; ["ref"]; ["revision"]] v in
  let '(src, fs) := collected in
  let? number := de_field_required de_optional_i32_flexible src fs 0 "number" in
  let? git_ref := de_field_opt de_string src fs 1 in
  let? revision := de_field_opt de_string src fs 2 in
  Ok (SshPatchSet.mk number git_ref revision).

(** [Vec<SshPatchSet>]. *)
Fixpoint de_list {T} (de : json -> result T DeError) (items : list json)
    : result (list T) DeError :=
  match items with
  | [] => Ok []
  | x :: rest => let? y := de x in let? ys := de_list de rest in Ok (y :: ys)
  end.

Definition de_vec {T} (de : json -> result T DeError) (v : json)
    : result (list T) DeError :=
  match v with JArr items => de_list de items | _ => Err "invalid type: expected a sequence" end.

(** [#[derive(Deserialize)] struct SshChangeRaw], with its aliases. *)
Definition de_SshChangeRaw (v : json) : result SshChangeRaw.t DeError :=
  let? collected := collect_struct
         [["number"; "_number"]; ["id"]; ["project"]; ["branch"]; ["change_id"];
          ["subject"]; ["status"]; ["topic"]; ["created"; "createdOn"];
          ["updated"; "lastUpdated"]; ["owner"]; ["currentPatchSet"]; ["patchSets"]] v in
  let '(src, fs) := collected in
  let? number := de_field_opt de_i64 src fs 0 in
  let? id := de_field_opt de_string src fs 1 in
  let? project := de_field_opt de_string src fs 2 in
  let? branch := de_field_opt de_string src fs 3 in
  let? change_id := de_field_opt de_string src fs 4 in
  let? subject := de_field_opt de_string src fs 5 in
  let? status := de_field_opt de_string src fs 6 in
  let? topic := de_field_opt de_string src fs 7 in
  let? created := de_field_default de_optional_string_flexible fs 8 in
  let? updated := de_field_default de_optional_string_flexible fs 9 in
  let? owner := de_field_opt de_AccountInfo src fs 10 in
  let? current_patch_set := de_field_opt de_SshPatchSet src fs 11 in
  let? patch_sets := de_field_opt (de_vec de_SshPatchSet) src fs 12 in
  Ok (SshChangeRaw.mk number id project branch change_id subject status topic
        created updated owner current_patch_set patch_sets).

(** One line of the [gerrit query --format=JSON] output, after [trim()]:
    [LSkip] is a line that does not start with ['{'] or is not one valid JSON
    value (both are skipped); [LObject] is a line holding one JSON object,
    with its entries in text order. *)
Inductive ssh_line : Type :=
| LSkip (text : string)
| LObject (entries : list (string * json)).

(** [parse_ssh_query_output]. *)
Fixpoint parse_ssh_query_output (lines : list ssh_line)
    : result (list ChangeInfo.t) Error :=
  match lines with
  | [] => Ok []
  | LSkip _ :: rest => parse_ssh_query_output rest
  | LObject entries :: rest =>
      (* [data.get("type").is_some()] *)
      if bool_decide ("type" ∈ map fst entries) then parse_ssh_query_output rest
      else
        match de_SshChangeRaw (JObj entries) with
        | Err e => Err (EContext "parsing SSH query JSON line" (EMsg e))
        | Ok raw =>
            let? changes := parse_ssh_query_output rest in
            Ok (ssh_change_to_change_info raw :: changes)
        end
  end.

(* ================================================================== *)
(** ** More [str] methods, for ASCII separators

    A separator below 128 is one byte in UTF-8 and never occurs inside a
    multi-byte character, so the byte-level functions agree with Rust's
    character-level ones. *)

(** [s.split_once(c)]. *)
Definition split_once (c : ascii) (s : string) : option (string * string) :=
  match str_find c s with
  | Some i => Some (str_take i s, str_drop (S i) s)
  | None => None
  end.

(** [str::rfind(c)]: byte index of the last occurrence of [c]. *)
Fixpoint str_rfind (c : ascii) (s : string) : option nat :=
  match s with
  | EmptyString => None
  | String x s' =>
      match str_rfind c s' with
      | Some i => Some (S i)
      | None => if Ascii.eqb x c then Some 0%nat else None
      end
  end.

(** [s.rsplit_once(c)]. *)
Definition rsplit_once (c : ascii) (s : string) : option (string * string) :=
  match str_rfind c s with
  | Some i => Some (str_take i s, str_drop (S i) s)
  | None => None
  end.

(** [s.contains(pat)]. *)
Fixpoint str_contains (s pat : string) : bool :=
  String.prefix pat s ||
  match s with
  | EmptyString => false
  | String _ s' => str_contains s' pat
  end.

(** [s.strip_prefix(p)]. *)
Definition str_strip_prefix (s p : string) : option string :=
  if String.prefix p s then Some (str_drop (String.length p) s) else None.

(** [s.ends_with(p)]. *)
Definition ends_with (s p : string) : bool :=
  (String.length p <=? String.length s)%nat &&
  String.eqb (str_drop (String.length s - String.length p) s) p.

(** [s.strip_suffix(p)]. *)
Definition str_strip_suffix (s p : string) : option string :=
  if ends_with s p then Some (str_take (String.length s - String.length p) s)
  else None.

(** [s.trim_start_matches(c)]. *)
Fixpoint trim_start_matches (c : ascii) (s : string) : string :=
  match s with
  | String x s' => if Ascii.eqb x c then trim_start_matches c s' else s
  | EmptyString => s
  end.

(** [s.replace(c, to)]. *)
Fixpoint str_replace_char (c : ascii) (to s : string) : string :=
  match s with
  | EmptyString => EmptyString
  | String x s' =>
      if Ascii.eqb x c then (to ++ str_replace_char c to s')%string
      else String x (str_replace_char c to s')
  end.

Definition carriage_return : ascii := "013"%char.

(** Drop one trailing ['\r']. *)
Definition strip_cr (line : string) : string :=
  match str_strip_suffix line (String carriage_return EmptyString) with
  | Some l => l
  | None => line
  end.

(** [str::lines]: the pieces of [split_inclusive('\n')]; a piece that ends
    in ['\n'] loses it and then one ['\r'] before it; a final piece without
    ['\n'] is kept as it is; no empty piece after a final newline.  [cur] is
    the current piece so far. *)
Fixpoint lines_acc (s cur : string) : list string :=
  match s with
  | EmptyString => if String.eqb cur "" then [] else [cur]
  | String c s' =>
      if Ascii.eqb c newline then strip_cr cur :: lines_acc s' ""
      else lines_acc s' (cur ++ String c EmptyString)
  end.

Definition lines (s : string) : list string := lines_acc s "".

(** [str::to_lowercase] on ASCII text (the only text its callers below are
    stated for): ['A'..'Z'] become ['a'..'z']. *)
Definition ascii_to_lower (c : ascii) : ascii :=
  let n := nat_of_ascii c in
  if (65 <=? n)%nat && (n <=? 90)%nat then ascii_of_nat (n + 32) else c.

Fixpoint to_lowercase (s : string) : string :=
  match s with
  | EmptyString => EmptyString
  | String c s' => String (ascii_to_lower c) (to_lowercase s')
  end.

(** ASCII text: every byte below 128. *)
Definition is_ascii (s : string) : bool :=
  forallb (fun c => (nat_of_ascii c <? 128)%nat) (list_ascii_of_string s).

(* ================================================================== *)
(** ** [str::parse] for the integer types ([core::num::from_str_radix],
    radix 10) *)

Inductive IntErrorKind : Type :=
| IEEmpty
| IEInvalidDigit
| IEPosOverflow
| IENegOverflow.

(** [ParseIntError]'s [Display]. *)
Definition int_error_msg (k : IntErrorKind) : string :=
  match k with
  | IEEmpty => "cannot parse integer from empty string"
  | IEInvalidDigit => "invalid digit found in string"
  | IEPosOverflow => "number too large to fit in target type"
  | IENegOverflow => "number too small to fit in target type"
  end.

(** The digit loop: each byte must be an ASCII digit, then the accumulator
    is multiplied by 10 and the digit added (subtracted for a negative
    number), failing as soon as it leaves [[lo, hi]]. *)
Fixpoint parse_int_digits (neg : bool) (lo hi : Z) (s : string) (acc : Z)
    : result Z IntErrorKind :=
  match s with
  | EmptyString => Ok acc
  | String c s' =>
      let d := Z.of_nat (nat_of_ascii c) - 48 in
      if (0 <=? d) && (d <=? 9) then
        let v := if neg then acc * 10 - d else acc * 10 + d in
        if v <? lo then Err IENegOverflow
        else if hi <? v then Err IEPosOverflow
        else parse_int_digits neg lo hi s' v
      else Err IEInvalidDigit
  end.

(** [from_str_radix]: empty input is an error, a lone sign an invalid
    digit; a leading ['+'] is skipped, a leading ['-'] too for a signed
    type (for an unsigned one it is an invalid digit). *)
Definition parse_int (signed : bool) (lo hi : Z) (s : string)
    : result Z IntErrorKind :=
  match s with
  | EmptyString => Err IEEmpty
  | String c EmptyString =>
      if Ascii.eqb c "+" || Ascii.eqb c "-" then Err IEInvalidDigit
      else parse_int_digits false lo hi s 0
  | String "+"%char rest => parse_int_digits false lo hi rest 0
  | String "-"%char rest =>
      if signed then parse_int_digits true lo hi rest 0
      else parse_int_digits false lo hi s 0
  | _ => parse_int_digits false lo hi s 0
  end.

(** [s.parse::<i32>()]. *)
Definition parse_i32s (s : string) : result Z IntErrorKind :=
  parse_int true i32_min i32_max s.

Definition u16_max : Z := 65535.

(** [s.parse::<u16>()]. *)
Definition parse_u16s (s : string) : result Z IntErrorKind :=
  parse_int false 0 u16_max s.

(* ================================================================== *)
(** ** [gerrit.rs]: [base64_encode], [Base64Encoder] and [auth_headers] *)

Definition BASE64_CHARS : string :=
  "ABCDEFGHIJKLMNOPQRSTUVWXYZabcdefghijklmnopqrstuvwxyz0123456789+/".

(** [BASE64_CHARS[i]]; every index the encoder computes is below 64 (it is
    masked or shifted down to six bits), so the fallback is never taken. *)
Definition b64_char (i : Z) : ascii :=
  match String.get (Z.to_nat i) BASE64_CHARS with
  | Some c => c
  | None => "="%char
  end.

(** The encoder: [writer] is the output written so far, [buf] the
    three-byte buffer (bytes as [Z] in [[0, 255]]), [buf_len] its fill. *)
Record Base64Encoder := mkBase64Encoder {
  writer : string;
  buf : Z * Z * Z;
  buf_len : nat;
}.

Definition Base64Encoder_new : Base64Encoder := mkBase64Encoder "" (0, 0, 0) 0.

(** [encode_block]: four output characters, ['='] where the buffer has no
    byte; [buf] itself is not cleared, only [buf_len]. *)
Definition encode_block (e : Base64Encoder) : Base64Encoder :=
  let '(b0, b1, b2) := buf e in
  let n := buf_len e in
  let out0 := if (1 <=? n)%nat then b64_char (Z.shiftr b0 2) else "="%char in
  let out1 :=
    if (1 <=? n)%nat then
      b64_char (Z.lor (Z.shiftl (Z.land b0 3) 4)
                      (if (2 <=? n)%nat then Z.shiftr b1 4 else 0))
    else "="%char in
  let out2 :=
    if (2 <=? n)%nat then
      b64_char (Z.lor (Z.shiftl (Z.land b1 15) 2)
                      (if (3 <=? n)%nat then Z.shiftr b2 6 else 0))
    else "="%char in
  let out3 := if (3 <=? n)%nat then b64_char (Z.land b2 63) else "="%char in
  mkBase64Encoder
    (writer e ++ String out0 (String out1 (String out2 (String out3 EmptyString))))
    (buf e) 0.

(** [self.buf[i] = byte] ([i] is [buf_len], below 3 between writes). *)
Definition buf_set (b : Z * Z * Z) (i : nat) (byte : Z) : Z * Z * Z :=
  let '(b0, b1, b2) := b in
  match i with
  | O => (byte, b1, b2)
  | 1%nat => (b0, byte, b2)
  | _ => (b0, b1, byte)
  end.

(** One iteration of the loop of [Write::write]. *)
Definition write_byte (e : Base64Encoder) (byte : Z) : Base64Encoder :=
  let e := mkBase64Encoder (writer e) (buf_set (buf e) (buf_len e) byte)
             (S (buf_len e)) in
  if (buf_len e =? 3)%nat then encode_block e else e.

(** [write_all(data)]. *)
Definition write_all (e : Base64Encoder) (data : list Z) : Base64Encoder :=
  fold_left write_byte data e.

(** [finish]. *)
Definition finish (e : Base64Encoder) : string :=
  writer (if (0 <? buf_len e)%nat then encode_block e else e).

(** [input.as_bytes()]. *)
Definition as_bytes (s : string) : list Z :=
  map (fun c => Z.of_nat (nat_of_ascii c)) (list_ascii_of_string s).

(** [base64_encode]; [String::from_utf8(buf).unwrap()] returns the bytes
    as they are (they are all ASCII). *)
Definition base64_encode (input : string) : string :=
  finish (write_all Base64Encoder_new (as_bytes input)).

Inductive AuthType : Type := Basic | Bearer.

Module Credentials.
Record t := mk {
    username : string;
    password : string;
    auth_type : AuthType;
  }.
End Credentials.

(** [HeaderValue::from_str]: every byte must be a visible ASCII byte, a
    space, a tab, or a byte of 128 and above. *)
Definition header_byte_ok (c : ascii) : bool :=
  let b := nat_of_ascii c in
  ((32 <=? b)%nat && negb (b =? 127)%nat) || (b =? 9)%nat.

Definition HeaderValue_from_str (s : string) : option string :=
  if forallb header_byte_ok (list_ascii_of_string s) then Some s else None.

(** [GerritClient::auth_headers]: the header map has at most the
    [Authorization] header, given here by its value. *)
Definition auth_headers (credentials : option Credentials.t) : option string :=
  match credentials with
  | None => None
  | Some creds =>
      let header_value :=
        match Credentials.auth_type creds with
        | Bearer => ("Bearer " ++ Credentials.password creds)%string
        | Basic =>
            let encoded := base64_encode
              (Credentials.username creds ++ ":" ++ Credentials.password creds) in
            ("Basic " ++ encoded)%string
        end in
      HeaderValue_from_str header_value
  end.

(* ================================================================== *)
(** ** [review.rs]: change arguments and branch names *)

(** [parse_change_patchset]. *)
Definition parse_change_patchset (input : string) : string * option Z :=
  match split_once "," input with
  | Some (change, ps_str) =>
      match parse_i32s ps_str with
      | Ok ps => (change, Some ps)
      | Err _ => (input, None)
      end
  | None => (input, None)
  end.

(** [.context(msg)] on a failed [parse]. *)
Definition parse_ctx (msg : string) (k : IntErrorKind) : Error :=
  EContext msg (EMsg (int_error_msg k)).

(** [parse_compare_arg]. *)
Definition parse_compare_arg (input : string)
    : result (string * Z * option Z) Error :=
  match split_once "," input with
  | None => Err (EMsg "compare argument must be CHANGE,PS[-PS]")
  | Some (change, ps_part) =>
      if String.eqb change "" then
        Err (EMsg "compare argument has empty change number")
      else
        match split_once "-" ps_part with
        | Some (from_str, to_str) =>
            match parse_i32s from_str with
            | Err k => Err (parse_ctx "invalid 'from' patchset number in compare argument" k)
            | Ok from =>
                match parse_i32s to_str with
                | Err k => Err (parse_ctx "invalid 'to' patchset number in compare argument" k)
                | Ok to => Ok (change, from, Some to)
                end
            end
        | None =>
            match parse_i32s ps_part with
            | Err k => Err (parse_ctx "invalid patchset number in compare argument" k)
            | Ok from => Ok (change, from, None)
            end
        end
  end.

(** [download_branch_name]. *)
Definition download_branch_name (change : ChangeInfo.t) (patchset : Z) : string :=
  let by_topic :=
    match ChangeInfo.topic change, ChangeInfo.owner change with
    | Some topic, Some owner =>
        match AccountInfo.username owner with
        | Some username => Some ("review/" ++ username ++ "/" ++ topic)%string
        | None =>
            match AccountInfo.name owner with
            | Some name =>
                let sanitized := str_replace_char " " "_" name in
                Some ("review/" ++ sanitized ++ "/" ++ topic)%string
            | None => None
            end
        end
    | _, _ => None
    end in
  match by_topic with
  | Some b => b
  | None =>
      let change_num := default 0 (ChangeInfo.number change) in
      ("review/" ++ pretty change_num ++ "/" ++ pretty patchset)%string
  end.

(* ================================================================== *)
(** ** [config.rs]: [GerritConfig::make_remote_url] and [populate_rewrites] *)

Module GerritConfig.
Record t := mk {
    host : string;
    ssh_port : option Z;   (* [Option<u16>] *)
    http_port : option Z;  (* [Option<u16>] *)
    project : string;
    branch : string;
    remote : string;
    scheme : string;
    default_rebase : bool;
    track : bool;
    notopic : bool;
    usepushurl : bool;
    ssl_verify : bool;
    username : option string;
  }.
End GerritConfig.

(** [GerritConfig::make_remote_url]. *)
Definition make_remote_url (c : GerritConfig.t) : string :=
  let url := (GerritConfig.scheme c ++ "://")%string in
  let url :=
    match GerritConfig.username c with
    | Some username => (url ++ username ++ "@")%string
    | None => url
    end in
  let url := (url ++ GerritConfig.host c)%string in
  let url :=
    if String.eqb (GerritConfig.scheme c) "ssh" then
      match GerritConfig.ssh_port c with
      | Some port => (url ++ ":" ++ pretty port)%string
      | None => url
      end
    else
      match GerritConfig.http_port c with
      | Some port => (url ++ ":" ++ pretty port)%string
      | None => url
      end in
  (url ++ "/" ++ GerritConfig.project c)%string.

(** The body of the [for line in config_list.lines()] loop of
    [populate_rewrites]; [&key[4..4 + base.len()]] is the substring of [key]
    at the position of [base] in [lower_key]. *)
Definition populate_line (rewrites : UrlRewrites) (line : string) : UrlRewrites :=
  match split_once "=" line with
  | None => rewrites
  | Some (key, value) =>
      let lower_key := to_lowercase key in
      match str_strip_prefix lower_key "url." with
      | None => rewrites
      | Some rest =>
          match str_strip_suffix rest ".insteadof" with
          | Some base =>
              let original_base := String.substring 4 (String.length base) key in
              mkUrlRewrites (instead_of rewrites ++ [(value, original_base)])
                (push_instead_of rewrites)
          | None =>
              match str_strip_suffix rest ".pushinsteadof" with
              | Some base =>
                  let original_base := String.substring 4 (String.length base) key in
                  mkUrlRewrites (instead_of rewrites)
                    (push_instead_of rewrites ++ [(value, original_base)])
              | None => rewrites
              end
          end
      end
  end.

(** [populate_rewrites]. *)
Definition populate_rewrites (config_list : string) : UrlRewrites :=
  fold_left populate_line (lines config_list) (mkUrlRewrites [] []).

(* ================================================================== *)
(** ** [review_query.rs]: remote URLs *)

(** [is_http_remote]. *)
Definition is_http_remote (url : string) : bool :=
  starts_with url "http://" || starts_with url "https://".

(** [parse_userhost]. *)
Definition parse_userhost (userhost : string)
    : result (string * option string * option Z) Error :=
  let split_port :=
    match rsplit_once ":" userhost with
    | Some (uh, port_str) =>
        match parse_u16s port_str with
        | Ok port => Ok (uh, Some port)
        | Err k => Err (parse_ctx "parsing port from URL" k)
        end
    | None => Ok (userhost, None)
    end in
  match split_port with
  | Err e => Err e
  | Ok (userhost, port) =>
      match rsplit_once "@" userhost with
      | Some (user, host) => Ok (host, Some user, port)
      | None => Ok (userhost, None, port)
      end
  end.

(** [parse_ssh_url_format]. *)
Definition parse_ssh_url_format (url : string)
    : result (string * option string * option Z * string) Error :=
  match str_strip_prefix url "ssh://" with
  | None => Err (EMsg "expected ssh:// URL")
  | Some rest =>
      match split_once "/" rest with
      | None => Err (EMsg "SSH URL has no path component")
      | Some (userhost, path) =>
          match parse_userhost userhost with
          | Err e => Err e
          | Ok (hostname, username, port) =>
              let trimmed := trim_start_matches "/" path in
              let project :=
                match str_strip_suffix trimmed ".git" with
                | Some p => p
                | None => trimmed
                end in
              Ok (hostname, username, port, project)
          end
      end
  end.

(** [parse_scp_format]. *)
Definition parse_scp_format (url : string)
    : result (string * option string * option Z * string) Error :=
  match split_once ":" url with
  | None => Err (EMsg "SCP URL must have host:path form")
  | Some (host_part, path) =>
      if starts_with path "//" then
        Err (EMsg "ambiguous SCP URL (path starts with //)")
      else
        let '(hostname, username) :=
          match rsplit_once "@" host_part with
          | Some (user, host) => (host, Some user)
          | None => (host_part, None)
          end in
        let project :=
          match str_strip_suffix path ".git" with
          | Some p => p
          | None => path
          end in
        Ok (hostname, username, None, project)
  end.

(** [parse_gerrit_ssh_params]. *)
Definition parse_gerrit_ssh_params (url : string)
    : result (string * option string * option Z * string) Error :=
  if str_contains url "://" then parse_ssh_url_format url
  else parse_scp_format url.

(* ================================================================== *)
(** ** [review.rs]: numeric path segments of a change URL *)

(** [char::is_ascii_digit]. *)
Definition is_digit (c : ascii) : bool :=
  (48 <=? nat_of_ascii c)%nat && (nat_of_ascii c <=? 57)%nat.

(** [s.chars().all(|c| c.is_ascii_digit())]. *)
Definition all_digits (s : string) : bool :=
  forallb is_digit (list_ascii_of_string s).






(* ================================================================== *)
(** ** [config.rs]: [parse_gitreview] *)

(** The UTF-8 encoding of a character, from its bytes. *)
Definition utf8_char (bytes : list nat) : string :=
  string_of_list_ascii (map ascii_of_nat bytes).

(** The characters [char::is_whitespace] accepts (Unicode White_Space),
    UTF-8 encoded: U+0009..U+000D, U+0020, U+0085, U+00A0, U+1680,
    U+2000..U+200A, U+2028, U+2029, U+202F, U+205F and U+3000. *)
Definition whitespace_chars : list string :=
  (map (fun b => utf8_char [b]) [9; 10; 11; 12; 13; 32] ++
   map (fun b => utf8_char [194; b]) [133; 160] ++
   [utf8_char [225; 154; 128]] ++
   map (fun b => utf8_char [226; 128; b]) (seq 128 11 ++ [168; 169; 175]) ++
   [utf8_char [226; 129; 159]; utf8_char [227; 128; 128]])%nat.

(** The white space character [s] starts or ends with, if any (a [str] is
    valid UTF-8, so a matching byte sequence at either end is a whole
    character). *)
Definition ws_prefix (s : string) : option string :=
  List.find (fun w => String.prefix w s) whitespace_chars.

Definition ws_suffix (s : string) : option string :=
  List.find (fun w => ends_with s w) whitespace_chars.

(** [str::trim_start] and [str::trim_end]: drop white space characters from
    one end while there is one; every step drops at least one byte, so
    [String.length s] steps suffice. *)
Fixpoint trim_start_n (n : nat) (s : string) : string :=
  match n with
  | O => s
  | S n' =>
      match ws_prefix s with
      | Some w => trim_start_n n' (str_drop (String.length w) s)
      | None => s
      end
  end.

Definition trim_start (s : string) : string := trim_start_n (String.length s) s.

Fixpoint trim_end_n (n : nat) (s : string) : string :=
  match n with
  | O => s
  | S n' =>
      match ws_suffix s with
      | Some w => trim_end_n n' (str_take (String.length s - String.length w) s)
      | None => s
      end
  end.

Definition trim_end (s : string) : string := trim_end_n (String.length s) s.

(** [str::trim]. *)
Definition trim (s : string) : string := trim_start (trim_end s).

(** [str::eq_ignore_ascii_case]. *)
Definition eq_ignore_ascii_case (a b : string) : bool :=
  String.eqb (to_lowercase a) (to_lowercase b).

(** Loop state of [parse_gitreview]: [(in_gerrit_section, found_section,
    values)]. *)
Definition gitreview_state : Type := (bool * bool * gmap string string)%type.

(** One iteration of [for line in content.lines()] in [parse_gitreview]. *)
Definition parse_gitreview_step (st : gitreview_state) (line : string) : gitreview_state :=
  let '(in_gerrit_section, found_section, values) := st in
  let trimmed := trim line in
  if String.eqb trimmed "" || starts_with trimmed "#" || starts_with trimmed ";" then st
  else if starts_with trimmed "[" then
    let in_gerrit_section := eq_ignore_ascii_case trimmed "[gerrit]" in
    (in_gerrit_section, (if in_gerrit_section then true else found_section), values)
  else if in_gerrit_section then
    match (match split_once "=" trimmed with
           | Some kv => Some kv
           | None => split_once ":" trimmed
           end) with
    | Some (key, value) =>
        (in_gerrit_section, found_section, <[to_lowercase (trim key) := trim value]> values)
    | None => st
    end
  else st.

(** [parse_gitreview]. *)
Definition parse_gitreview (content : string) : result (gmap string string) Error :=
  let '(_, found_section, values) :=
    fold_left parse_gitreview_step (lines content) (false, false, ∅) in
  if found_section then Ok values
  else Err (EMsg "missing [gerrit] section in .gitreview").

(* ================================================================== *)
(** * Proofs *)

Example alias_url_spec_example :
  alias_url "https://github.com/user/repo"
    (mkUrlRewrites [("https://", "http://");
                    ("https://github.com/", "ssh://git@github.com/")] [])
    false = "ssh://git@github.com/user/repo".
Proof. reflexivity. Qed.

Example strip_xssi_example :
  strip_xssi_prefix (")]}'" ++ String newline "3.9.1") = "3.9.1".
Proof. reflexivity. Qed.

(** ** String lemmas *)

Definition has_newline (s : string) : bool :=
  existsb (Ascii.eqb newline) (list_ascii_of_string s).

Lemma str_find_none (s : string) :
  has_newline s = false -> str_find newline s = None.
Proof.
  induction s as [|c s IH]; simpl; [done|].
  intros H. apply orb_false_iff in H as [H1 H2].
  rewrite Ascii.eqb_sym, H1, IH; done.
Qed.

Lemma str_app_nil (b : string) : ("" ++ b)%string = b.
Proof. reflexivity. Qed.

Lemma str_app_cons (c : ascii) (a b : string) :
  (String c a ++ b)%string = String c (a ++ b).
Proof. reflexivity. Qed.

Lemma str_find_app_newline (first rest : string) :
  has_newline first = false ->
  str_find newline (first ++ String newline rest) = Some (String.length first).
Proof.
  induction first as [|c s IH]; rewrite ?str_app_nil, ?str_app_cons; simpl.
  - rewrite ?Ascii.eqb_refl. done.
  - intros H. apply orb_false_iff in H as [H1 H2].
    rewrite Ascii.eqb_sym, H1, IH; done.
Qed.

Lemma str_take_app (a b : string) : str_take (String.length a) (a ++ b) = a.
Proof.
  unfold str_take. induction a as [|c a IH];
    rewrite ?str_app_nil, ?str_app_cons; simpl.
  - destruct b; done.
  - rewrite IH. done.
Qed.

Lemma substring_all (s : string) : String.substring 0 (String.length s) s = s.
Proof. induction s as [|c s IH]; simpl; [done|]. rewrite IH. done. Qed.

Lemma string_length_app (a b : string) :
  String.length (a ++ b) = (String.length a + String.length b)%nat.
Proof.
  induction a as [|c a IH]; rewrite ?str_app_nil, ?str_app_cons; simpl; lia.
Qed.

Lemma str_drop_app (a b : string) : str_drop (String.length a) (a ++ b) = b.
Proof.
  unfold str_drop. rewrite string_length_app.
  replace (String.length a + String.length b - String.length a)%nat
    with (String.length b) by lia.
  induction a as [|c a IH]; rewrite ?str_app_nil, ?str_app_cons; simpl;
    [apply substring_all|exact IH].
Qed.



Lemma str_drop_app_add (a b : string) (n : nat) :
  str_drop (String.length a + n) (a ++ b) = str_drop n b.
Proof.
  unfold str_drop. rewrite string_length_app.
  replace (String.length a + String.length b - (String.length a + n))%nat
    with (String.length b - n)%nat by lia.
  induction a as [|c a IH]; rewrite ?str_app_nil, ?str_app_cons; simpl;
    [done|exact IH].
Qed.

Lemma str_drop_after_newline (first rest : string) :
  str_drop (S (String.length first)) (first ++ String newline rest) = rest.
Proof.
  replace (S (String.length first)) with (String.length first + 1)%nat by lia.
  rewrite str_drop_app_add. unfold str_drop. simpl.
  rewrite Nat.sub_0_r. apply substring_all.
Qed.

(** ** C8: XSSI prefix stripping *)

(** Claim C8: if the text before the first newline of [body] begins with
    [")]}"] (quote optional), [strip_xssi_prefix] removes exactly that first
    line and its newline; any other body (a different first line, or no
    newline at all) is returned unchanged. *)
Theorem strip_xssi_prefix_spec (body : string) :
  (forall first rest : string,
     has_newline first = false ->
     body = (first ++ String newline rest)%string ->
     strip_xssi_prefix body = if starts_with first ")]}" then rest else body) /\
  (has_newline body = false -> strip_xssi_prefix body = body).
Proof.
  split.
  - intros first rest Hfirst ->. unfold strip_xssi_prefix.
    rewrite (str_find_app_newline first rest Hfirst), str_take_app.
    destruct (starts_with first ")]}"); [apply str_drop_after_newline|done].
  - intros H. unfold strip_xssi_prefix. rewrite (str_find_none body H). done.
Qed.

Lemma strip_xssi_prefix_spec_witness :
  strip_xssi_prefix (")]}'" ++ String newline "3.9.1") = "3.9.1" /\
  strip_xssi_prefix "abc" = "abc".
Proof.
  split.
  - exact (proj1 (strip_xssi_prefix_spec _) ")]}'" "3.9.1"
             eq_refl eq_refl).
  - exact (proj2 (strip_xssi_prefix_spec "abc") eq_refl).
Defined.

(** ** C9 / C10: URL rewrites *)

Section LongestMatch.
Variable url : string.

Definition rule_matches (q : string) : bool := starts_with url q.

Lemma longest_match_loop_some (rules : list (string * string))
      (bm : option (string * string)) (bl : nat) (p r : string) :
    longest_match_loop url rules bm bl = Some (p, r) ->
    (bm = Some (p, r) /\
     forall q s, In (q, s) rules -> rule_matches q = true ->
       (String.length q <= bl)%nat)
    \/ (exists l1 l2, rules = l1 ++ (p, r) :: l2 /\
          rule_matches p = true /\ (bl < String.length p)%nat /\
          (forall q s, In (q, s) l1 -> rule_matches q = true ->
             (String.length q < String.length p)%nat) /\
          (forall q s, In (q, s) l2 -> rule_matches q = true ->
             (String.length q <= String.length p)%nat)).
  Proof.
    revert bm bl.
    induction rules as [|[q s] rest IH]; intros bm bl; simpl.
    - intros ->. left. split; [done|]. intros ? ? [].
    - destruct (starts_with url q && (bl <? String.length q)%nat) eqn:E.
      + apply andb_true_iff in E as [Em El]. apply Nat.ltb_lt in El.
        intros Hl. destruct (IH _ _ Hl)
          as [[Heq Hall] | (l1 & l2 & -> & Hm & Hlt & H1 & H2)].
        * injection Heq as <- <-. right. exists [], rest.
          split; [done|]. split; [done|]. split; [done|].
          split; [by intros ? ? []|exact Hall].
        * right. exists ((q, s) :: l1), l2.
          split; [done|]. split; [done|]. split; [lia|].
          split; [|exact H2].
          intros q' s' [Hq|Hq] Hm'.
          -- injection Hq as <- <-. lia.
          -- exact (H1 q' s' Hq Hm').
      + assert (Hq : rule_matches q = true -> (String.length q <= bl)%nat).
        { unfold rule_matches. intros Hm. rewrite Hm in E. simpl in E.
          apply Nat.ltb_ge in E. done. }
        intros Hl. destruct (IH _ _ Hl)
          as [[Heq Hall] | (l1 & l2 & -> & Hm & Hlt & H1 & H2)].
        * left. split; [done|]. intros q' s' [Hq'|Hq'] Hm'.
          -- injection Hq' as <- <-. auto.
          -- exact (Hall q' s' Hq' Hm').
        * right. exists ((q, s) :: l1), l2.
          split; [done|]. split; [done|]. split; [done|].
          split; [|exact H2].
          intros q' s' [Hq'|Hq'] Hm'.
          -- injection Hq' as <- <-. specialize (Hq Hm'). lia.
          -- exact (H1 q' s' Hq' Hm').
  Qed.

Lemma longest_match_loop_none (rules : list (string * string))
      (bm : option (string * string)) (bl : nat) :
    longest_match_loop url rules bm bl = None ->
    bm = None /\
    forall q s, In (q, s) rules -> rule_matches q = true ->
      (String.length q <= bl)%nat.
  Proof.
    revert bm bl.
    induction rules as [|[q s] rest IH]; intros bm bl; simpl.
    - intros ->. split; [done|]. intros ? ? [].
    - destruct (starts_with url q && (bl <? String.length q)%nat) eqn:E;
        intros Hl; destruct (IH _ _ Hl) as [Hbm Hall]; [done|].
      split; [done|]. intros q' s' [Hq'|Hq'] Hm'.
      + injection Hq' as <- <-. unfold rule_matches in Hm'.
        rewrite Hm' in E. simpl in E. apply Nat.ltb_ge in E. done.
      + exact (Hall q' s' Hq' Hm').
  Qed.
End LongestMatch.


Lemma str_prefix_empty (s : string) : starts_with s "" = true.
Proof. destruct s; reflexivity. Qed.

(** Longest-match selection of [longest_match_replace], for the rules with a
    non-empty prefix: the selected rule matches, every earlier matching rule
    is strictly shorter (ties keep the first seen), no later matching rule is
    longer; when nothing is selected every matching rule has an empty
    prefix. *)
Lemma longest_match_replace_spec (url : string) (rules : list (string * string)) :
  (exists l1 p r l2,
      rules = l1 ++ (p, r) :: l2 /\ starts_with url p = true /\
      (0 < String.length p)%nat /\
      (forall q s, In (q, s) l1 -> starts_with url q = true ->
         (String.length q < String.length p)%nat) /\
      (forall q s, In (q, s) l2 -> starts_with url q = true ->
         (String.length q <= String.length p)%nat) /\
      longest_match_replace url rules =
        Some (r ++ str_drop (String.length p) url)%string)
  \/ ((forall q s, In (q, s) rules -> starts_with url q = true -> q = "") /\
      longest_match_replace url rules = None).
Proof.
  unfold longest_match_replace.
  destruct (longest_match_loop url rules None 0%nat) as [[p r]|] eqn:E.
  - left. destruct (longest_match_loop_some url rules None 0 p r E)
      as [[Hc _] | (l1 & l2 & Hr & Hm & Hlt & H1 & H2)]; [done|].
    exists l1, p, r, l2. auto 7.
  - right. destruct (longest_match_loop_none url rules None 0 E) as [_ Hall].
    split; [|done]. intros q s Hin Hm. specialize (Hall q s Hin Hm).
    destruct q; [done|simpl in Hall; lia].
Qed.

(** Fetch resolution ([for_push = false]) never looks at the
    [pushInsteadOf] rules. *)
Lemma alias_url_fetch_ignores_push (url : string)
    (ins push1 push2 : list (string * string)) :
  alias_url url (mkUrlRewrites ins push1) false =
  alias_url url (mkUrlRewrites ins push2) false.
Proof. reflexivity. Qed.

(** Push resolution: a [pushInsteadOf] rewrite wins; otherwise the result is
    the fetch resolution. *)
Lemma alias_url_push_precedence (url : string) (rw : UrlRewrites) :
  alias_url url rw true =
  match longest_match_replace url (push_instead_of rw) with
  | Some result => result
  | None => alias_url url rw false
  end.
Proof. unfold alias_url. destruct (longest_match_replace _ _); done. Qed.

(** Claim C9 (failing input): the rule [("", "pre/")] has an empty
    [old_prefix], which is a literal prefix of every URL and the only
    matching rule, yet [alias_url] returns the URL unchanged: the loop of
    [longest_match_replace] starts from [best_len = 0] and only accepts a
    prefix strictly longer than [best_len]. *)
Theorem alias_url_empty_prefix_ignored :
  starts_with "https://x" "" = true /\
  alias_url "https://x" (mkUrlRewrites [("", "pre/")] []) false = "https://x".
Proof. split; reflexivity. Qed.

(** Claim C10 (failing input): with [for_push = true] and the
    [pushInsteadOf] rule [("", "P")], whose empty prefix matches every URL,
    [alias_url] still consults the [insteadOf] rules and returns their
    rewrite. *)
Theorem alias_url_push_empty_prefix_falls_through :
  starts_with "https://x" "" = true /\
  alias_url "https://x"
    (mkUrlRewrites [("https://", "ssh://")] [("", "P")]) true = "ssh://x".
Proof. split; reflexivity. Qed.

(** ** C4: classification of HTTP outcomes *)

(** Claim C4: [get_once] maps a transport failure to [Network], 401 and 403
    to [AuthFailed], 404 to [NotFound], any other non-2xx status to
    [ServerError] with that status and the body read; [is_retryable] holds
    exactly for [ServerError] with status at least 500 and for [Network]. *)
Theorem get_once_classification :
  (forall d, get_once (SendFailed d) = Err (Network d)) /\
  (forall status body, status = 401 \/ status = 403 ->
     get_once (Responded status body) = Err (AuthFailed status)) /\
  (forall body, get_once (Responded 404 body) = Err NotFound) /\
  (forall status body, status <> 401 -> status <> 403 -> status <> 404 ->
     ~ (200 <= status <= 299) ->
     get_once (Responded status (Ok body)) = Err (ServerError status body)) /\
  (forall e, is_retryable e = true <->
     (exists status body, e = ServerError status body /\ 500 <= status) \/
     (exists d, e = Network d)).
Proof.
  split; [done|]. split.
  { intros status body [-> | ->]; done. }
  split; [done|]. split.
  - intros status body H1 H2 H3 H4. simpl.
    apply Z.eqb_neq in H1, H2, H3. rewrite H1, H2, H3. simpl.
    destruct (is_success status) eqn:E; [|done].
    unfold is_success in E. apply andb_true_iff in E as [E1 E2].
    apply Z.leb_le in E1, E2. lia.
  - intros []; simpl.
    + split; [done|]. intros [(? & ? & ? & _) | (? & ?)]; done.
    + split; [done|]. intros [(? & ? & ? & _) | (? & ?)]; done.
    + split.
      * intros H. apply Z.leb_le in H. left. eauto.
      * intros [(st & b & [= <- <-] & H) | (? & ?)]; [|done].
        apply Z.leb_le. done.
    + split; [eauto|done].
Qed.

(** ServerError bodies that cannot be read become the empty string; the
    error is still [ServerError] with the status. *)
Lemma get_once_unreadable_error_body (status : Z) (d : string) :
  status <> 401 -> status <> 403 -> status <> 404 -> ~ (200 <= status <= 299) ->
  get_once (Responded status (Err d)) = Err (ServerError status "").
Proof.
  intros H1 H2 H3 H4. simpl.
  apply Z.eqb_neq in H1, H2, H3. rewrite H1, H2, H3. simpl.
  destruct (is_success status) eqn:E; [|done].
  unfold is_success in E. apply andb_true_iff in E as [E1 E2].
  apply Z.leb_le in E1, E2. lia.
Qed.

Lemma get_once_classification_witness :
  get_once (Responded 403 (Ok "x")) = Err (AuthFailed 403) /\
  get_once (Responded 502 (Ok "bad")) = Err (ServerError 502 "bad") /\
  is_retryable (Network "reset") = true.
Proof.
  destruct get_once_classification as (_ & Hauth & _ & Hserv & Hretry).
  split; [apply Hauth; right; reflexivity|]. split.
  - apply Hserv; lia.
  - apply Hretry. right. exists "reset". reflexivity.
Defined.

(** ** C5: retry policy of [get] *)

Lemma ctx_request_ne_exhausted (path : string) : ctx_request path <> ctx_exhausted path.
Proof.
  unfold ctx_request, ctx_exhausted. intros H.
  apply (f_equal String.length) in H.
  rewrite !string_length_app in H. simpl in H. lia.
Qed.

(** When every one of the four attempts fails with a retryable error, [get]
    makes exactly four attempts, sleeps 1s, 2s and 4s in between, and
    returns the fourth error under the plain request context. *)
Lemma get_all_retryable (path : string) (server : nat -> HttpExchange)
    (e0 e1 e2 e3 : GerritError) :
  get_once (server 0%nat) = Err e0 -> is_retryable e0 = true ->
  get_once (server 1%nat) = Err e1 -> is_retryable e1 = true ->
  get_once (server 2%nat) = Err e2 -> is_retryable e2 = true ->
  get_once (server 3%nat) = Err e3 ->
  get path server =
    ([Attempt 0; Sleep 1; Attempt 1; Sleep 2; Attempt 2; Sleep 4; Attempt 3],
     GErr (EContext (ctx_request path) (EGerrit e3))).
Proof.
  intros H0 R0 H1 R1 H2 R2 H3. unfold get. simpl.
  rewrite H0, R0. simpl. rewrite H1, R1. simpl. rewrite H2, R2. simpl.
  rewrite H3. destruct (is_retryable e3); reflexivity.
Qed.

(** A non-retryable failure on the first attempt is returned at once, with
    no sleep. *)
Lemma get_first_not_retryable (path : string) (server : nat -> HttpExchange)
    (e : GerritError) :
  get_once (server 0%nat) = Err e -> is_retryable e = false ->
  get path server = ([Attempt 0], GErr (EContext (ctx_request path) (EGerrit e))).
Proof. intros H R. unfold get. simpl. rewrite H, R. reflexivity. Qed.

(** The [(exhausted retries)] context after the loop is never produced, and
    the [unwrap] never panics: the loop always returns from inside. *)
Lemma get_loop_never_exhausted (path : string) (server : nat -> HttpExchange)
    (remaining attempt : nat) (last_err : option GerritError) :
  (remaining + attempt = S MAX_RETRIES)%nat -> (attempt <= MAX_RETRIES)%nat ->
  match snd (get_loop path server remaining attempt last_err) with
  | GErr (EContext c _) => c = ctx_request path
  | GErr _ | GPanic => False
  | GOk _ => True
  end.
Proof.
  revert attempt last_err.
  induction remaining as [|rem IH]; intros attempt last_err Hsum Hle.
  - unfold MAX_RETRIES in *. lia.
  - simpl. destruct (get_once (server attempt)) as [b|e]; [done|].
    destruct (is_retryable e && (attempt <? MAX_RETRIES)%nat) eqn:E.
    + apply andb_true_iff in E as [_ E]. apply Nat.ltb_lt in E.
      specialize (IH (S attempt) (Some e) ltac:(lia) ltac:(lia)).
      destruct (get_loop path server rem (S attempt) (Some e)) as [tr out].
      exact IH.
    + done.
Qed.

(** Claim C5 (failing input): a GET whose every attempt answers HTTP 503
    makes 4 attempts with sleeps of 1s, 2s and 4s, as claimed, and a 404
    makes one attempt without sleeping; but the final 503 is wrapped in the
    plain context ["Gerrit API request to <path>"], not in the
    ["(exhausted retries)"] context: on the last attempt the guard
    [attempt < MAX_RETRIES] fails and the error leaves through the
    non-retryable arm. *)
Theorem get_503_final_context_not_exhausted (path body : string) :
  get path (fun _ => Responded 503 (Ok body)) =
    ([Attempt 0; Sleep 1; Attempt 1; Sleep 2; Attempt 2; Sleep 4; Attempt 3],
     GErr (EContext (ctx_request path) (EGerrit (ServerError 503 body)))) /\
  ctx_request path <> ctx_exhausted path /\
  get path (fun _ => Responded 404 (Ok body)) =
    ([Attempt 0], GErr (EContext (ctx_request path) (EGerrit NotFound))).
Proof.
  split; [|split].
  - apply (get_all_retryable path _ (ServerError 503 body) (ServerError 503 body)
             (ServerError 503 body)); reflexivity.
  - apply ctx_request_ne_exhausted.
  - apply get_first_not_retryable; reflexivity.
Qed.

(** ** C6: [find_target_revision] *)

Lemma find_revision_by_number_some (ps : Z) (l : list (string * RevisionInfo.t))
    (sha : string) (rev : RevisionInfo.t) :
  find_revision_by_number ps l = Some (sha, rev) ->
  (sha, rev) ∈ l /\ RevisionInfo.number rev = Some ps.
Proof.
  induction l as [|[s r] l IH]; simpl; [done|].
  case_bool_decide as Hn.
  - intros [= -> ->]. split; [left|done].
  - intros H. destruct (IH H) as [Hin Hnum]. split; [by right|done].
Qed.

Lemma find_revision_by_number_none (ps : Z) (l : list (string * RevisionInfo.t)) :
  find_revision_by_number ps l = None ->
  forall sha rev, (sha, rev) ∈ l -> RevisionInfo.number rev <> Some ps.
Proof.
  induction l as [|[s r] l IH]; simpl.
  - intros _ sha rev Hin. by apply elem_of_nil in Hin.
  - case_bool_decide as Hn; [done|].
    intros H sha rev Hin. apply elem_of_cons in Hin as [[= -> ->]|Hin]; [done|].
    exact (IH H sha rev Hin).
Qed.

Definition msg_no_revision_data : string := "change has no revision data".

(** Claim C6: with [Some n], [find_target_revision] returns an entry of the
    revision map whose patchset number is [n], and fails with the message
    ["patchset <n> not found in change"] exactly when no entry has that
    number; with [None] it returns the entry keyed by [current_revision] and
    fails when [current_revision] is absent or not a key; a change without a
    revision map fails with ["change has no revision data"], a message none
    of the other failures uses. *)
Theorem find_target_revision_spec (change : ChangeInfo.t) (patchset : option Z) :
  match ChangeInfo.revisions change with
  | None => find_target_revision change patchset = Err (EMsg msg_no_revision_data)
  | Some revs =>
      match patchset with
      | Some n =>
          (exists sha rev, revs !! sha = Some rev /\
             RevisionInfo.number rev = Some n /\
             find_target_revision change patchset = Ok (sha, rev))
          \/ ((forall sha rev, revs !! sha = Some rev ->
                 RevisionInfo.number rev <> Some n) /\
              find_target_revision change patchset =
                Err (EMsg ("patchset " ++ pretty n ++ " not found in change")))
      | None =>
          match ChangeInfo.current_revision change with
          | Some c =>
              match revs !! c with
              | Some rev => find_target_revision change patchset = Ok (c, rev)
              | None => exists msg, find_target_revision change patchset = Err (EMsg msg)
                          /\ msg <> msg_no_revision_data
              end
          | None => exists msg, find_target_revision change patchset = Err (EMsg msg)
                      /\ msg <> msg_no_revision_data
          end
      end
  end.
Proof.
  unfold find_target_revision.
  destruct (ChangeInfo.revisions change) as [revs|]; [|done].
  destruct patchset as [n|].
  - destruct (find_revision_by_number n (map_to_list revs)) as [[sha rev]|] eqn:E.
    + left. apply find_revision_by_number_some in E as [Hin Hnum].
      exists sha, rev. split; [|done]. by apply elem_of_map_to_list.
    + right. split; [|done]. intros sha rev Hl.
      apply (find_revision_by_number_none n _ E sha rev). by apply elem_of_map_to_list.
  - destruct (ChangeInfo.current_revision change) as [c|].
    + destruct (revs !! c); [done|]. by eexists.
    + by eexists.
Qed.

(** The patchset-not-found message differs from the no-revision-data one. *)
Lemma msg_patchset_not_found_distinct (n : Z) :
  ("patchset " ++ pretty n ++ " not found in change")%string <> msg_no_revision_data.
Proof. unfold msg_no_revision_data. intros H. discriminate H. Qed.

Definition rev_ps (n : Z) (r : string) : RevisionInfo.t :=
  RevisionInfo.mk (Some n) (Some r) None.

Definition revs_ps12 : gmap string RevisionInfo.t :=
  <["aaa" := rev_ps 1 "refs/changes/07/7/1"]>
    (<["bbb" := rev_ps 2 "refs/changes/07/7/2"]> ∅).

Definition change_ps12 : ChangeInfo.t :=
  ChangeInfo.mk None None None None None None None None None (Some 7) None
    (Some "bbb")
    (Some revs_ps12)
    None None None.

Lemma find_target_revision_spec_witness :
  find_target_revision change_ps12 (Some 99) =
    Err (EMsg "patchset 99 not found in change") /\
  find_target_revision change_ps12 None =
    Ok ("bbb", rev_ps 2 "refs/changes/07/7/2").
Proof.
  assert (Hr : ChangeInfo.revisions change_ps12 = Some revs_ps12) by reflexivity.
  split.
  - pose proof (find_target_revision_spec change_ps12 (Some 99)) as H.
    rewrite Hr in H. destruct H as [(sha & rev & Hl & Hn & Hf) | [_ Hf]].
    + exfalso. unfold revs_ps12 in Hl.
      rewrite lookup_insert_Some, lookup_insert_Some, lookup_empty in Hl.
      destruct Hl as [[_ <-]|[_ [[_ <-]|[_ Hl]]]];
        [discriminate Hn|discriminate Hn|discriminate Hl].
    + rewrite Hf. vm_compute. reflexivity.
  - pose proof (find_target_revision_spec change_ps12 None) as H.
    rewrite Hr in H.
    assert (Hc : ChangeInfo.current_revision change_ps12 = Some "bbb") by reflexivity.
    rewrite Hc in H.
    assert (Hl : revs_ps12 !! "bbb" = Some (rev_ps 2 "refs/changes/07/7/2")).
    { unfold revs_ps12. rewrite lookup_insert_ne by done.
      by rewrite lookup_insert_eq. }
    rewrite Hl in H. exact H.
Defined.

(** ** C2: current revision of the SSH normaliser *)

(** A patch set that the loop enters into the revision map: it carries a
    revision, a number and a ref. *)
Definition ps_included (ps : SshPatchSet.t) : Prop :=
  is_Some (SshPatchSet.revision ps) /\ is_Some (SshPatchSet.number ps) /\
  is_Some (SshPatchSet.git_ref ps).














(** ** C7 / C3: comment threads *)

Definition mk_comment (path id : string) (reply : option string) (updated : string)
    (message : string) (unresolved : option bool) : CommentInfo.t :=
  CommentInfo.mk (Some id) (Some path) (Some 10) None reply (Some message)
    (Some updated) None (Some 1) unresolved.

Definition c1 : CommentInfo.t :=
  mk_comment "f.rs" "c1" None "2024-01-01" "root" (Some true).
Definition c2 : CommentInfo.t :=
  mk_comment "f.rs" "c2" (Some "c1") "2024-01-02" "done" (Some false).

Example build_threads_spec_example :
  build_threads [("f.rs", [c1; c2])] =
    Some [CommentThread.mk "f.rs" (Some 10) true
            [to_thread_comment c1; to_thread_comment c2]].
Proof. vm_compute. reflexivity. Qed.

Lemma insert_stable_perm {A} (le : A -> A -> bool) (x : A) (l : list A) :
  insert_stable le x l ≡ₚ x :: l.
Proof.
  induction l as [|y l IH]; simpl; [done|].
  destruct (le y x); [|done].
  rewrite IH. apply Permutation_swap.
Qed.

Lemma stable_sort_perm {A} (le : A -> A -> bool) (l : list A) :
  stable_sort le l ≡ₚ l.
Proof.
  unfold stable_sort.
  enough (H : forall acc, fold_left (fun acc x => insert_stable le x acc) l acc
                            ≡ₚ l ++ acc) by (rewrite H, app_nil_r; done).
  induction l as [|x l IH]; intros acc; simpl; [done|].
  rewrite IH, insert_stable_perm. symmetry. apply Permutation_middle.
Qed.

(** Claim C7: every thread returned by [build_threads] comes from a root
    whose depth-first comment list [thread_comments] it displays, and it is
    resolved exactly when the last comment of that list has [unresolved]
    explicitly [false]: [Some true], an absent field, or an empty list give
    an unresolved thread. *)
Theorem build_threads_resolved_last
    (comments_by_file : list (string * list CommentInfo.t))
    (threads : list CommentThread.t) (t : CommentThread.t) :
  build_threads comments_by_file = Some threads -> t ∈ threads ->
  exists file root thread_comments,
    (file, root) ∈ (roots_children (all_comments comments_by_file)).1 /\
    collect_thread (S (length (all_comments comments_by_file)))
      (roots_children (all_comments comments_by_file)).2 root
      = Some thread_comments /\
    CommentThread.comments t = map to_thread_comment thread_comments /\
    (CommentThread.resolved t = true <->
       match last thread_comments with
       | Some c => CommentInfo.unresolved c = Some false
       | None => False
       end).
Proof.
  unfold build_threads.
  remember (S (length (all_comments comments_by_file))) as fuel eqn:Hfuel.
  destruct (roots_children (all_comments comments_by_file)) as [roots children] eqn:Erc.
  cbn [fst snd]. intros Hb Ht.
  destruct (mapM _ roots) as [threads0|] eqn:Em; [|discriminate Hb].
  injection Hb as <-.
  assert (Ht0 : t ∈ threads0) by (rewrite <-(stable_sort_perm thread_le threads0); exact Ht).
  apply mapM_Some in Em.
  apply list_elem_of_lookup_1 in Ht0 as [i Hi].
  destruct (Forall2_lookup_r _ _ _ _ _ Em Hi) as ([file root] & Hroot & Hf).
  apply list_elem_of_lookup_2 in Hroot.
  destruct (collect_thread fuel children root) as [cs|] eqn:Ec; [|discriminate Hf].
  injection Hf as <-.
  exists file, root, cs. split; [exact Hroot|]. split; [exact Ec|].
  split; [reflexivity|]. simpl. unfold thread_resolved, comment_unresolved.
  destruct (last cs) as [c|]; [|split; [discriminate|done]].
  destruct (CommentInfo.unresolved c) as [[]|]; simpl; split; congruence.
Qed.

Definition thread_c1c2 : CommentThread.t :=
  CommentThread.mk "f.rs" (Some 10) true [to_thread_comment c1; to_thread_comment c2].

Lemma build_threads_resolved_last_witness :
  exists file root thread_comments,
    (file, root) ∈ (roots_children (all_comments [("f.rs", [c1; c2])])).1 /\
    collect_thread (S (length (all_comments [("f.rs", [c1; c2])])))
      (roots_children (all_comments [("f.rs", [c1; c2])])).2 root
      = Some thread_comments /\
    CommentThread.comments thread_c1c2 = map to_thread_comment thread_comments /\
    (CommentThread.resolved thread_c1c2 = true <->
       match last thread_comments with
       | Some c => CommentInfo.unresolved c = Some false
       | None => False
       end).
Proof.
  apply (build_threads_resolved_last [("f.rs", [c1; c2])] [thread_c1c2]).
  - vm_compute. reflexivity.
  - left.
Defined.

(** Claim C3: the comments of the map; ["r"] is a root in ["a.rs"], and
    ["x"] (in ["a.rs"]) and ["y"] (in ["b.rs"]) both reply to it with the
    same [updated] timestamp. *)
Definition cr : CommentInfo.t := mk_comment "a.rs" "r" None "t0" "question" None.
Definition cx : CommentInfo.t := mk_comment "a.rs" "x" (Some "r") "t1" "reply a" None.
Definition cy : CommentInfo.t := mk_comment "b.rs" "y" (Some "r") "t1" "reply b" None.

Definition comments_order_ab : list (string * list CommentInfo.t) :=
  [("a.rs", [cr; cx]); ("b.rs", [cy])].
Definition comments_order_ba : list (string * list CommentInfo.t) :=
  [("b.rs", [cy]); ("a.rs", [cr; cx])].

(** Claim C3 (failing input): the two lists are two iteration orders of the
    same map (same entries, distinct keys), yet [build_threads] orders the
    two replies of the single thread differently: sibling replies with equal
    timestamps keep the order in which the [HashMap] iteration met them. *)
Theorem build_threads_depends_on_iteration_order :
  comments_order_ab ≡ₚ comments_order_ba /\
  NoDup (map fst comments_order_ab) /\
  build_threads comments_order_ab =
    Some [CommentThread.mk "a.rs" (Some 10) false
            (map to_thread_comment [cr; cx; cy])] /\
  build_threads comments_order_ba =
    Some [CommentThread.mk "a.rs" (Some 10) false
            (map to_thread_comment [cr; cy; cx])] /\
  build_threads comments_order_ab <> build_threads comments_order_ba.
Proof.
  assert (Hab : build_threads comments_order_ab =
    Some [CommentThread.mk "a.rs" (Some 10) false
            (map to_thread_comment [cr; cx; cy])]) by (vm_compute; reflexivity).
  assert (Hba : build_threads comments_order_ba =
    Some [CommentThread.mk "a.rs" (Some 10) false
            (map to_thread_comment [cr; cy; cx])]) by (vm_compute; reflexivity).
  split; [apply Permutation_swap|].
  split; [vm_compute; repeat constructor; set_solver|].
  split; [exact Hab|]. split; [exact Hba|].
  rewrite Hab, Hba. intros H. vm_compute in H. discriminate H.
Qed.

(** ** C1: SSH owners without [_account_id] *)

Definition stats_line : ssh_line :=
  LObject [("type", JStr "stats"); ("rowCount", JInt 2);
           ("runTimeMilliseconds", JInt 5)].

Definition owner_without_id : json :=
  JObj [("name", JStr "Alice"); ("email", JStr "alice@example.com");
        ("username", JStr "alice")].

Definition change_line (owner : json) : ssh_line :=
  LObject [("id", JStr "abc"); ("project", JStr "p"); ("change_id", JStr "I123");
           ("subject", JStr "Fix bug"); ("status", JStr "NEW"); ("owner", owner);
           ("currentPatchSet", JObj [("number", JInt 1);
                                     ("ref", JStr "refs/changes/1/1/1");
                                     ("revision", JStr "abc123")])].

(** The test [parse_ssh_query_output_createdon_lastupdated]: numeric
    timestamps become decimal strings. *)
Example parse_ssh_createdon_example :
  match parse_ssh_query_output
          [LObject [("id", JStr "I123"); ("project", JStr "p"); ("subject", JStr "Fix");
                    ("status", JStr "NEW"); ("createdOn", JInt 1706788800);
                    ("lastUpdated", JInt 1707580800);
                    ("currentPatchSet", JObj [("number", JInt 1);
                                              ("ref", JStr "refs/changes/1/1/1");
                                              ("revision", JStr "abc123")])]] with
  | Ok [c] => (ChangeInfo.created c, ChangeInfo.updated c, ChangeInfo.current_revision c)
  | _ => (None, None, None)
  end = (Some "1706788800", Some "1707580800", Some "abc123").
Proof. vm_compute. reflexivity. Qed.

(** With an [_account_id] the owner decodes and is kept as it is. *)
Example parse_ssh_owner_with_id_example :
  match parse_ssh_query_output
          [stats_line;
           change_line (JObj [("_account_id", JInt 1000096); ("name", JStr "Alice");
                              ("email", JStr "alice@example.com");
                              ("username", JStr "alice")]);
           stats_line] with
  | Ok [c] => ChangeInfo.owner c
  | _ => None
  end = Some (AccountInfo.mk 1000096 (Some "Alice") (Some "alice@example.com")
                (Some "alice") None).
Proof. vm_compute. reflexivity. Qed.

(** Claim C1 (failing input): the change line of the test
    [parse_ssh_query_output_skips_stats_lines], whose owner has a name, an
    email and a username but no [_account_id], makes
    [parse_ssh_query_output] fail: [AccountInfo.account_id] is a plain
    [i64], so serde reports the missing field. *)
Theorem parse_ssh_owner_without_account_id_fails :
  parse_ssh_query_output [stats_line; change_line owner_without_id; stats_line] =
    Err (EContext "parsing SSH query JSON line" (EMsg "missing field `_account_id`")).
Proof. vm_compute. reflexivity. Qed.

(* ================================================================== *)
(** * Further properties of the code *)

(* ================================================================== *)
(** ** Integer parsing against the decimal printer [pretty] *)

Lemma str_app_assoc (a b c : string) : ((a ++ b) ++ c)%string = (a ++ (b ++ c))%string.
Proof.
  induction a as [|x a IH]; [reflexivity|].
  rewrite !str_app_cons, IH. reflexivity.
Qed.

Lemma pretty_N_go_app (x : N) (s : string) :
  pretty_N_go x s = (pretty_N_go x "" ++ s)%string.
Proof.
  revert s. induction (N.lt_wf_0 x) as [x _ IH]; intros s.
  destruct (decide (x = 0%N)) as [->|Hx].
  - rewrite !pretty_N_go_0. reflexivity.
  - rewrite (pretty_N_go_step x s), (pretty_N_go_step x "") by lia.
    assert (Hq : (x `div` 10 < x)%N) by (apply N.div_lt; lia).
    rewrite (IH _ Hq (String _ s)), (IH _ Hq (String _ "")).
    rewrite str_app_assoc, str_app_cons, str_app_nil. reflexivity.
Qed.

Lemma pretty_N_go_snoc (x : N) :
  (0 < x)%N ->
  pretty_N_go x "" =
    (pretty_N_go (x `div` 10) "" ++ String (pretty_N_char (x `mod` 10)) "")%string.
Proof. intros H. rewrite pretty_N_go_step by done. apply pretty_N_go_app. Qed.

Lemma pretty_N_char_code (d : N) :
  (d < 10)%N -> nat_of_ascii (pretty_N_char d) = (48 + N.to_nat d)%nat.
Proof.
  intros H.
  assert (d = 0 \/ d = 1 \/ d = 2 \/ d = 3 \/ d = 4 \/ d = 5 \/ d = 6 \/
          d = 7 \/ d = 8 \/ d = 9)%N as Hd by lia.
  repeat destruct Hd as [->|Hd]; try reflexivity; subst; reflexivity.
Qed.

Lemma parse_int_digits_app (neg : bool) (lo hi : Z) (a b : string) (acc : Z) :
  parse_int_digits neg lo hi (a ++ b) acc =
  match parse_int_digits neg lo hi a acc with
  | Ok v => parse_int_digits neg lo hi b v
  | Err e => Err e
  end.
Proof.
  revert acc. induction a as [|c a IH]; intros acc; [reflexivity|].
  rewrite str_app_cons. simpl.
  destruct (_ && _); [|reflexivity].
  destruct (_ <? lo); [reflexivity|]. destruct (hi <? _); [reflexivity|].
  apply IH.
Qed.

Lemma parse_digits_app (a b : string) (acc : Z) :
  parse_digits (a ++ b) acc =
  match parse_digits a acc with
  | Some v => parse_digits b v
  | None => None
  end.
Proof.
  revert acc. induction a as [|c a IH]; intros acc; [reflexivity|].
  rewrite str_app_cons. simpl. destruct (_ && _); [apply IH|reflexivity].
Qed.

Lemma parse_int_digits_pretty_N (neg : bool) (lo hi : Z) (x : N) :
  lo <= 0 <= hi -> (if neg then lo <= - Z.of_N x else Z.of_N x <= hi) ->
  parse_int_digits neg lo hi (pretty_N_go x "") 0 =
    Ok (if neg then - Z.of_N x else Z.of_N x).
Proof.
  intros Hlh. induction (N.lt_wf_0 x) as [x _ IH]; intros Hx.
  destruct (decide (x = 0%N)) as [->|Hx0].
  - rewrite pretty_N_go_0. simpl. destruct neg; reflexivity.
  - rewrite pretty_N_go_snoc by lia. rewrite parse_int_digits_app.
    assert (Hq : (x `div` 10 < x)%N) by (apply N.div_lt; lia).
    rewrite (IH _ Hq) by (destruct neg; lia).
    pose proof (N.mod_lt x 10) as Hm.
    simpl. rewrite pretty_N_char_code by lia.
    pose proof (N.div_mod x 10) as Hdm.
    replace (Z.of_nat (48 + N.to_nat (x `mod` 10)) - 48) with (Z.of_N (x `mod` 10))
      by (rewrite Nat2Z.inj_add, <- N_nat_Z; lia).
    assert (0 <= Z.of_N (x `mod` 10) <= 9) by (generalize dependent (x `mod` 10)%N; intros; lia).
    replace ((0 <=? Z.of_N (x `mod` 10)) && (Z.of_N (x `mod` 10) <=? 9)) with true
      by (symmetry; apply andb_true_iff; split; apply Z.leb_le; lia).
    destruct neg.
    + replace (- Z.of_N (x `div` 10) * 10 - Z.of_N (x `mod` 10)) with (- Z.of_N x) by lia.
      replace (- Z.of_N x <? lo) with false by (symmetry; apply Z.ltb_ge; lia).
      replace (hi <? - Z.of_N x) with false by (symmetry; apply Z.ltb_ge; lia).
      reflexivity.
    + replace (Z.of_N (x `div` 10) * 10 + Z.of_N (x `mod` 10)) with (Z.of_N x) by lia.
      replace (Z.of_N x <? lo) with false by (symmetry; apply Z.ltb_ge; lia).
      replace (hi <? Z.of_N x) with false by (symmetry; apply Z.ltb_ge; lia).
      reflexivity.
Qed.

Lemma all_digits_app (a b : string) :
  all_digits (a ++ b) = all_digits a && all_digits b.
Proof.
  induction a as [|c a IH]; [reflexivity|].
  rewrite str_app_cons. unfold all_digits in *. simpl. rewrite IH.
  apply andb_assoc.
Qed.

Lemma pretty_N_char_digit (d : N) : (d < 10)%N -> is_digit (pretty_N_char d) = true.
Proof.
  intros H. unfold is_digit. rewrite pretty_N_char_code by done.
  apply andb_true_iff; split; apply Nat.leb_le; lia.
Qed.

Lemma all_digits_pretty_N_go (x : N) : all_digits (pretty_N_go x "") = true.
Proof.
  induction (N.lt_wf_0 x) as [x _ IH].
  destruct (decide (x = 0%N)) as [->|Hx0]; [reflexivity|].
  rewrite pretty_N_go_snoc by lia. rewrite all_digits_app, IH by (apply N.div_lt; lia).
  unfold all_digits. simpl. rewrite pretty_N_char_digit by (apply N.mod_lt; lia).
  reflexivity.
Qed.

Lemma pretty_N_go_cons (x : N) :
  (0 < x)%N -> exists c r, pretty_N_go x "" = String c r /\ is_digit c = true.
Proof.
  intros Hx. pose proof (all_digits_pretty_N_go x) as Hd.
  rewrite pretty_N_go_snoc in * by done.
  destruct (pretty_N_go (x `div` 10) "") as [|c r] eqn:E.
  - exists (pretty_N_char (x `mod` 10)), "". split; [reflexivity|].
    apply pretty_N_char_digit, N.mod_lt. lia.
  - exists c, (r ++ String (pretty_N_char (x `mod` 10)) "")%string. split; [reflexivity|].
    unfold all_digits in Hd. simpl in Hd. apply andb_true_iff in Hd. apply Hd.
Qed.

Lemma digit_cases (c : ascii) :
  is_digit c = true ->
  c = "0"%char \/ c = "1"%char \/ c = "2"%char \/ c = "3"%char \/ c = "4"%char \/
  c = "5"%char \/ c = "6"%char \/ c = "7"%char \/ c = "8"%char \/ c = "9"%char.
Proof.
  destruct c as [[] [] [] [] [] [] [] []]; intros H; try discriminate H; tauto.
Qed.

Lemma parse_int_digit_first (signed : bool) (lo hi : Z) (c : ascii) (r : string) :
  is_digit c = true ->
  parse_int signed lo hi (String c r) = parse_int_digits false lo hi (String c r) 0.
Proof.
  intros H. apply digit_cases in H.
  repeat destruct H as [->|H]; subst; destruct r; reflexivity.
Qed.

Lemma parse_int_pretty (signed : bool) (lo hi z : Z) :
  lo <= 0 <= hi -> lo <= z <= hi -> (signed = true \/ 0 <= z) ->
  parse_int signed lo hi (pretty z) = Ok z.
Proof.
  intros Hlh Hz Hs. destruct z as [|p|p].
  - cbn. replace (Z.of_nat (nat_of_ascii "0") - 48) with 0 by reflexivity. cbn. change (0 * 10 + 0) with 0.
    destruct (Z.ltb_spec 0 lo); [lia|]. destruct (Z.ltb_spec hi 0); [lia|]. reflexivity.
  - change (pretty (Z.pos p)) with (pretty (N.pos p)).
    unfold pretty, pretty_N. rewrite decide_False by discriminate.
    destruct (pretty_N_go_cons (N.pos p)) as (c & r & E & Hc); [lia|].
    rewrite E, parse_int_digit_first by done. rewrite <- E.
    apply (parse_int_digits_pretty_N false lo hi (N.pos p)); [done|simpl; lia].
  - destruct Hs as [->|Hs]; [|lia].
    change (pretty (Z.neg p)) with ("-" +:+ pretty (N.pos p))%string.
    unfold pretty, pretty_N. rewrite decide_False by discriminate.
    destruct (pretty_N_go_cons (N.pos p)) as (c & r & E & Hc); [lia|].
    rewrite E. change ("-" +:+ String c r)%string with (String "-" (String c r)).
    replace (parse_int true lo hi (String "-" (String c r)))
      with (parse_int_digits true lo hi (String c r) 0) by reflexivity.
    rewrite <- E.
    apply (parse_int_digits_pretty_N true lo hi (N.pos p)); [done|simpl; lia].
Qed.

Lemma parse_i32s_pretty (z : Z) :
  i32_min <= z <= i32_max -> parse_i32s (pretty z) = Ok z.
Proof.
  intros H. apply parse_int_pretty; unfold i32_min, i32_max in *; [lia|lia|left; done].
Qed.

Lemma parse_u16s_pretty (z : Z) :
  0 <= z <= u16_max -> parse_u16s (pretty z) = Ok z.
Proof.
  intros H. apply parse_int_pretty; unfold u16_max in *; [lia|lia|right; lia].
Qed.

Lemma parse_int_digits_parse_digits (lo hi : Z) (s : string) (acc v : Z) :
  parse_int_digits false lo hi s acc = Ok v -> parse_digits s acc = Some v.
Proof.
  revert acc. induction s as [|c s IH]; intros acc H; simpl in *.
  - injection H as ->. reflexivity.
  - destruct (_ && _); [|discriminate H].
    destruct (_ <? lo); [discriminate H|]. destruct (hi <? _); [discriminate H|].
    apply IH, H.
Qed.

Lemma parse_i32_digit_first (c : ascii) (r : string) :
  is_digit c = true ->
  parse_i32 (String c r) =
    match parse_digits (String c r) 0 with
    | Some n => if (i32_min <=? n) && (n <=? i32_max) then Some n else None
    | None => None
    end.
Proof.
  intros H. apply digit_cases in H. repeat destruct H as [->|H]; subst; reflexivity.
Qed.

Lemma parse_i32_pretty (z : Z) :
  i32_min <= z <= i32_max -> parse_i32 (pretty z) = Some z.
Proof.
  intros H. unfold i32_min, i32_max in H. destruct z as [|p|p]; [reflexivity|..].
  - change (pretty (Z.pos p)) with (pretty (N.pos p)).
    unfold pretty, pretty_N. rewrite decide_False by discriminate.
    pose proof (parse_int_digits_pretty_N false i32_min i32_max (N.pos p)) as P.
    destruct (pretty_N_go_cons (N.pos p)) as (c & r & E & Hc); [lia|].
    rewrite E in *. rewrite parse_i32_digit_first by done.
    unfold i32_min, i32_max in *.
    rewrite (parse_int_digits_parse_digits _ _ _ _ _ (P ltac:(lia) ltac:(simpl; lia))).
    change (Z.of_N (N.pos p)) with (Z.pos p).
    replace (_ && _) with true
      by (symmetry; apply andb_true_iff; split; apply Z.leb_le; lia). reflexivity.
  - change (pretty (Z.neg p)) with ("-" +:+ pretty (N.pos p))%string.
    unfold pretty, pretty_N. rewrite decide_False by discriminate.
    pose proof (parse_int_digits_pretty_N false 0 (2 ^ 31) (N.pos p)) as P.
    destruct (pretty_N_go_cons (N.pos p)) as (c & r & E & Hc); [lia|].
    rewrite E in *. change ("-" +:+ String c r)%string with (String "-" (String c r)).
    unfold i32_min, i32_max in *.
    pose proof (parse_int_digits_parse_digits _ _ _ _ _ (P ltac:(lia) ltac:(simpl; lia))) as D.
    unfold parse_i32. cbn beta iota. rewrite D. simpl.
    change (- Z.pos p) with (Z.neg p). unfold i32_min, i32_max.
    replace (_ && _) with true
      by (symmetry; apply andb_true_iff; split; apply Z.leb_le; lia). reflexivity.
Qed.

(* ================================================================== *)
(** ** Splitting at a separator character *)

Definition has_char (c : ascii) (s : string) : bool :=
  existsb (Ascii.eqb c) (list_ascii_of_string s).

Lemma has_char_app (c : ascii) (a b : string) :
  has_char c (a ++ b) = has_char c a || has_char c b.
Proof.
  induction a as [|x a IH]; [reflexivity|].
  rewrite str_app_cons. unfold has_char in *. simpl. rewrite IH. apply orb_assoc.
Qed.

Lemma str_find_none_c (c : ascii) (s : string) :
  has_char c s = false -> str_find c s = None.
Proof.
  induction s as [|x s IH]; simpl; [done|].
  unfold has_char. simpl. intros H. apply orb_false_iff in H as [H1 H2].
  rewrite Ascii.eqb_sym, H1, IH; done.
Qed.

Lemma str_find_app_c (c : ascii) (a b : string) :
  has_char c a = false -> str_find c (a ++ String c b) = Some (String.length a).
Proof.
  induction a as [|x a IH]; rewrite ?str_app_nil, ?str_app_cons; simpl.
  - rewrite Ascii.eqb_refl. done.
  - unfold has_char. simpl. intros H. apply orb_false_iff in H as [H1 H2].
    rewrite Ascii.eqb_sym, H1, IH; done.
Qed.

Lemma str_drop_after_c (c : ascii) (a b : string) :
  str_drop (S (String.length a)) (a ++ String c b) = b.
Proof.
  replace (S (String.length a)) with (String.length a + 1)%nat by lia.
  rewrite str_drop_app_add. unfold str_drop. simpl.
  rewrite Nat.sub_0_r. apply substring_all.
Qed.

Lemma split_once_app (c : ascii) (a b : string) :
  has_char c a = false -> split_once c (a ++ String c b) = Some (a, b).
Proof.
  intros H. unfold split_once. rewrite str_find_app_c by done.
  rewrite str_take_app, str_drop_after_c. reflexivity.
Qed.

Lemma split_once_none (c : ascii) (s : string) :
  has_char c s = false -> split_once c s = None.
Proof. intros H. unfold split_once. rewrite str_find_none_c by done. reflexivity. Qed.

Lemma str_find_some (c : ascii) (s : string) (i : nat) :
  str_find c s = Some i ->
  exists a b, s = (a ++ String c b)%string /\ String.length a = i /\ has_char c a = false.
Proof.
  revert i. induction s as [|x s IH]; intros i H; simpl in H; [discriminate H|].
  destruct (Ascii.eqb x c) eqn:Ex.
  - injection H as <-. apply Ascii.eqb_eq in Ex as ->.
    exists "", s. done.
  - destruct (str_find c s) as [j|]; [|discriminate H]. injection H as <-.
    destruct (IH j eq_refl) as (a & b & -> & Hl & Hc).
    exists (String x a), b. rewrite str_app_cons. split; [done|]. split; [simpl; lia|].
    unfold has_char in *. simpl. rewrite Ascii.eqb_sym, Ex, Hc. done.
Qed.

Lemma split_once_some (c : ascii) (s a b : string) :
  split_once c s = Some (a, b) -> s = (a ++ String c b)%string /\ has_char c a = false.
Proof.
  unfold split_once. destruct (str_find c s) as [i|] eqn:E; [|discriminate].
  intros H. injection H as <- <-.
  destruct (str_find_some c s i E) as (a & b & -> & <- & Hc).
  rewrite str_take_app, str_drop_after_c. done.
Qed.

Lemma all_digits_has_char (c : ascii) (s : string) :
  all_digits s = true -> is_digit c = false -> has_char c s = false.
Proof.
  induction s as [|x s IH]; [reflexivity|].
  unfold all_digits, has_char in *. simpl. intros H Hc.
  apply andb_true_iff in H as [H1 H2].
  rewrite IH by done. rewrite orb_false_r.
  destruct (Ascii.eqb c x) eqn:E; [|done]. apply Ascii.eqb_eq in E. subst. congruence.
Qed.

Lemma all_digits_pretty_nonneg (z : Z) : 0 <= z -> all_digits (pretty z) = true.
Proof.
  intros H. destruct z as [|p|p]; [reflexivity| |lia].
  change (pretty (Z.pos p)) with (pretty (N.pos p)).
  unfold pretty, pretty_N. rewrite decide_False by discriminate.
  apply all_digits_pretty_N_go.
Qed.

Lemma has_char_pretty (c : ascii) (z : Z) :
  is_digit c = false -> c <> "-"%char -> has_char c (pretty z) = false.
Proof.
  intros H1 H2. destruct z as [|p|p].
  - apply all_digits_has_char; done.
  - apply all_digits_has_char; [apply all_digits_pretty_nonneg; lia|done].
  - change (pretty (Z.neg p)) with ("-" +:+ pretty (N.pos p))%string.
    rewrite has_char_app.
    change (pretty (N.pos p)) with (pretty (Z.pos p)).
    rewrite (all_digits_has_char c (pretty (Z.pos p)))
      by (done || (apply all_digits_pretty_nonneg; lia)).
    unfold has_char. simpl. destruct (Ascii.eqb c "-") eqn:E; [|done].
    apply Ascii.eqb_eq in E. congruence.
Qed.

(* ================================================================== *)
(** ** [review.rs]: change arguments; [review_query.rs]: flexible [Option<i32>] *)

(** [parse_change_patchset] splits [CHANGE,PS] back into the change and an i32 patch set, and returns an argument without a comma whole, with no patch set. *)
Theorem parse_change_patchset_roundtrip (change input : string) (ps : Z) :
  has_char "," change = false -> i32_min <= ps <= i32_max ->
  parse_change_patchset (change ++ "," ++ pretty ps) = (change, Some ps) /\
  (has_char "," input = false -> parse_change_patchset input = (input, None)).
Proof.
  intros Hc Hps. split.
  - unfold parse_change_patchset.
    change ("," ++ pretty ps)%string with (String "," (pretty ps)).
    rewrite split_once_app by done. rewrite parse_i32s_pretty by done. reflexivity.
  - intros H. unfold parse_change_patchset. rewrite split_once_none by done. reflexivity.
Qed.

Lemma parse_change_patchset_roundtrip_witness :
  parse_change_patchset ("12345" ++ "," ++ pretty 2) = ("12345", Some 2) /\
  (parse_change_patchset "I8473" = ("I8473", None)).
Proof.
  destruct (parse_change_patchset_roundtrip "12345" "I8473" 2 eq_refl
              ltac:(unfold i32_min, i32_max; lia)) as [H1 H2].
  split; [exact H1|exact (H2 eq_refl)].
Defined.

(** [parse_compare_arg] recovers the change and the patch set numbers from [CHANGE,FROM-TO] and [CHANGE,FROM], for a non-negative [FROM]. *)
Theorem parse_compare_arg_roundtrip (change : string) (from to : Z) :
  change <> "" -> has_char "," change = false ->
  0 <= from <= i32_max -> i32_min <= to <= i32_max ->
  parse_compare_arg (change ++ "," ++ pretty from ++ "-" ++ pretty to) =
    Ok (change, from, Some to) /\
  parse_compare_arg (change ++ "," ++ pretty from) = Ok (change, from, None).
Proof.
  intros Hne Hc Hf Ht.
  assert (Hd : has_char "-" (pretty from) = false)
    by (apply all_digits_has_char; [apply all_digits_pretty_nonneg; lia|done]).
  assert (He : String.eqb change "" = false) by (apply String.eqb_neq; done).
  split; unfold parse_compare_arg.
  - change ("," ++ pretty from ++ "-" ++ pretty to)%string
      with (String "," (pretty from ++ String "-" (pretty to))).
    rewrite split_once_app by done. rewrite He.
    rewrite split_once_app by done.
    rewrite parse_i32s_pretty by (unfold i32_min in *; lia).
    rewrite parse_i32s_pretty by done. reflexivity.
  - change ("," ++ pretty from)%string with (String "," (pretty from)).
    rewrite split_once_app by done. rewrite He.
    rewrite split_once_none by done.
    rewrite parse_i32s_pretty by (unfold i32_min in *; lia). reflexivity.
Qed.

Lemma parse_compare_arg_roundtrip_witness :
  parse_compare_arg ("12345" ++ "," ++ pretty 1 ++ "-" ++ pretty 3) =
    Ok ("12345", 1, Some 3) /\
  parse_compare_arg ("12345" ++ "," ++ pretty 1) = Ok ("12345", 1, None).
Proof.
  apply parse_compare_arg_roundtrip;
    [discriminate|reflexivity|unfold i32_max; lia|unfold i32_min, i32_max; lia].
Defined.

(** A negative single patch set is a valid i32, yet [parse_compare_arg] rejects [CHANGE,-N]: its ['-'] split leaves an empty [FROM]. *)
Theorem parse_compare_arg_negative_from (change : string) (from : Z) :
  change <> "" -> has_char "," change = false -> i32_min <= from < 0 ->
  parse_i32s (pretty from) = Ok from /\
  parse_compare_arg (change ++ "," ++ pretty from) =
    Err (EContext "invalid 'from' patchset number in compare argument"
           (EMsg "cannot parse integer from empty string")).
Proof.
  intros Hne Hc Hf. split; [apply parse_i32s_pretty; unfold i32_max in *; lia|].
  assert (He : String.eqb change "" = false) by (apply String.eqb_neq; done).
  destruct from as [|p|p]; [lia|lia|].
  change (pretty (Z.neg p)) with ("-" +:+ pretty (N.pos p))%string.
  unfold parse_compare_arg.
  change ("," ++ ("-" +:+ pretty (N.pos p)))%string
    with (String "," (String "-" (pretty (N.pos p)))).
  rewrite split_once_app by done. rewrite He.
  change (String "-" (pretty (N.pos p))) with ("" ++ String "-" (pretty (N.pos p)))%string.
  rewrite split_once_app by done. reflexivity.
Qed.

Lemma parse_compare_arg_negative_from_witness :
  parse_i32s (pretty (-3)) = Ok (-3) /\
  parse_compare_arg ("12345" ++ "," ++ pretty (-3)) =
    Err (EContext "invalid 'from' patchset number in compare argument"
           (EMsg "cannot parse integer from empty string")).
Proof.
  apply parse_compare_arg_negative_from;
    [discriminate|reflexivity|unfold i32_min; lia].
Defined.

(** The flexible [Option<i32>] decoder accepts an i32 both as a JSON number and as its decimal text. *)
Theorem de_optional_i32_flexible_string_or_int (n : Z) :
  i32_min <= n <= i32_max ->
  de_optional_i32_flexible (JStr (pretty n)) = Ok (Some n) /\
  de_optional_i32_flexible (JInt n) = Ok (Some n).
Proof.
  intros H. split.
  - simpl. rewrite parse_i32_pretty by done. reflexivity.
  - unfold i32_min, i32_max in H. simpl. unfold json_as_i64, i64_min, i64_max.
    replace ((- 2 ^ 63 <=? n) && (n <=? 2 ^ 63 - 1)) with true
      by (symmetry; apply andb_true_iff; split; apply Z.leb_le; lia).
    unfold i32_min, i32_max.
    replace ((- 2 ^ 31 <=? n) && (n <=? 2 ^ 31 - 1)) with true
      by (symmetry; apply andb_true_iff; split; apply Z.leb_le; lia).
    reflexivity.
Qed.

Lemma de_optional_i32_flexible_string_or_int_witness :
  de_optional_i32_flexible (JStr (pretty 7)) = Ok (Some 7) /\
  de_optional_i32_flexible (JInt 7) = Ok (Some 7).
Proof. apply de_optional_i32_flexible_string_or_int. unfold i32_min, i32_max; lia. Defined.

(* ================================================================== *)
(** ** [review_query.rs]: SSH remote URLs *)

Lemma str_app_nil_r (s : string) : (s ++ "")%string = s.
Proof. induction s as [|x s IH]; [reflexivity|]. rewrite str_app_cons, IH. reflexivity. Qed.

Lemma str_prefix_app (p b : string) : String.prefix p (p ++ b) = true.
Proof.
  induction p as [|x p IH]; [destruct b; reflexivity|].
  rewrite str_app_cons. simpl. destruct (ascii_dec x x) as [_|n]; [exact IH|done].
Qed.

Lemma prefix_true_app (p s : string) :
  String.prefix p s = true -> exists r, s = (p ++ r)%string.
Proof.
  revert s. induction p as [|x p IH]; intros s H.
  - exists s. reflexivity.
  - destruct s as [|y s]; [discriminate H|]. simpl in H.
    destruct (ascii_dec x y) as [<-|]; [|discriminate H].
    destruct (IH s H) as [r ->]. exists r. reflexivity.
Qed.

Lemma str_strip_prefix_app (p b : string) : str_strip_prefix (p ++ b) p = Some b.
Proof. unfold str_strip_prefix. rewrite str_prefix_app, str_drop_app. reflexivity. Qed.

Lemma str_contains_app_prefix (a b p : string) :
  String.prefix p b = true -> str_contains (a ++ b) p = true.
Proof.
  intros H. induction a as [|x a IH].
  - rewrite str_app_nil. destruct b as [|y b]; unfold str_contains; fold str_contains;
      rewrite H; reflexivity.
  - rewrite str_app_cons. simpl. rewrite IH. apply orb_true_r.
Qed.

Lemma str_contains_colon_free (a b : string) :
  has_char ":" a = false -> str_contains (a ++ b) "://" = str_contains b "://".
Proof.
  induction a as [|x a IH]; [reflexivity|].
  rewrite str_app_cons. unfold has_char. cbn [list_ascii_of_string existsb]. intros H.
  apply orb_false_iff in H as [H1 H2].
  change (str_contains (String x (a ++ b)) "://")
    with (String.prefix "://" (String x (a ++ b)) || str_contains (a ++ b) "://").
  change (String.prefix "://" (String x (a ++ b)))
    with (match ascii_dec ":" x with
          | left _ => String.prefix "//" (a ++ b) | right _ => false end).
  rewrite IH by exact H2.
  destruct (ascii_dec ":" x) as [E|]; [|reflexivity].
  rewrite <- E, Ascii.eqb_refl in H1. discriminate H1.
Qed.

Lemma str_rfind_none (c : ascii) (s : string) :
  has_char c s = false -> str_rfind c s = None.
Proof.
  induction s as [|x s IH]; [reflexivity|].
  unfold has_char. simpl. intros H. apply orb_false_iff in H as [H1 H2].
  rewrite IH by exact H2. rewrite Ascii.eqb_sym, H1. reflexivity.
Qed.

Lemma str_rfind_app (c : ascii) (a b : string) :
  has_char c b = false -> str_rfind c (a ++ String c b) = Some (String.length a).
Proof.
  intros Hb. induction a as [|x a IH].
  - simpl. rewrite str_rfind_none by done. rewrite Ascii.eqb_refl. reflexivity.
  - rewrite str_app_cons. simpl. rewrite IH. reflexivity.
Qed.

Lemma rsplit_once_app (c : ascii) (a b : string) :
  has_char c b = false -> rsplit_once c (a ++ String c b) = Some (a, b).
Proof.
  intros H. unfold rsplit_once. rewrite str_rfind_app by done.
  rewrite str_take_app, str_drop_after_c. reflexivity.
Qed.

Lemma rsplit_once_none (c : ascii) (s : string) :
  has_char c s = false -> rsplit_once c s = None.
Proof. intros H. unfold rsplit_once. rewrite str_rfind_none by done. reflexivity. Qed.

Lemma str_strip_suffix_app (a b : string) : str_strip_suffix (a ++ b) b = Some a.
Proof.
  unfold str_strip_suffix, ends_with. rewrite string_length_app.
  replace (String.length a + String.length b - String.length b)%nat
    with (String.length a) by lia.
  rewrite str_drop_app, (proj2 (String.eqb_eq b b) eq_refl), str_take_app.
  replace (String.length b <=? String.length a + String.length b)%nat with true
    by (symmetry; apply Nat.leb_le; lia).
  reflexivity.
Qed.

Lemma str_strip_suffix_none (a b : string) :
  ends_with a b = false -> str_strip_suffix a b = None.
Proof. unfold str_strip_suffix. intros ->. reflexivity. Qed.

Lemma trim_start_matches_id (c : ascii) (s : string) :
  starts_with s (String c "") = false -> trim_start_matches c s = s.
Proof.
  destruct s as [|x s]; [reflexivity|]. unfold starts_with. simpl.
  destruct (ascii_dec c x) as [->|Hn]; [destruct s; intros H; discriminate H|].
  intros _. destruct (Ascii.eqb x c) eqn:E; [|reflexivity].
  apply Ascii.eqb_eq in E. congruence.
Qed.

Lemma has_char_pretty_u16 (c : ascii) (p : Z) :
  0 <= p -> is_digit c = false -> has_char c (pretty p) = false.
Proof. intros H Hc. apply all_digits_has_char; [apply all_digits_pretty_nonneg|]; done. Qed.

(** [parse_userhost] on [[user@]host[:port]]. *)
Lemma parse_userhost_spec (user : option string) (host : string) (port : option Z) :
  (forall u, user = Some u -> has_char ":" u = false) ->
  has_char ":" host = false -> has_char "@" host = false ->
  (forall p, port = Some p -> 0 <= p <= u16_max) ->
  parse_userhost
    ((match user with Some u => u ++ "@" | None => "" end) ++ host ++
     (match port with Some p => ":" ++ pretty p | None => "" end))%string =
  Ok (host, user, port).
Proof.
  intros Hu Hc Ha Hp. unfold parse_userhost.
  set (uh := ((match user with Some u => u ++ "@" | None => "" end) ++ host)%string).
  assert (Huh : has_char ":" uh = false).
  { unfold uh. rewrite has_char_app, Hc, orb_false_r.
    destruct user as [u|]; [|reflexivity].
    rewrite has_char_app, (Hu u eq_refl). reflexivity. }
  replace ((match user with Some u => u ++ "@" | None => "" end) ++ host ++
           (match port with Some p => ":" ++ pretty p | None => "" end))%string
    with (uh ++ match port with Some p => ":" ++ pretty p | None => "" end)%string
    by (unfold uh; rewrite str_app_assoc; reflexivity).
  assert (Hsplit :
    match rsplit_once ":" (uh ++ match port with Some p => ":" ++ pretty p | None => "" end)%string
    with
    | Some (uh0, port_str) =>
        match parse_u16s port_str with
        | Ok p => Ok (uh0, Some p)
        | Err k => Err (parse_ctx "parsing port from URL" k)
        end
    | None => Ok ((uh ++ match port with Some p => ":" ++ pretty p | None => "" end)%string, None)
    end = Ok (uh, port)).
  { destruct port as [p|].
    - change (":" ++ pretty p)%string with (String ":" (pretty p)).
      rewrite rsplit_once_app by (apply has_char_pretty_u16; [pose proof (Hp p eq_refl); lia|done]).
      rewrite parse_u16s_pretty by exact (Hp p eq_refl). reflexivity.
    - rewrite rsplit_once_none; [rewrite str_app_nil_r; reflexivity|].
      rewrite has_char_app, Huh. reflexivity. }
  rewrite Hsplit. unfold uh.
  destruct user as [u|].
  - rewrite str_app_assoc. change ("@" ++ host)%string with (String "@" host).
    rewrite rsplit_once_app by done. reflexivity.
  - rewrite str_app_nil, rsplit_once_none by done. reflexivity.
Qed.

Definition userhost_of (c : GerritConfig.t) : string :=
  ((match GerritConfig.username c with Some u => u ++ "@" | None => "" end) ++
   GerritConfig.host c ++
   (match GerritConfig.ssh_port c with Some p => ":" ++ pretty p | None => "" end))%string.

Lemma make_remote_url_ssh_shape (c : GerritConfig.t) :
  GerritConfig.scheme c = "ssh" ->
  make_remote_url c = ("ssh://" ++ (userhost_of c ++ String "/" (GerritConfig.project c)))%string.
Proof.
  intros Hs. unfold make_remote_url, userhost_of. rewrite Hs.
  destruct (GerritConfig.username c) as [u|], (GerritConfig.ssh_port c) as [p|];
    cbn -[String.append pretty];
    rewrite ?str_app_assoc, ?str_app_nil; reflexivity.
Qed.

Lemma parse_gerrit_ssh_params_ssh_url (userhost path : string) :
  has_char "/" userhost = false ->
  parse_gerrit_ssh_params ("ssh://" ++ (userhost ++ String "/" path))%string =
  match parse_userhost userhost with
  | Err e => Err e
  | Ok (hostname, username, port) =>
      let trimmed := trim_start_matches "/" path in
      Ok (hostname, username, port,
          match str_strip_suffix trimmed ".git" with Some p => p | None => trimmed end)
  end.
Proof.
  intros H. unfold parse_gerrit_ssh_params.
  replace (str_contains ("ssh://" ++ (userhost ++ String "/" path)) "://") with true.
  2:{ symmetry. change ("ssh://" ++ (userhost ++ String "/" path))%string
        with ("ssh" ++ ("://" ++ (userhost ++ String "/" path)))%string.
      apply str_contains_app_prefix, str_prefix_app. }
  unfold parse_ssh_url_format. rewrite str_strip_prefix_app, split_once_app by done.
  reflexivity.
Qed.

(** [parse_gerrit_ssh_params] recovers host, user, port and project from the [ssh://] URL [make_remote_url] builds. *)
Theorem make_remote_url_ssh_roundtrip (c : GerritConfig.t) :
  GerritConfig.scheme c = "ssh" ->
  (forall u, GerritConfig.username c = Some u ->
             has_char "/" u = false /\ has_char ":" u = false) ->
  has_char "/" (GerritConfig.host c) = false ->
  has_char ":" (GerritConfig.host c) = false ->
  has_char "@" (GerritConfig.host c) = false ->
  (forall p, GerritConfig.ssh_port c = Some p -> 0 <= p <= u16_max) ->
  starts_with (GerritConfig.project c) "/" = false ->
  ends_with (GerritConfig.project c) ".git" = false ->
  parse_gerrit_ssh_params (make_remote_url c) =
    Ok (GerritConfig.host c, GerritConfig.username c, GerritConfig.ssh_port c,
        GerritConfig.project c).
Proof.
  intros Hs Hu Hh1 Hh2 Hh3 Hp Hpr1 Hpr2.
  rewrite make_remote_url_ssh_shape by done.
  rewrite parse_gerrit_ssh_params_ssh_url.
  - unfold userhost_of. rewrite parse_userhost_spec; try done.
    + rewrite trim_start_matches_id by done.
      rewrite str_strip_suffix_none by done. reflexivity.
    + intros u Eu. exact (proj2 (Hu u Eu)).
  - unfold userhost_of. rewrite !has_char_app, Hh1.
    destruct (GerritConfig.username c) as [u|];
      [rewrite has_char_app, (proj1 (Hu u eq_refl))|]; cbn [orb];
    (destruct (GerritConfig.ssh_port c) as [p|]; [|reflexivity]);
    rewrite has_char_app; apply has_char_pretty_u16;
      (pose proof (Hp p eq_refl); lia) || reflexivity.
Qed.

Definition example_ssh_config : GerritConfig.t :=
  GerritConfig.mk "review.example.com" (Some 29418) None "openstack/nova" "master" "gerrit"
    "ssh" false false false false true (Some "alice").

Lemma make_remote_url_ssh_roundtrip_witness :
  parse_gerrit_ssh_params (make_remote_url example_ssh_config) =
    Ok ("review.example.com", Some "alice", Some 29418, "openstack/nova").
Proof.
  apply (make_remote_url_ssh_roundtrip example_ssh_config); try reflexivity.
  - intros u Hu. injection Hu as <-. split; reflexivity.
  - intros p Hp. injection Hp as <-. unfold u16_max; lia.
Defined.

Lemma str_contains_colon_free_all (s : string) :
  has_char ":" s = false -> str_contains s "://" = false.
Proof.
  intros H. rewrite <- (str_app_nil_r s), str_contains_colon_free by done. reflexivity.
Qed.

Lemma str_prefix_cons (c x : ascii) (p s : string) :
  String.prefix (String c p) (String x s) =
  if ascii_dec c x then String.prefix p s else false.
Proof. reflexivity. Qed.

Lemma starts_with_no_double_slash (s t : string) :
  starts_with s "/" = false -> starts_with t "/" = false ->
  starts_with (s ++ t) "//" = false.
Proof.
  unfold starts_with. intros Hs Ht. destruct s as [|x s].
  - rewrite str_app_nil. destruct t as [|y t]; [reflexivity|].
    rewrite str_prefix_cons in *. destruct (ascii_dec "/" y); [|reflexivity].
    destruct t; discriminate Ht.
  - rewrite str_app_cons. rewrite str_prefix_cons in *.
    destruct (ascii_dec "/" x); [|reflexivity]. destruct s; discriminate Hs.
Qed.

Lemma parse_scp_path (user host path : string) :
  has_char ":" user = false -> has_char ":" host = false -> has_char "@" host = false ->
  has_char ":" path = false -> starts_with path "//" = false ->
  parse_gerrit_ssh_params (user ++ "@" ++ host ++ ":" ++ path)%string =
    Ok (host, Some user, None,
        match str_strip_suffix path ".git" with Some p => p | None => path end).
Proof.
  intros Hu Hh1 Hh2 Hp Hs.
  assert (Hl : has_char ":" (user ++ "@" ++ host) = false)
    by (rewrite !has_char_app, Hu, Hh1; reflexivity).
  replace (user ++ "@" ++ host ++ ":" ++ path)%string
    with ((user ++ "@" ++ host) ++ String ":" path)%string
    by (rewrite !str_app_assoc; reflexivity).
  unfold parse_gerrit_ssh_params.
  rewrite str_contains_colon_free by done.
  change (str_contains (String ":" path) "://")
    with (String.prefix "//" path || str_contains path "://").
  change (String.prefix "//" path) with (starts_with path "//").
  rewrite Hs, str_contains_colon_free_all by done. cbn [orb].
  unfold parse_scp_format. rewrite split_once_app by done. rewrite Hs.
  change ("@" ++ host)%string with (String "@" host).
  rewrite rsplit_once_app by done. reflexivity.
Qed.

(** [parse_gerrit_ssh_params] reads an SCP-style [user@host:project[.git]] remote, dropping the [.git] suffix. *)
Theorem parse_scp_roundtrip (user host project : string) :
  has_char ":" user = false -> has_char ":" host = false -> has_char "@" host = false ->
  has_char ":" project = false -> starts_with project "/" = false ->
  parse_gerrit_ssh_params (user ++ "@" ++ host ++ ":" ++ project ++ ".git")%string =
    Ok (host, Some user, None, project) /\
  (ends_with project ".git" = false ->
   parse_gerrit_ssh_params (user ++ "@" ++ host ++ ":" ++ project)%string =
     Ok (host, Some user, None, project)).
Proof.
  intros Hu Hh1 Hh2 Hp Hs. split.
  - rewrite parse_scp_path; try done.
    + rewrite str_strip_suffix_app. reflexivity.
    + rewrite has_char_app, Hp. reflexivity.
    + apply starts_with_no_double_slash; done.
  - intros He. rewrite parse_scp_path; try done.
    + rewrite str_strip_suffix_none by done. reflexivity.
    + rewrite <- (str_app_nil_r project). apply starts_with_no_double_slash; done.
Qed.

Lemma parse_scp_roundtrip_witness :
  parse_gerrit_ssh_params ("alice" ++ "@" ++ "review.example.com" ++ ":" ++ "openstack/nova" ++ ".git")%string =
    Ok ("review.example.com", Some "alice", None, "openstack/nova") /\
  (ends_with "openstack/nova" ".git" = false ->
   parse_gerrit_ssh_params ("alice" ++ "@" ++ "review.example.com" ++ ":" ++ "openstack/nova")%string =
     Ok ("review.example.com", Some "alice", None, "openstack/nova")).
Proof.
  apply parse_scp_roundtrip; reflexivity.
Defined.

Lemma parse_userhost_err (userhost : string) (e : Error) :
  parse_userhost userhost = Err e -> exists k, e = parse_ctx "parsing port from URL" k.
Proof.
  unfold parse_userhost.
  destruct (rsplit_once ":" userhost) as [[uh port_str]|].
  - destruct (parse_u16s port_str) as [port|k].
    + destruct (rsplit_once "@" uh) as [[? ?]|]; intros H; discriminate H.
    + intros H. injection H as <-. exists k. reflexivity.
  - destruct (rsplit_once "@" userhost) as [[? ?]|]; intros H; discriminate H.
Qed.

(** The [ambiguous SCP URL] error of [parse_scp_format] is never returned. *)
Theorem parse_gerrit_ssh_params_never_ambiguous (url : string) :
  parse_gerrit_ssh_params url <> Err (EMsg "ambiguous SCP URL (path starts with //)").
Proof.
  unfold parse_gerrit_ssh_params. destruct (str_contains url "://") eqn:Ec.
  - unfold parse_ssh_url_format.
    destruct (str_strip_prefix url "ssh://") as [rest|]; [|intros H; discriminate H].
    destruct (split_once "/" rest) as [[userhost path]|]; [|intros H; discriminate H].
    destruct (parse_userhost userhost) as [[[h u] p]|e] eqn:Eu;
      [intros H; discriminate H|].
    destruct (parse_userhost_err userhost e Eu) as [k ->].
    intros H. discriminate H.
  - unfold parse_scp_format.
    destruct (split_once ":" url) as [[host_part path]|] eqn:Es;
      [|intros H; discriminate H].
    destruct (starts_with path "//") eqn:Ed.
    + apply split_once_some in Es as [-> _].
      rewrite str_contains_app_prefix in Ec; [discriminate Ec|].
      change (String.prefix "://" (String ":" path)) with (String.prefix "//" path).
      exact Ed.
    + destruct (rsplit_once "@" host_part) as [[? ?]|]; intros H; discriminate H.
Qed.

(** An HTTP(S) remote is rejected by [parse_gerrit_ssh_params] with [expected ssh:// URL]. *)
Theorem parse_gerrit_ssh_params_rejects_http (url : string) :
  is_http_remote url = true ->
  parse_gerrit_ssh_params url = Err (EMsg "expected ssh:// URL").
Proof.
  unfold is_http_remote, starts_with. intros H.
  apply orb_true_iff in H as [H|H]; apply prefix_true_app in H as [r ->].
  - unfold parse_gerrit_ssh_params.
    change ("http://" ++ r)%string with ("http" ++ ("://" ++ r))%string.
    rewrite str_contains_app_prefix by apply str_prefix_app. reflexivity.
  - unfold parse_gerrit_ssh_params.
    change ("https://" ++ r)%string with ("https" ++ ("://" ++ r))%string.
    rewrite str_contains_app_prefix by apply str_prefix_app. reflexivity.
Qed.

Lemma parse_gerrit_ssh_params_rejects_http_witness :
  is_http_remote "https://review.example.com/openstack/nova" = true /\
  parse_gerrit_ssh_params "https://review.example.com/openstack/nova" =
    Err (EMsg "expected ssh:// URL").
Proof.
  split; [reflexivity|]. apply parse_gerrit_ssh_params_rejects_http. reflexivity.
Defined.

(* ================================================================== *)
(** ** [gerrit.rs]: [base64_encode] *)

Definition block3 (b0 b1 b2 : Z) : string :=
  writer (encode_block (mkBase64Encoder "" (b0, b1, b2) 3)).
Definition block2 (b0 b1 : Z) : string :=
  writer (encode_block (mkBase64Encoder "" (b0, b1, 0) 2)).
Definition block1 (b0 : Z) : string :=
  writer (encode_block (mkBase64Encoder "" (b0, 0, 0) 1)).

(** Base64 of a byte list, block by block. *)
Fixpoint b64_blocks (l : list Z) : string :=
  match l with
  | b0 :: b1 :: b2 :: rest => (block3 b0 b1 b2 ++ b64_blocks rest)%string
  | [b0; b1] => block2 b0 b1
  | [b0] => block1 b0
  | [] => ""
  end.

Lemma finish_write_all (l : list Z) (w : string) (b : Z * Z * Z) :
  finish (write_all (mkBase64Encoder w b 0) l) = (w ++ b64_blocks l)%string.
Proof.
  revert w b. induction l as [l IH] using (induction_ltof1 _ (@length _)); intros w b.
  destruct b as [[x0 x1] x2].
  destruct l as [|b0 [|b1 [|b2 rest]]].
  - symmetry. apply str_app_nil_r.
  - reflexivity.
  - reflexivity.
  - change (write_all (mkBase64Encoder w (x0, x1, x2) 0) (b0 :: b1 :: b2 :: rest))
      with (write_all (mkBase64Encoder (w ++ block3 b0 b1 b2) (b0, b1, b2) 0) rest).
    rewrite IH by (unfold ltof; simpl; lia).
    cbn [b64_blocks]. apply str_app_assoc.
Qed.

Lemma base64_encode_blocks (s : string) : base64_encode s = b64_blocks (as_bytes s).
Proof. unfold base64_encode, Base64Encoder_new. apply finish_write_all. Qed.

Lemma b64_blocks_length (l : list Z) :
  String.length (b64_blocks l) = (4 * ((length l + 2) / 3))%nat.
Proof.
  induction l as [l IH] using (induction_ltof1 _ (@length _)).
  destruct l as [|b0 [|b1 [|b2 rest]]]; try reflexivity.
  cbn [b64_blocks]. rewrite string_length_app.
  rewrite IH by (unfold ltof; simpl; lia).
  change (String.length (block3 b0 b1 b2)) with 4%nat.
  cbn [length]. 
  replace (S (S (S (length rest))) + 2)%nat with (1 * 3 + (length rest + 2))%nat by lia.
  rewrite Nat.div_add_l by lia. lia.
Qed.

Lemma length_list_ascii_of_string (s : string) :
  length (list_ascii_of_string s) = String.length s.
Proof. induction s; simpl; congruence. Qed.

Lemma as_bytes_length (s : string) : length (as_bytes s) = String.length s.
Proof. unfold as_bytes. rewrite length_map. apply length_list_ascii_of_string. Qed.

(** [base64_encode] outputs four characters for every started group of three input bytes. *)
Theorem base64_encode_length (s : string) :
  String.length (base64_encode s) = (4 * ((String.length s + 2) / 3))%nat.
Proof.
  rewrite base64_encode_blocks, b64_blocks_length, as_bytes_length. reflexivity.
Qed.

Lemma list_ascii_of_string_app (a b : string) :
  list_ascii_of_string (a ++ b) = list_ascii_of_string a ++ list_ascii_of_string b.
Proof. induction a as [|x a IH]; [reflexivity|]. rewrite str_app_cons. simpl. congruence. Qed.

Lemma as_bytes_app (a b : string) : as_bytes (a ++ b) = as_bytes a ++ as_bytes b.
Proof. unfold as_bytes. rewrite list_ascii_of_string_app. apply map_app. Qed.

Lemma b64_blocks_app (l1 l2 : list Z) :
  (length l1 mod 3 = 0)%nat -> b64_blocks (l1 ++ l2) = (b64_blocks l1 ++ b64_blocks l2)%string.
Proof.
  induction l1 as [l1 IH] using (induction_ltof1 _ (@length _)); intros Hm.
  destruct l1 as [|b0 [|b1 [|b2 rest]]].
  - reflexivity.
  - discriminate Hm.
  - discriminate Hm.
  - cbn [app b64_blocks]. rewrite IH.
    + symmetry. apply str_app_assoc.
    + unfold ltof. simpl. lia.
    + cbn [length] in Hm. 
      replace (S (S (S (length rest)))) with (1 * 3 + length rest)%nat in Hm by lia.
      rewrite Nat.add_comm, Nat.Div0.mod_add in Hm. exact Hm.
Qed.

(** [base64_encode] of a concatenation is the concatenation of the encodings when the first part's length is a multiple of three. *)
Theorem base64_encode_app (a b : string) :
  (String.length a mod 3 = 0)%nat ->
  base64_encode (a ++ b) = (base64_encode a ++ base64_encode b)%string.
Proof.
  intros H. rewrite !base64_encode_blocks, as_bytes_app.
  apply b64_blocks_app. rewrite as_bytes_length. exact H.
Qed.

Lemma base64_encode_app_witness :
  (String.length "abc" mod 3 = 0)%nat /\
  base64_encode ("abc" ++ "de") = (base64_encode "abc" ++ base64_encode "de")%string.
Proof.
  split; [reflexivity|]. apply base64_encode_app. reflexivity.
Defined.

Definition in_b64_alphabet (c : ascii) : bool :=
  has_char c BASE64_CHARS || Ascii.eqb c "="%char.

Lemma get_has_char (n : nat) (s : string) (c : ascii) :
  String.get n s = Some c -> has_char c s = true.
Proof.
  revert n. induction s as [|x s IH]; intros n H; [discriminate H|].
  unfold has_char. cbn [list_ascii_of_string existsb].
  destruct n as [|n].
  - injection H as <-. rewrite Ascii.eqb_refl. reflexivity.
  - apply Bool.orb_true_intro. right. apply (IH n H).
Qed.

Lemma b64_char_alphabet (i : Z) : in_b64_alphabet (b64_char i) = true.
Proof.
  unfold b64_char, in_b64_alphabet.
  destruct (String.get (Z.to_nat i) BASE64_CHARS) as [c|] eqn:E.
  - rewrite (get_has_char _ _ _ E). reflexivity.
  - apply Bool.orb_true_intro. right. apply Ascii.eqb_refl.
Qed.

Lemma b64_blocks_alphabet (l : list Z) :
  forallb in_b64_alphabet (list_ascii_of_string (b64_blocks l)) = true.
Proof.
  induction l as [l IH] using (induction_ltof1 _ (@length _)).
  destruct l as [|b0 [|b1 [|b2 rest]]].
  - reflexivity.
  - unfold b64_blocks, block1, encode_block.
    cbn [writer buf buf_len Nat.leb]. rewrite str_app_nil.
    cbn [list_ascii_of_string forallb].
    rewrite !b64_char_alphabet. reflexivity.
  - unfold b64_blocks, block2, encode_block.
    cbn [writer buf buf_len Nat.leb]. rewrite str_app_nil.
    cbn [list_ascii_of_string forallb].
    rewrite !b64_char_alphabet. reflexivity.
  - cbn [b64_blocks]. rewrite list_ascii_of_string_app, forallb_app.
    rewrite IH by (unfold ltof; simpl; lia).
    unfold block3, encode_block.
    cbn [writer buf buf_len Nat.leb]. rewrite str_app_nil.
    cbn [list_ascii_of_string forallb].
    rewrite !b64_char_alphabet. reflexivity.
Qed.

Lemma in_b64_alphabet_ascii (c : ascii) :
  in_b64_alphabet c = true -> (nat_of_ascii c < 128)%nat.
Proof.
  unfold in_b64_alphabet, has_char. intros H.
  apply Bool.orb_true_iff in H as [H|H].
  - apply existsb_exists in H as [x [Hx Hc]].
    apply Ascii.eqb_eq in Hc. subst x.
    cbn [list_ascii_of_string BASE64_CHARS] in Hx.
    repeat (destruct Hx as [<-|Hx]; [cbv; lia|]). destruct Hx.
  - apply Ascii.eqb_eq in H. subst c. cbv. lia.
Qed.

(** Every character [base64_encode] outputs is in the base64 alphabet (padding included), so the output is ASCII. *)
Theorem base64_encode_alphabet (s : string) :
  forallb in_b64_alphabet (list_ascii_of_string (base64_encode s)) = true /\
  is_ascii (base64_encode s) = true.
Proof.
  rewrite base64_encode_blocks.
  pose proof (b64_blocks_alphabet (as_bytes s)) as H. split; [exact H|].
  unfold is_ascii. apply forallb_forall. intros c Hc.
  eapply forallb_forall in H; [|exact Hc].
  apply Nat.ltb_lt, in_b64_alphabet_ascii, H.
Qed.

(** Position of a character in a string. *)
Fixpoint str_index (c : ascii) (s : string) : nat :=
  match s with
  | EmptyString => 0
  | String x s' => if Ascii.eqb c x then 0 else S (str_index c s')
  end.

Definition b64_index (c : ascii) : Z := Z.of_nat (str_index c BASE64_CHARS).

(** A decoder for the encoder's output, used to show it loses nothing. *)
Fixpoint b64_decode (s : string) : list Z :=
  match s with
  | String c0 (String c1 (String c2 (String c3 rest))) =>
      let i0 := b64_index c0 in
      let i1 := b64_index c1 in
      let i2 := b64_index c2 in
      let i3 := b64_index c3 in
      if Ascii.eqb c2 "="%char then [i0 * 4 + i1 / 16]
      else if Ascii.eqb c3 "="%char then [i0 * 4 + i1 / 16; (i1 mod 16) * 16 + i2 / 4]
      else i0 * 4 + i1 / 16 :: (i1 mod 16) * 16 + i2 / 4 :: (i2 mod 4) * 64 + i3
           :: b64_decode rest
  | _ => []
  end.

Lemma range_forallb (P : Z -> bool) (n : nat) :
  forallb P (map Z.of_nat (seq 0 n)) = true -> forall x, 0 <= x < Z.of_nat n -> P x = true.
Proof.
  intros H x Hx. eapply forallb_forall in H; [exact H|].
  apply in_map_iff. exists (Z.to_nat x). split; [lia|]. apply in_seq. lia.
Qed.

Lemma b64_char_index (i : Z) :
  0 <= i < 64 -> b64_index (b64_char i) = i /\ Ascii.eqb (b64_char i) "="%char = false.
Proof.
  intros Hi.
  assert (H := range_forallb
    (fun i => Z.eqb (b64_index (b64_char i)) i && negb (Ascii.eqb (b64_char i) "="%char))
    64 ltac:(vm_compute; reflexivity) i Hi).
  apply andb_prop in H as [H1 H2]. apply Z.eqb_eq in H1. apply negb_true_iff in H2. auto.
Qed.

Lemma lor_shiftl_4 (x y : Z) :
  0 <= x < 4 -> 0 <= y < 16 -> Z.lor (Z.shiftl x 4) y = x * 16 + y.
Proof.
  intros Hx Hy.
  assert (H := range_forallb (fun x => forallb (fun y => Z.eqb (Z.lor (Z.shiftl x 4) y) (x * 16 + y))
                                               (map Z.of_nat (seq 0 16)))
                 4 ltac:(vm_compute; reflexivity) x Hx).
  apply Z.eqb_eq. exact (range_forallb _ 16 H y Hy).
Qed.

Lemma lor_shiftl_2 (x y : Z) :
  0 <= x < 16 -> 0 <= y < 4 -> Z.lor (Z.shiftl x 2) y = x * 4 + y.
Proof.
  intros Hx Hy.
  assert (H := range_forallb (fun x => forallb (fun y => Z.eqb (Z.lor (Z.shiftl x 2) y) (x * 4 + y))
                                               (map Z.of_nat (seq 0 4)))
                 16 ltac:(vm_compute; reflexivity) x Hx).
  apply Z.eqb_eq. exact (range_forallb _ 4 H y Hy).
Qed.

Lemma land_mod (b : Z) (k : Z) : 0 <= k -> Z.land b (Z.ones k) = b mod 2 ^ k.
Proof. apply Z.land_ones. Qed.

Definition byte_range (b : Z) : Prop := 0 <= b < 256.

Lemma b64_decode_block3 (b0 b1 b2 : Z) (rest : string) :
  byte_range b0 -> byte_range b1 -> byte_range b2 ->
  b64_decode (block3 b0 b1 b2 ++ rest) = b0 :: b1 :: b2 :: b64_decode rest.
Proof.
  unfold byte_range. intros H0 H1 H2.
  unfold block3, encode_block. cbn [writer buf buf_len Nat.leb].
  rewrite str_app_nil, !str_app_cons, str_app_nil.
  rewrite (Z.shiftr_div_pow2 b0 2), (Z.shiftr_div_pow2 b1 4), (Z.shiftr_div_pow2 b2 6) by lia.
  change 3 with (Z.ones 2). change 15 with (Z.ones 4). change 63 with (Z.ones 6).
  rewrite !land_mod by lia. change (2 ^ 2) with 4. change (2 ^ 4) with 16.
  change (2 ^ 6) with 64.
  assert (0 <= b0 mod 4 < 4) by (apply Z.mod_pos_bound; lia).
  assert (0 <= b1 mod 16 < 16) by (apply Z.mod_pos_bound; lia).
  assert (0 <= b2 mod 64 < 64) by (apply Z.mod_pos_bound; lia).
  assert (0 <= b0 / 4 < 64) by (split; [apply Z.div_pos | apply Z.div_lt_upper_bound]; lia).
  assert (0 <= b1 / 16 < 16) by (split; [apply Z.div_pos | apply Z.div_lt_upper_bound]; lia).
  assert (0 <= b2 / 64 < 4) by (split; [apply Z.div_pos | apply Z.div_lt_upper_bound]; lia).
  rewrite lor_shiftl_4, lor_shiftl_2 by lia.
  cbn [b64_decode].
  destruct (b64_char_index (b0 / 4)) as [E0 _]; [lia|].
  destruct (b64_char_index (b0 mod 4 * 16 + b1 / 16)) as [E1 _]; [lia|].
  destruct (b64_char_index (b1 mod 16 * 4 + b2 / 64)) as [E2 N2]; [lia|].
  destruct (b64_char_index (b2 mod 64)) as [E3 N3]; [lia|].
  rewrite E0, E1, E2, E3, N2, N3.
  f_equal; [|f_equal; [|f_equal]]; Z.div_mod_to_equations; lia.
Qed.

Lemma b64_decode_block2 (b0 b1 : Z) :
  byte_range b0 -> byte_range b1 -> b64_decode (block2 b0 b1) = [b0; b1].
Proof.
  unfold byte_range. intros H0 H1.
  unfold block2, encode_block. cbn [writer buf buf_len Nat.leb].
  rewrite str_app_nil.
  rewrite (Z.shiftr_div_pow2 b0 2), (Z.shiftr_div_pow2 b1 4) by lia.
  change 3 with (Z.ones 2). change 15 with (Z.ones 4).
  rewrite !land_mod by lia. change (2 ^ 2) with 4. change (2 ^ 4) with 16.
  assert (0 <= b0 mod 4 < 4) by (apply Z.mod_pos_bound; lia).
  assert (0 <= b1 mod 16 < 16) by (apply Z.mod_pos_bound; lia).
  assert (0 <= b0 / 4 < 64) by (split; [apply Z.div_pos | apply Z.div_lt_upper_bound]; lia).
  assert (0 <= b1 / 16 < 16) by (split; [apply Z.div_pos | apply Z.div_lt_upper_bound]; lia).
  rewrite lor_shiftl_4, lor_shiftl_2 by lia.
  cbn [b64_decode].
  destruct (b64_char_index (b0 / 4)) as [E0 _]; [lia|].
  destruct (b64_char_index (b0 mod 4 * 16 + b1 / 16)) as [E1 _]; [lia|].
  destruct (b64_char_index (b1 mod 16 * 4 + 0)) as [E2 N2]; [lia|].
  rewrite E0, E1, E2, N2, (Ascii.eqb_refl "="%char).
  f_equal; [|f_equal]; Z.div_mod_to_equations; lia.
Qed.

Lemma b64_decode_block1 (b0 : Z) : byte_range b0 -> b64_decode (block1 b0) = [b0].
Proof.
  unfold byte_range. intros H0.
  unfold block1, encode_block. cbn [writer buf buf_len Nat.leb].
  rewrite str_app_nil.
  rewrite (Z.shiftr_div_pow2 b0 2) by lia.
  change 3 with (Z.ones 2). rewrite !land_mod by lia. change (2 ^ 2) with 4.
  assert (0 <= b0 mod 4 < 4) by (apply Z.mod_pos_bound; lia).
  assert (0 <= b0 / 4 < 64) by (split; [apply Z.div_pos | apply Z.div_lt_upper_bound]; lia).
  rewrite lor_shiftl_4 by lia.
  cbn [b64_decode].
  destruct (b64_char_index (b0 / 4)) as [E0 _]; [lia|].
  destruct (b64_char_index (b0 mod 4 * 16 + 0)) as [E1 _]; [lia|].
  rewrite E0, E1, (Ascii.eqb_refl "="%char).
  f_equal; Z.div_mod_to_equations; lia.
Qed.

Lemma b64_decode_blocks (l : list Z) :
  Forall byte_range l -> b64_decode (b64_blocks l) = l.
Proof.
  induction l as [l IH] using (induction_ltof1 _ (@length _)); intros Hl.
  destruct l as [|b0 [|b1 [|b2 rest]]].
  - reflexivity.
  - apply Forall_cons in Hl as [H0 _]. apply b64_decode_block1, H0.
  - apply Forall_cons in Hl as [H0 Hl]. apply Forall_cons in Hl as [H1 _].
    apply b64_decode_block2; assumption.
  - apply Forall_cons in Hl as [H0 Hl]. apply Forall_cons in Hl as [H1 Hl].
    apply Forall_cons in Hl as [H2 Hl].
    cbn [b64_blocks]. rewrite b64_decode_block3 by assumption.
    rewrite IH by (assumption || (unfold ltof; simpl; lia)). reflexivity.
Qed.

Lemma as_bytes_range (s : string) : Forall byte_range (as_bytes s).
Proof.
  unfold as_bytes, byte_range. apply List.Forall_forall. intros b Hb.
  apply in_map_iff in Hb as [c [<- _]].
  pose proof (Ascii.nat_ascii_bounded c). lia.
Qed.

Lemma list_ascii_of_string_inj (a b : string) :
  list_ascii_of_string a = list_ascii_of_string b -> a = b.
Proof.
  intros H. rewrite <- (string_of_list_ascii_of_string a), <- (string_of_list_ascii_of_string b).
  congruence.
Qed.

Lemma as_bytes_inj (a b : string) : as_bytes a = as_bytes b -> a = b.
Proof.
  unfold as_bytes. intros H. apply list_ascii_of_string_inj.
  revert H. generalize (list_ascii_of_string b).
  induction (list_ascii_of_string a) as [|x la IH]; intros [|y lb] H;
    try discriminate H; [reflexivity|].
  cbn [map] in H. injection H as Hxy Hl.
  apply Nat2Z.inj in Hxy.
  rewrite <- (ascii_nat_embedding x), <- (ascii_nat_embedding y), Hxy.
  f_equal. apply IH, Hl.
Qed.

(** [base64_encode] is injective: different inputs give different encodings. *)
Theorem base64_encode_injective (a b : string) :
  base64_encode a = base64_encode b -> a = b.
Proof.
  rewrite !base64_encode_blocks. intros H. apply as_bytes_inj.
  rewrite <- (b64_decode_blocks (as_bytes a)), <- (b64_decode_blocks (as_bytes b))
    by apply as_bytes_range.
  congruence.
Qed.

Lemma base64_encode_injective_witness :
  base64_encode "user:pass" = base64_encode "user:pass" /\ "user:pass" = "user:pass".
Proof.
  split; [reflexivity|]. apply base64_encode_injective. reflexivity.
Defined.

(* ================================================================== *)
(** ** [gerrit.rs]: [auth_headers] *)

Lemma in_b64_alphabet_forallb (P : ascii -> bool) (c : ascii) :
  forallb P (list_ascii_of_string (BASE64_CHARS ++ "=")) = true ->
  in_b64_alphabet c = true -> P c = true.
Proof.
  intros HP Hc. eapply forallb_forall; [exact HP|].
  rewrite list_ascii_of_string_app, in_app_iff.
  unfold in_b64_alphabet, has_char in Hc.
  apply Bool.orb_true_iff in Hc as [H|H].
  - left. apply existsb_exists in H as [x [Hx Hc]].
    apply Ascii.eqb_eq in Hc. subst x. exact Hx.
  - right. apply Ascii.eqb_eq in H. subst c. left. reflexivity.
Qed.

(** With Basic credentials [auth_headers] always yields [Basic] followed by the base64 of [user:password]. *)
Theorem auth_headers_basic (u p : string) :
  auth_headers (Some (Credentials.mk u p Basic)) =
  Some ("Basic " ++ base64_encode (u ++ ":" ++ p))%string.
Proof.
  unfold auth_headers, HeaderValue_from_str. cbn [Credentials.auth_type Credentials.username Credentials.password].
  rewrite list_ascii_of_string_app, forallb_app.
  replace (forallb header_byte_ok (list_ascii_of_string (base64_encode (u ++ ":" ++ p)))) with true.
  { reflexivity. }
  symmetry. apply forallb_forall. intros c Hc.
  destruct (base64_encode_alphabet (u ++ ":" ++ p)) as [H _].
  eapply forallb_forall in H; [|exact Hc].
  apply (in_b64_alphabet_forallb header_byte_ok c); [vm_compute; reflexivity | exact H].
Qed.

Lemma forallb_false_iff {A} (f : A -> bool) (l : list A) :
  forallb f l = false <-> exists x, In x l /\ f x = false.
Proof.
  induction l as [|y l IH]; cbn [forallb].
  - split; [intros H; discriminate H | intros [x [[] _]]].
  - rewrite Bool.andb_false_iff, IH. split.
    + intros [H|[x [Hx Hf]]]; [exists y; split; [left|]; auto | exists x; split; [right|]; auto].
    + intros [x [[<-|Hx] Hf]]; [left; exact Hf | right; exists x; auto].
Qed.

(** With Bearer credentials [auth_headers] yields no header exactly when the token has a byte [HeaderValue::from_str] refuses. *)
Theorem auth_headers_bearer_dropped (u p : string) :
  auth_headers (Some (Credentials.mk u p Bearer)) = None <->
  exists c, In c (list_ascii_of_string p) /\ header_byte_ok c = false.
Proof.
  unfold auth_headers, HeaderValue_from_str. cbn [Credentials.auth_type Credentials.password].
  rewrite list_ascii_of_string_app, forallb_app.
  change (forallb header_byte_ok (list_ascii_of_string "Bearer ")) with true.
  rewrite Bool.andb_true_l, <- forallb_false_iff.
  destruct (forallb header_byte_ok (list_ascii_of_string p)).
  - split; intros H; discriminate H.
  - split; reflexivity.
Qed.

(* ================================================================== *)
(** ** [config.rs]: [populate_rewrites] and [alias_url] *)

Lemma has_char_substring (c : ascii) (k m : nat) (s : string) :
  has_char c (String.substring k m s) = true -> has_char c s = true.
Proof.
  revert k m. induction s as [|x s IH]; intros k m H.
  - destruct k, m; discriminate H.
  - unfold has_char in *. cbn [list_ascii_of_string existsb].
    destruct k as [|k].
    + destruct m as [|m]; [discriminate H|].
      cbn [String.substring list_ascii_of_string existsb] in H.
      apply Bool.orb_true_iff in H as [H|H]; [rewrite H; reflexivity|].
      rewrite (IH 0%nat m H). apply Bool.orb_true_r.
    + cbn [String.substring] in H. rewrite (IH k m H). apply Bool.orb_true_r.
Qed.

Lemma ends_with_single_none (c : ascii) (s : string) :
  has_char c s = false -> ends_with s (String c "") = false.
Proof.
  intros Hs. unfold ends_with. cbn [String.length].
  destruct (String.eqb_spec (str_drop (String.length s - 1) s) (String c "")) as [E|E].
  - exfalso. unfold str_drop in E.
    assert (H := has_char_substring c (String.length s - 1) (String.length s - (String.length s - 1)) s).
    rewrite E in H. rewrite H in Hs; [discriminate Hs|].
    unfold has_char. cbn. rewrite Ascii.eqb_refl. reflexivity.
  - apply Bool.andb_false_r.
Qed.

Lemma ends_with_single_app (a b : string) (c : ascii) :
  b <> ""%string -> ends_with (a ++ b) (String c "") = ends_with b (String c "").
Proof.
  intros Hb. assert (1 <= String.length b)%nat by (destruct b; [congruence | simpl; lia]).
  unfold ends_with. rewrite string_length_app. cbn [String.length].
  replace (String.length a + String.length b - 1)%nat
    with (String.length a + (String.length b - 1))%nat by lia.
  rewrite str_drop_app_add.
  replace (1 <=? String.length a + String.length b)%nat with true by (symmetry; apply Nat.leb_le; lia).
  replace (1 <=? String.length b)%nat with true by (symmetry; apply Nat.leb_le; lia).
  reflexivity.
Qed.

(** A line [key=value] whose value has no ['\r'] is kept by [strip_cr]. *)
Lemma strip_cr_eq_value (a v : string) :
  has_char carriage_return v = false ->
  strip_cr (a ++ String "=" v) = (a ++ String "=" v)%string.
Proof.
  intros Hv. unfold strip_cr.
  rewrite str_strip_suffix_none; [reflexivity|].
  rewrite ends_with_single_app by discriminate.
  destruct v as [|x v].
  - reflexivity.
  - change (String "=" (String x v)) with ("=" ++ String x v)%string.
    rewrite ends_with_single_app by discriminate.
    apply ends_with_single_none, Hv.
Qed.

Lemma lines_acc_app (l rest cur : string) :
  has_char newline l = false ->
  lines_acc (l ++ String newline rest) cur = strip_cr (cur ++ l) :: lines_acc rest "".
Proof.
  revert cur. induction l as [|x l IH]; intros cur Hl.
  - rewrite str_app_nil, str_app_nil_r. cbn [lines_acc].
    rewrite Ascii.eqb_refl. reflexivity.
  - unfold has_char in Hl. cbn [list_ascii_of_string existsb] in Hl.
    apply Bool.orb_false_iff in Hl as [Hx Hl].
    rewrite str_app_cons. cbn [lines_acc].
    rewrite Ascii.eqb_sym, Hx. rewrite IH by exact Hl.
    rewrite str_app_assoc. reflexivity.
Qed.

(** The text [l1\nl2\n...ln\n]. *)
Fixpoint config_text (ls : list string) : string :=
  match ls with
  | [] => ""
  | l :: rest => (l ++ String newline (config_text rest))%string
  end.

Lemma lines_config_text (ls : list string) :
  Forall (fun l => has_char newline l = false /\ strip_cr l = l) ls ->
  lines (config_text ls) = ls.
Proof.
  unfold lines. induction ls as [|l ls IH]; intros H; [reflexivity|].
  apply Forall_cons in H as [[H1 H2] H].
  cbn [config_text]. rewrite lines_acc_app by exact H1.
  rewrite str_app_nil, H2, IH by exact H. reflexivity.
Qed.

Lemma to_lowercase_app (a b : string) :
  to_lowercase (a ++ b) = (to_lowercase a ++ to_lowercase b)%string.
Proof.
  induction a as [|x a IH]; [reflexivity|].
  rewrite !str_app_cons. cbn [to_lowercase]. rewrite IH. reflexivity.
Qed.

Lemma to_lowercase_length (s : string) : String.length (to_lowercase s) = String.length s.
Proof. induction s as [|x s IH]; [reflexivity|]. cbn. rewrite IH. reflexivity. Qed.

Lemma substring_app_skip (a b : string) (k n : nat) :
  String.substring (String.length a + k) n (a ++ b) = String.substring k n b.
Proof. induction a as [|x a IH]; [reflexivity|]. rewrite str_app_cons. exact IH. Qed.

(** One [url.<base>.insteadof=<value>] or [url.<base>.pushinsteadof=<value>]
    line of [git config --list]. *)
Definition rewrite_line (base value : string) (push : bool) : string :=
  ("url." ++ base ++ (if push then ".pushinsteadof=" else ".insteadof=") ++ value)%string.

Definition rewrite_key (base : string) (push : bool) : string :=
  ("url." ++ base ++ (if push then ".pushinsteadof" else ".insteadof"))%string.

Lemma rewrite_line_split (base value : string) (push : bool) :
  rewrite_line base value push = (rewrite_key base push ++ String "=" value)%string.
Proof.
  unfold rewrite_line, rewrite_key. rewrite !str_app_assoc.
  destruct push; reflexivity.
Qed.

Lemma populate_line_rewrite (rw : UrlRewrites) (base value : string) (push : bool) :
  has_char "=" base = false ->
  populate_line rw (rewrite_line base value push) =
  if push then mkUrlRewrites (instead_of rw) (push_instead_of rw ++ [(value, base)])
  else mkUrlRewrites (instead_of rw ++ [(value, base)]) (push_instead_of rw).
Proof.
  intros Hb. unfold populate_line. rewrite rewrite_line_split, split_once_app.
  2:{ unfold rewrite_key. rewrite !has_char_app, Hb. destruct push; reflexivity. }
  unfold rewrite_key. rewrite !to_lowercase_app.
  change (to_lowercase "url.") with "url."%string.
  rewrite str_strip_prefix_app.
  assert (Hsub : String.substring 4 (String.length (to_lowercase base))
             ("url." ++ base ++ (if push then ".pushinsteadof" else ".insteadof")) = base).
  { change 4%nat with (String.length "url." + 0)%nat.
    rewrite substring_app_skip, to_lowercase_length. apply str_take_app. }
  destruct push.
  - change (to_lowercase ".pushinsteadof") with ".pushinsteadof"%string.
    rewrite (str_strip_suffix_none _ ".insteadof").
    2:{ unfold ends_with. rewrite string_length_app. cbn [String.length].
        replace (String.length (to_lowercase base) + 14 - 10)%nat
          with (String.length (to_lowercase base) + 4)%nat by lia.
        rewrite str_drop_app_add. apply Bool.andb_false_r. }
    rewrite str_strip_suffix_app, Hsub. reflexivity.
  - change (to_lowercase ".insteadof") with ".insteadof"%string.
    rewrite str_strip_suffix_app, Hsub. reflexivity.
Qed.

(** A [url.<base>.(push)insteadof=<value>] entry: base, value, push. *)
Definition rewrite_entry_line (e : string * string * bool) : string :=
  let '(b, v, p) := e in rewrite_line b v p.

Definition entry_rule (e : string * string * bool) : string * string :=
  let '(b, v, _) := e in (v, b).

Definition entry_push (e : string * string * bool) : bool := e.2.

(** The entries [git config --list] prints: the base has no ['='] and no
    line break and is ASCII (the text [to_lowercase] keeps the length of),
    the value has no line break. *)
Definition entry_ok (e : string * string * bool) : Prop :=
  let '(b, v, _) := e in
  has_char "=" b = false /\ has_char newline b = false /\ is_ascii b = true /\
  has_char newline v = false /\ has_char carriage_return v = false.

Lemma rewrite_entry_line_lines (e : string * string * bool) :
  entry_ok e ->
  has_char newline (rewrite_entry_line e) = false /\
  strip_cr (rewrite_entry_line e) = rewrite_entry_line e.
Proof.
  destruct e as [[b v] p]. intros (Hb1 & Hb2 & _ & Hv1 & Hv2).
  unfold rewrite_entry_line. rewrite rewrite_line_split. split.
  - unfold rewrite_key. change (String "=" v) with ("=" ++ v)%string.
    rewrite !has_char_app, Hb2, Hv1.
    destruct p; reflexivity.
  - apply strip_cr_eq_value, Hv2.
Qed.

Lemma populate_fold_entries (es : list (string * string * bool)) (rw : UrlRewrites) :
  Forall entry_ok es ->
  fold_left populate_line (map rewrite_entry_line es) rw =
  mkUrlRewrites (instead_of rw ++ map entry_rule (List.filter (fun e => negb (entry_push e)) es))
                (push_instead_of rw ++ map entry_rule (List.filter entry_push es)).
Proof.
  revert rw. induction es as [|[[b v] p] es IH]; intros rw Hes.
  - destruct rw. cbn. rewrite !app_nil_r. reflexivity.
  - apply Forall_cons in Hes as [He Hes].
    destruct He as (Hb & _).
    cbn [map fold_left]. change (rewrite_entry_line (b, v, p)) with (rewrite_line b v p).
    rewrite populate_line_rewrite by exact Hb.
    rewrite IH by exact Hes.
    destruct p; cbn [entry_push List.filter negb snd map instead_of push_instead_of];
      rewrite <- !app_assoc; reflexivity.
Qed.

(** [populate_rewrites] reads back, in order, the [insteadOf] and [pushInsteadOf] rules of a config listing, for every BASE that is ASCII with no ['='] or line break and every VALUE with no line feed or carriage return ([entry_ok]). *)
Theorem populate_rewrites_roundtrip (es : list (string * string * bool)) :
  Forall entry_ok es ->
  populate_rewrites (config_text (map rewrite_entry_line es)) =
  mkUrlRewrites (map entry_rule (List.filter (fun e => negb (entry_push e)) es))
                (map entry_rule (List.filter entry_push es)).
Proof.
  intros Hes. unfold populate_rewrites.
  rewrite lines_config_text.
  - apply populate_fold_entries, Hes.
  - apply Forall_map. eapply Forall_impl; [exact Hes|].
    intros e He. apply rewrite_entry_line_lines, He.
Qed.

Definition example_rewrite_entries : list (string * string * bool) :=
  [("ssh://review.example.com:29418/", "gerrit:", false);
   ("https://review.example.com/", "gerrit:", true)].

Lemma populate_rewrites_roundtrip_witness :
  Forall entry_ok example_rewrite_entries /\
  populate_rewrites (config_text (map rewrite_entry_line example_rewrite_entries)) =
  mkUrlRewrites
    (map entry_rule (List.filter (fun e => negb (entry_push e)) example_rewrite_entries))
    (map entry_rule (List.filter entry_push example_rewrite_entries)).
Proof.
  assert (H : Forall entry_ok example_rewrite_entries) by (repeat constructor).
  split; [exact H|]. apply populate_rewrites_roundtrip. exact H.
Defined.

Lemma longest_match_replace_single (v b rest : string) :
  v <> ""%string ->
  longest_match_replace (v ++ rest) [(v, b)] = Some (b ++ rest)%string.
Proof.
  intros Hv. unfold longest_match_replace. cbn [longest_match_loop].
  unfold starts_with. rewrite str_prefix_app.
  replace (0 <? String.length v)%nat with true
    by (symmetry; apply Nat.ltb_lt; destruct v; [congruence | simpl; lia]).
  cbn. rewrite str_drop_app. reflexivity.
Qed.

(** A single [url.BASE.insteadOf=VALUE] rule, with BASE ASCII without ['='] or line break and VALUE non-empty without line feed or carriage return, makes [alias_url] rewrite a URL starting with [VALUE] to [BASE]; a [pushInsteadOf] rule does so only for pushes. *)
Theorem populate_rewrites_alias_url (b v rest : string) (push for_push : bool) :
  entry_ok (b, v, push) -> v <> ""%string ->
  alias_url (v ++ rest) (populate_rewrites (config_text [rewrite_line b v push])) for_push =
  (if push && negb for_push then v ++ rest else b ++ rest)%string.
Proof.
  intros He Hv.
  change [rewrite_line b v push] with (map rewrite_entry_line [(b, v, push)]).
  rewrite populate_rewrites_roundtrip by (constructor; [exact He | constructor]).
  unfold alias_url. destruct push, for_push;
    cbn [List.filter entry_push negb snd map instead_of push_instead_of entry_rule andb];
    rewrite ?longest_match_replace_single by exact Hv; reflexivity.
Qed.

Lemma populate_rewrites_alias_url_witness :
  (entry_ok ("ssh://review.example.com:29418/", "gerrit:", false) /\ "gerrit:" <> ""%string) /\
  alias_url ("gerrit:" ++ "openstack/nova")
    (populate_rewrites (config_text [rewrite_line "ssh://review.example.com:29418/" "gerrit:" false]))
    true =
  (if false && negb true then "gerrit:" ++ "openstack/nova"
   else "ssh://review.example.com:29418/" ++ "openstack/nova")%string.
Proof.
  assert (H : entry_ok ("ssh://review.example.com:29418/", "gerrit:", false)) by (repeat constructor).
  split; [split; [exact H|discriminate]|].
  apply populate_rewrites_alias_url; [exact H|discriminate].
Defined.

(* ================================================================== *)
(** ** [gerrit.rs]: the retry loop [get] *)

(** The events of attempts [a], [a+1], ..., [a+n] with the sleeps between. *)
Fixpoint retry_trace (a n : nat) : list Event :=
  Attempt a :: match n with
               | O => []
               | S n' => Sleep (2 ^ Z.of_nat a) :: retry_trace (S a) n'
               end.

(** The outcome [get] reports for the exchange of its last attempt. *)
Definition final_outcome (path : string) (r : result string GerritError) : GetOutcome :=
  match r with
  | Ok b => GOk b
  | Err e => GErr (EContext (ctx_request path) (EGerrit e))
  end.

Lemma get_loop_spec (path : string) (server : nat -> HttpExchange)
    (remaining attempt : nat) (last_err : option GerritError) :
  (remaining + attempt = S MAX_RETRIES)%nat -> (attempt <= MAX_RETRIES)%nat ->
  exists k, (attempt <= k <= MAX_RETRIES)%nat /\
    get_loop path server remaining attempt last_err =
      (retry_trace attempt (k - attempt), final_outcome path (get_once (server k))) /\
    (forall j, (attempt <= j < k)%nat ->
       exists e, get_once (server j) = Err e /\ is_retryable e = true) /\
    (forall e, (k < MAX_RETRIES)%nat -> get_once (server k) = Err e -> is_retryable e = false).
Proof.
  revert attempt last_err.
  induction remaining as [|rem IH]; intros attempt last_err Hsum Hle.
  - unfold MAX_RETRIES in *. lia.
  - cbn [get_loop]. destruct (get_once (server attempt)) as [b|e] eqn:Ex.
    + exists attempt. rewrite Nat.sub_diag. split; [lia|]. split.
      { rewrite Ex. reflexivity. }
      split; [intros j Hj; lia|]. intros e _ He. congruence.
    + destruct (is_retryable e && (attempt <? MAX_RETRIES)%nat) eqn:E.
      * apply andb_true_iff in E as [R E]. apply Nat.ltb_lt in E.
        destruct (IH (S attempt) (Some e) ltac:(lia) ltac:(lia))
          as (k & Hk & Hloop & Hprev & Hlast).
        rewrite Hloop. exists k. split; [lia|]. split.
        { replace (k - attempt)%nat with (S (k - S attempt)) by lia. reflexivity. }
        split; [|exact Hlast].
        intros j Hj. destruct (Nat.eq_dec j attempt) as [->|Hne].
        -- exists e. split; [exact Ex | exact R].
        -- apply Hprev. lia.
      * exists attempt. rewrite Nat.sub_diag. split; [lia|]. split.
        { rewrite Ex. reflexivity. }
        split; [intros j Hj; lia|].
        intros e' Hlt He'. rewrite Ex in He'. injection He' as <-.
        apply andb_false_iff in E as [E|E]; [exact E|].
        apply Nat.ltb_ge in E. lia.
Qed.

(** [get] calls the server until an outcome that is not a retryable error, at most [MAX_RETRIES + 1] times, sleeping [2^attempt] between attempts; the result is that of the last attempt. *)
Theorem get_retry_spec (path : string) (server : nat -> HttpExchange) :
  exists k, (k <= MAX_RETRIES)%nat /\
    get path server = (retry_trace 0 k, final_outcome path (get_once (server k))) /\
    (forall j, (j < k)%nat -> exists e, get_once (server j) = Err e /\ is_retryable e = true) /\
    (forall e, (k < MAX_RETRIES)%nat -> get_once (server k) = Err e -> is_retryable e = false).
Proof.
  destruct (get_loop_spec path server (S MAX_RETRIES) 0%nat None) as (k & Hk & H1 & H2 & H3);
    [reflexivity | unfold MAX_RETRIES; lia|].
  exists k. split; [lia|]. split; [rewrite Nat.sub_0_r in H1; exact H1|]. split; [|exact H3].
  intros j Hj. apply H2. lia.
Qed.

(* ================================================================== *)
(** ** [review_query.rs]: the revision map of the SSH normaliser *)

(** The revision entry the SSH loop builds for a patch set. *)
Definition ps_revision_info (ps : SshPatchSet.t) : RevisionInfo.t :=
  RevisionInfo.mk (SshPatchSet.number ps) (SshPatchSet.git_ref ps) None.

(** The patch sets the revision map is built from: [patchSets], or else
    [currentPatchSet] alone. *)
Definition ssh_source_patch_sets (raw : SshChangeRaw.t) : list SshPatchSet.t :=
  match SshChangeRaw.patch_sets raw with
  | Some l => l
  | None => match SshChangeRaw.current_patch_set raw with Some c => [c] | None => [] end
  end.

Lemma ssh_ps_fold_revs (cps : option SshPatchSet.t) (l : list SshPatchSet.t)
    (revs : gmap string RevisionInfo.t) (cur : option string) (hn : option Z)
    (revs' : gmap string RevisionInfo.t) (cur' : option string) (hn' : option Z) :
  fold_left (ssh_ps_step cps) l (revs, cur, hn) = (revs', cur', hn') ->
  (forall rev info, revs' !! rev = Some info ->
     revs !! rev = Some info \/
     exists ps, ps ∈ l /\ ps_included ps /\ SshPatchSet.revision ps = Some rev /\
                info = ps_revision_info ps) /\
  (forall rev, is_Some (revs !! rev) -> is_Some (revs' !! rev)) /\
  (forall ps rev, ps ∈ l -> ps_included ps -> SshPatchSet.revision ps = Some rev ->
     is_Some (revs' !! rev)).
Proof.
  revert revs cur hn. induction l as [|ps l IH]; intros revs cur hn; cbn [fold_left].
  - intros [= <- <- <-]. split; [by left|]. split; [done|].
    intros ps rev Hin. by apply elem_of_nil in Hin.
  - unfold ssh_ps_step at 2.
    destruct (SshPatchSet.revision ps) as [r0|] eqn:Er;
      [destruct (SshPatchSet.number ps) as [num|] eqn:En;
       [destruct (SshPatchSet.git_ref ps) as [g|] eqn:Eg|]|].
    1: { intros Hf. apply IH in Hf as (H1 & H2 & H3). split; [|split].
         - intros rev info Hl. destruct (H1 rev info Hl) as [Hl0|(ps' & Hin & Hinc & Hr & ->)].
           + destruct (decide (r0 = rev)) as [<-|Hne].
             * rewrite lookup_insert_eq in Hl0. injection Hl0 as <-.
               right. exists ps. split; [apply elem_of_cons; by left|].
               split; [split; [by eexists|split; by eexists]|].
               split; [exact Er|]. unfold ps_revision_info. by rewrite En, Eg.
             * rewrite lookup_insert_ne in Hl0 by done. by left.
           + right. exists ps'. split; [apply elem_of_cons; by right|]. done.
         - intros rev Hs. apply H2. destruct (decide (r0 = rev)) as [<-|Hne].
           + rewrite lookup_insert_eq. by eexists.
           + by rewrite lookup_insert_ne.
         - intros ps' rev Hin Hinc Hr. apply elem_of_cons in Hin as [->|Hin].
           + apply H2. rewrite Er in Hr. injection Hr as <-.
             rewrite lookup_insert_eq. by eexists.
           + exact (H3 ps' rev Hin Hinc Hr). }
    all: intros Hf; apply IH in Hf as (H1 & H2 & H3); split; [|split];
      [ intros rev info Hl; destruct (H1 rev info Hl) as [Hl0|(ps' & Hin & Hrest)];
        [by left | right; exists ps'; split; [apply elem_of_cons; by right | exact Hrest]]
      | exact H2
      | intros ps' rev Hin Hinc Hr; apply elem_of_cons in Hin as [->|Hin];
        [destruct Hinc as ([? Hr'] & [? Hn'] & [? Hg']); congruence
        | exact (H3 ps' rev Hin Hinc Hr)]].
Qed.

(** Every entry of the revision map the SSH normaliser builds comes from a complete patch set, keyed by its revision, and every complete patch set has an entry. *)
Theorem ssh_change_revisions_from_patch_sets (raw : SshChangeRaw.t)
    (revs : gmap string RevisionInfo.t) :
  ChangeInfo.revisions (ssh_change_to_change_info raw) = Some revs ->
  (forall rev info, revs !! rev = Some info ->
     exists ps, ps ∈ ssh_source_patch_sets raw /\ ps_included ps /\
       SshPatchSet.revision ps = Some rev /\ info = ps_revision_info ps) /\
  (forall ps rev, ps ∈ ssh_source_patch_sets raw -> ps_included ps ->
     SshPatchSet.revision ps = Some rev -> is_Some (revs !! rev)).
Proof.
  unfold ssh_change_to_change_info, ssh_source_patch_sets.
  destruct (ssh_revisions raw) as [revisions current] eqn:E. cbn [ChangeInfo.revisions].
  intros ->. unfold ssh_revisions in E.
  destruct (SshChangeRaw.patch_sets raw) as [patch_sets|] eqn:Eps.
  - destruct (fold_left _ patch_sets _) as [[revs' cur] hn] eqn:Ef.
    injection E as <- _.
    destruct (ssh_ps_fold_revs _ _ _ _ _ _ _ _ Ef) as (H1 & _ & H3).
    split; [|exact H3].
    intros rev info Hl. destruct (H1 rev info Hl) as [Hl0|Hps]; [|exact Hps].
    by rewrite lookup_empty in Hl0.
  - destruct (SshChangeRaw.current_patch_set raw) as [cps|]; [|discriminate E].
    destruct (SshPatchSet.revision cps) as [r0|] eqn:Er,
      (SshPatchSet.number cps) as [num|] eqn:En,
      (SshPatchSet.git_ref cps) as [g|] eqn:Eg; try discriminate E.
    injection E as <- _. split.
    + intros rev info Hl. destruct (decide (r0 = rev)) as [<-|Hne].
      * rewrite lookup_singleton_eq in Hl. injection Hl as <-.
        exists cps. split; [apply list_elem_of_singleton; done|].
        split; [split; [by eexists|split; by eexists]|].
        split; [exact Er|]. unfold ps_revision_info. by rewrite En, Eg.
      * by rewrite lookup_singleton_ne in Hl.
    + intros ps rev Hin _ Hr. apply list_elem_of_singleton in Hin as ->.
      rewrite Er in Hr. injection Hr as <-. rewrite lookup_singleton_eq. by eexists.
Qed.

Definition example_ssh_raw : SshChangeRaw.t :=
  SshChangeRaw.mk (Some 7) (Some "I7") (Some "p") (Some "master") None (Some "Fix")
    (Some "NEW") None None None None
    (Some (SshPatchSet.mk (Some 2) (Some "refs/changes/07/7/2") (Some "b")))
    (Some [SshPatchSet.mk (Some 1) (Some "refs/changes/07/7/1") (Some "a");
           SshPatchSet.mk (Some 2) (Some "refs/changes/07/7/2") (Some "b");
           SshPatchSet.mk (Some 3) None (Some "c")]).

Definition example_ssh_revs : gmap string RevisionInfo.t :=
  default ∅ (ChangeInfo.revisions (ssh_change_to_change_info example_ssh_raw)).

Lemma ssh_change_revisions_from_patch_sets_witness :
  ChangeInfo.revisions (ssh_change_to_change_info example_ssh_raw) = Some example_ssh_revs /\
  (forall rev info, example_ssh_revs !! rev = Some info ->
     exists ps, ps ∈ ssh_source_patch_sets example_ssh_raw /\ ps_included ps /\
       SshPatchSet.revision ps = Some rev /\ info = ps_revision_info ps) /\
  (forall ps rev, ps ∈ ssh_source_patch_sets example_ssh_raw -> ps_included ps ->
     SshPatchSet.revision ps = Some rev -> is_Some (example_ssh_revs !! rev)).
Proof.
  assert (H : ChangeInfo.revisions (ssh_change_to_change_info example_ssh_raw) =
              Some example_ssh_revs) by (vm_compute; reflexivity).
  split; [exact H|]. apply ssh_change_revisions_from_patch_sets. exact H.
Defined.

(* ================================================================== *)
(** ** [review_query.rs]: [parse_ssh_query_output] *)

(** The JSON objects of the output that describe changes: the object lines
    without a ["type"] key, in order. *)
Fixpoint change_objects (lines : list ssh_line) : list (list (string * json)) :=
  match lines with
  | [] => []
  | LSkip _ :: rest => change_objects rest
  | LObject entries :: rest =>
      if bool_decide ("type" ∈ map fst entries) then change_objects rest
      else entries :: change_objects rest
  end.

(** A change object decodes to the raw change whose normal form is [c]. *)
Definition decodes_to (entries : list (string * json)) (c : ChangeInfo.t) : Prop :=
  exists raw, de_SshChangeRaw (JObj entries) = Ok raw /\ c = ssh_change_to_change_info raw.

(** [parse_ssh_query_output] succeeds exactly when every change object line decodes, and returns the normalised changes in line order. *)
Theorem parse_ssh_query_output_changes (lines : list ssh_line) (cs : list ChangeInfo.t) :
  parse_ssh_query_output lines = Ok cs <-> Forall2 decodes_to (change_objects lines) cs.
Proof.
  revert cs. induction lines as [|[text|entries] rest IH]; intros cs; cbn [parse_ssh_query_output change_objects].
  - split.
    + intros H. injection H as <-. constructor.
    + intros H. inversion H. reflexivity.
  - apply IH.
  - case_bool_decide; [apply IH|].
    destruct (de_SshChangeRaw (JObj entries)) as [raw|e] eqn:Ed.
    + cbn. destruct (parse_ssh_query_output rest) as [cs'|e] eqn:Er.
      * split.
        -- intros Hc. injection Hc as <-. constructor.
           ++ exists raw. split; [exact Ed | reflexivity].
           ++ apply IH. reflexivity.
        -- intros Hf. inversion Hf as [|x c l' cs'' Hx Hl]; subst.
           destruct Hx as (raw' & Ed' & ->).
           assert (raw' = raw) as -> by congruence.
           apply IH in Hl. assert (cs'' = cs') as -> by congruence. reflexivity.
      * split; [intros Hc; discriminate Hc|].
        intros Hf. inversion Hf as [|x c l' cs'' Hx Hl]; subst.
        apply IH in Hl. congruence.
    + split; [intros Hc; discriminate Hc|].
      intros Hf. inversion Hf as [|x c l' cs'' Hx Hl]; subst.
      destruct Hx as (raw' & Ed' & _). congruence.
Qed.

(* ================================================================== *)
(** ** [comments.rs]: [build_threads] *)

(** [c] starts a thread: it replies to nothing, or to an id that no comment
    carries. *)
Definition starts_thread (all : list (string * CommentInfo.t)) (c : CommentInfo.t) : bool :=
  match CommentInfo.in_reply_to c with
  | Some parent_id => negb (existsb (fun fc => bool_decide (CommentInfo.id fc.2 = Some parent_id)) all)
  | None => true
  end.

(** What a thread shows of its root: file, line and first comment. *)
Definition thread_head (t : CommentThread.t) : string * option Z * option ThreadComment.t :=
  (CommentThread.file t, CommentThread.line t, head (CommentThread.comments t)).

Definition root_head (fc : string * CommentInfo.t) : string * option Z * option ThreadComment.t :=
  (fc.1, CommentInfo.line fc.2, Some (to_thread_comment fc.2)).

Lemma by_id_fold_lookup (all : list (string * CommentInfo.t))
    (m : gmap string (string * CommentInfo.t)) (p : string) :
  is_Some (fold_left (fun m '(file, c) =>
               match CommentInfo.id c with
               | Some id => <[id := (file, c)]> m
               | None => m
               end) all m !! p) <->
  is_Some (m !! p) \/ existsb (fun fc => bool_decide (CommentInfo.id fc.2 = Some p)) all = true.
Proof.
  revert m. induction all as [|[f c] all IH]; intros m; cbn [fold_left existsb].
  - split; [by left | intros [H|H]; [exact H | discriminate H]].
  - rewrite IH. cbn [snd]. rewrite Bool.orb_true_iff.
    destruct (CommentInfo.id c) as [id|] eqn:Eid.
    + destruct (decide (id = p)) as [<-|Hne].
      * rewrite lookup_insert_eq, bool_decide_eq_true_2 by reflexivity.
        split; [intros _; right; left; reflexivity | intros _; left; by eexists].
      * rewrite lookup_insert_ne by done.
        rewrite bool_decide_eq_false_2 by congruence.
        split; intros [H|H]; try tauto; destruct H as [H|H]; [discriminate H | tauto].
    + rewrite bool_decide_eq_false_2 by discriminate.
      split; intros [H|H]; try tauto; destruct H as [H|H]; [discriminate H | tauto].
Qed.

Lemma by_id_lookup (all : list (string * CommentInfo.t)) (p : string) :
  is_Some (by_id all !! p) <->
  existsb (fun fc => bool_decide (CommentInfo.id fc.2 = Some p)) all = true.
Proof.
  unfold by_id. rewrite by_id_fold_lookup, lookup_empty.
  split; [intros [[? H]|H]; [discriminate H | exact H] | by right].
Qed.

Lemma roots_fold (all l : list (string * CommentInfo.t))
    (roots : list (string * CommentInfo.t)) (children : gmap string (list CommentInfo.t)) :
  (fold_left (roots_children_step (by_id all)) l (roots, children)).1 =
  roots ++ List.filter (fun fc => starts_thread all fc.2) l.
Proof.
  revert roots children. induction l as [|[f c] l IH]; intros roots children.
  - by rewrite app_nil_r.
  - cbn [fold_left List.filter snd]. unfold roots_children_step at 2.
    unfold starts_thread at 1.
    destruct (CommentInfo.in_reply_to c) as [p|].
    + case_bool_decide as Hp.
      * apply by_id_lookup in Hp. rewrite Hp. cbn [negb]. apply IH.
      * assert (existsb (fun fc => bool_decide (CommentInfo.id fc.2 = Some p)) all = false) as ->.
        { destruct (existsb _ all) eqn:E; [|reflexivity]. exfalso. apply Hp, by_id_lookup, E. }
        cbn [negb]. rewrite IH, <- app_assoc. reflexivity.
    + rewrite IH, <- app_assoc. reflexivity.
Qed.

Lemma collect_thread_head (fuel : nat) (children : gmap string (list CommentInfo.t))
    (c : CommentInfo.t) (l : list CommentInfo.t) :
  collect_thread fuel children c = Some l -> head l = Some c.
Proof.
  destruct fuel as [|fuel]; [intros H; discriminate H|].
  cbn [collect_thread]. destruct (mapM _ _); [|intros H; discriminate H].
  intros H. injection H as <-. reflexivity.
Qed.

(** [build_threads] makes one thread per comment that starts a thread (no [in_reply_to], or a reply to an unknown id), headed by that comment. *)
Theorem build_threads_one_per_root (comments_by_file : list (string * list CommentInfo.t))
    (threads : list CommentThread.t) :
  build_threads comments_by_file = Some threads ->
  map thread_head threads ≡ₚ
  map root_head (List.filter (fun fc => starts_thread (all_comments comments_by_file) fc.2)
                             (all_comments comments_by_file)).
Proof.
  unfold build_threads.
  assert (Hr : (roots_children (all_comments comments_by_file)).1 =
               List.filter (fun fc => starts_thread (all_comments comments_by_file) fc.2)
                           (all_comments comments_by_file))
    by (unfold roots_children; apply roots_fold).
  destruct (roots_children (all_comments comments_by_file)) as [roots children] eqn:Erc.
  cbn [fst] in Hr. rewrite <- Hr. intros Hb.
  destruct (mapM _ roots) as [threads0|] eqn:Em; [|discriminate Hb].
  injection Hb as <-. rewrite stable_sort_perm.
  apply mapM_Some in Em. clear Hr Erc.
  induction Em as [|[file root] t roots threads0 Hf _ IH]; [reflexivity|].
  cbn [map]. rewrite IH.
  destruct (collect_thread _ children root) as [cs|] eqn:Ec; [|discriminate Hf].
  injection Hf as <-. apply collect_thread_head in Ec.
  unfold thread_head, root_head, make_thread. cbn.
  destruct cs as [|c' cs]; [discriminate Ec|]. injection Ec as ->. reflexivity.
Qed.

Definition example_comments : list (string * list CommentInfo.t) :=
  [("f.rs", [mk_comment "f.rs" "r1" None "t2" "root one" (Some true);
             mk_comment "f.rs" "x1" (Some "r1") "t3" "reply" (Some false);
             mk_comment "f.rs" "o1" (Some "gone") "t1" "orphan" (Some true)]);
   ("a.rs", [mk_comment "a.rs" "r2" None "t0" "root two" (Some true)])].

Definition example_threads : list CommentThread.t :=
  default [] (build_threads example_comments).

Lemma build_threads_one_per_root_witness :
  build_threads example_comments = Some example_threads /\
  map thread_head example_threads ≡ₚ
  map root_head (List.filter (fun fc => starts_thread (all_comments example_comments) fc.2)
                             (all_comments example_comments)).
Proof.
  assert (H : build_threads example_comments = Some example_threads)
    by (vm_compute; reflexivity).
  split; [exact H|]. apply build_threads_one_per_root. exact H.
Defined.

Lemma thread_le_total (a b : CommentThread.t) :
  thread_le a b = false -> thread_le b a = true.
Proof.
  unfold thread_le. rewrite (String.compare_antisym (CommentThread.file b)).
  destruct (String.compare (CommentThread.file a) (CommentThread.file b)); cbn;
    [intros H; apply Z.leb_gt in H; apply Z.leb_le; lia | intros H; discriminate H | reflexivity].
Qed.

Lemma insert_stable_sorted {A} (le : A -> A -> bool) (x : A) (l : list A) :
  (forall a b, le a b = false -> le b a = true) ->
  Sorted (fun a b => le a b = true) l -> Sorted (fun a b => le a b = true) (insert_stable le x l).
Proof.
  intros Htot. induction l as [|y l IH]; intros Hs; cbn.
  - repeat constructor.
  - destruct (le y x) eqn:Eyx.
    + apply Sorted_inv in Hs as [Hs Hhd]. constructor; [apply IH, Hs|].
      destruct l as [|z l]; cbn; [constructor; exact Eyx|].
      destruct (le z x); constructor; [apply HdRel_inv in Hhd; exact Hhd | exact Eyx].
    + constructor; [exact Hs|]. constructor. apply Htot, Eyx.
Qed.

Lemma stable_sort_sorted {A} (le : A -> A -> bool) (l : list A) :
  (forall a b, le a b = false -> le b a = true) ->
  Sorted (fun a b => le a b = true) (stable_sort le l).
Proof.
  intros Htot. unfold stable_sort.
  enough (H : forall acc, Sorted (fun a b => le a b = true) acc ->
    Sorted (fun a b => le a b = true) (fold_left (fun acc x => insert_stable le x acc) l acc))
    by (apply H; constructor).
  induction l as [|x l IH]; intros acc Hacc; cbn; [exact Hacc|].
  apply IH, insert_stable_sorted; assumption.
Qed.

(** The threads [build_threads] returns are sorted by file, then by line, a thread with no line counting as line 0. *)
Theorem build_threads_sorted (comments_by_file : list (string * list CommentInfo.t))
    (threads : list CommentThread.t) :
  build_threads comments_by_file = Some threads ->
  Sorted (fun a b => thread_le a b = true) threads.
Proof.
  unfold build_threads.
  destruct (roots_children (all_comments comments_by_file)) as [roots children].
  destruct (mapM _ roots) as [threads0|]; [|intros H; discriminate H].
  intros H. injection H as <-. apply stable_sort_sorted, thread_le_total.
Qed.

Lemma build_threads_sorted_witness :
  build_threads example_comments = Some example_threads /\
  Sorted (fun a b => thread_le a b = true) example_threads.
Proof.
  assert (H : build_threads example_comments = Some example_threads)
    by (vm_compute; reflexivity).
  split; [exact H|]. apply (build_threads_sorted example_comments). exact H.
Defined.

(* ================================================================== *)
(** ** [review.rs]: [download_branch_name] *)

(** The owner-and-topic form of [download_branch_name] does not apply. *)
Definition no_topic_branch (change : ChangeInfo.t) : Prop :=
  ChangeInfo.topic change = None \/ ChangeInfo.owner change = None \/
  (exists o, ChangeInfo.owner change = Some o /\
             AccountInfo.username o = None /\ AccountInfo.name o = None).

(** Without a topic branch name, [download_branch_name] is [review/NUMBER/PS], from which the change number and the patch set parse back. *)
Theorem download_branch_name_fallback_roundtrip (change : ChangeInfo.t) (ps : Z) :
  no_topic_branch change ->
  i32_min <= default 0 (ChangeInfo.number change) <= i32_max -> i32_min <= ps <= i32_max ->
  exists rest,
    str_strip_prefix (download_branch_name change ps) "review/" = Some rest /\
    split_once "/" rest = Some (pretty (default 0 (ChangeInfo.number change)), pretty ps) /\
    parse_i32s (pretty (default 0 (ChangeInfo.number change))) =
      Ok (default 0 (ChangeInfo.number change)) /\
    parse_i32s (pretty ps) = Ok ps.
Proof.
  intros Hnt Hn Hps.
  assert (E : download_branch_name change ps =
    ("review/" ++ pretty (default 0 (ChangeInfo.number change)) ++ "/" ++ pretty ps)%string).
  { unfold download_branch_name.
    destruct Hnt as [-> | [-> | (o & -> & Hu & Hnm)]].
    - reflexivity.
    - destruct (ChangeInfo.topic change); reflexivity.
    - destruct (ChangeInfo.topic change); [|reflexivity]. rewrite Hu, Hnm. reflexivity. }
  rewrite E, str_strip_prefix_app. eexists. split; [reflexivity|].
  split; [|split; apply parse_i32s_pretty; assumption].
  change ("/" ++ pretty ps)%string with (String "/" (pretty ps)).
  apply split_once_app. apply has_char_pretty; [reflexivity | discriminate].
Qed.

Definition example_change : ChangeInfo.t :=
  ChangeInfo.mk (Some "p~master~I7") (Some "p") (Some "master") (Some "I7") (Some "Fix")
    (Some "NEW") None None None (Some 12345) None None None None None None.

Lemma download_branch_name_fallback_roundtrip_witness :
  (no_topic_branch example_change /\
   i32_min <= default 0 (ChangeInfo.number example_change) <= i32_max /\
   i32_min <= 3 <= i32_max) /\
  exists rest,
    str_strip_prefix (download_branch_name example_change 3) "review/" = Some rest /\
    split_once "/" rest = Some (pretty (default 0 (ChangeInfo.number example_change)), pretty 3) /\
    parse_i32s (pretty (default 0 (ChangeInfo.number example_change))) =
      Ok (default 0 (ChangeInfo.number example_change)) /\
    parse_i32s (pretty 3) = Ok 3.
Proof.
  assert (H1 : no_topic_branch example_change) by (left; reflexivity).
  assert (H2 : i32_min <= default 0 (ChangeInfo.number example_change) <= i32_max)
    by (simpl; unfold i32_min, i32_max; lia).
  assert (H3 : i32_min <= 3 <= i32_max) by (unfold i32_min, i32_max; lia).
  split; [split; [exact H1|split; [exact H2|exact H3]]|].
  apply download_branch_name_fallback_roundtrip; assumption.
Defined.

(* ================================================================== *)
(** ** [config.rs]: [parse_gitreview] *)

(** [char::is_whitespace] on an ASCII character: tab, line feed, vertical
    tab, form feed, carriage return and space. *)
Definition is_ascii_whitespace (c : ascii) : bool :=
  let n := nat_of_ascii c in
  ((9 <=? n)%nat && (n <=? 13)%nat) || (n =? 32)%nat.

Lemma ascii_to_lower_bracket (c : ascii) : ascii_to_lower c = "["%char -> c = "["%char.
Proof.
  intros H.
  assert (Hall : forallb (fun n => negb (Ascii.eqb (ascii_to_lower (ascii_of_nat n)) "["%char)
                                   || Ascii.eqb (ascii_of_nat n) "["%char) (seq 0 256) = true)
    by (vm_compute; reflexivity).
  rewrite <- (ascii_nat_embedding c) in H |- *.
  eapply forallb_forall in Hall; [|apply in_seq; split; [lia | apply Ascii.nat_ascii_bounded]].
  rewrite H in Hall. cbn in Hall. apply Ascii.eqb_eq. exact Hall.
Qed.

Lemma gerrit_header_shape (t : string) :
  eq_ignore_ascii_case t "[gerrit]" = true ->
  exists r, t = String "[" r.
Proof.
  unfold eq_ignore_ascii_case. intros H. apply String.eqb_eq in H.
  destruct t as [|c r]; [discriminate H|].
  cbn [to_lowercase] in H. injection H as Hc _.
  apply ascii_to_lower_bracket in Hc. subst c. eexists. reflexivity.
Qed.

Lemma parse_gitreview_fold_found (l : list string) (ins found : bool) (vals : gmap string string) :
  (fold_left parse_gitreview_step l (ins, found, vals)).1.2 =
  found || existsb (fun line => eq_ignore_ascii_case (trim line) "[gerrit]") l.
Proof.
  revert ins found vals. induction l as [|line l IH]; intros ins found vals.
  - cbn. by rewrite Bool.orb_false_r.
  - cbn [fold_left existsb]. unfold parse_gitreview_step at 2.
    destruct (eq_ignore_ascii_case (trim line) "[gerrit]") eqn:Eq.
    + destruct (gerrit_header_shape _ Eq) as [r Er]. rewrite Er in *.
      cbn [String.eqb starts_with String.prefix].
      change (if ascii_dec "#" "[" then String.prefix "" r else false) with false.
      change (if ascii_dec ";" "[" then String.prefix "" r else false) with false.
      change (if ascii_dec "[" "[" then String.prefix "" r else false) with (String.prefix "" r).
      replace (String.prefix "" r) with true by (destruct r; reflexivity).
      cbn [orb]. rewrite IH, !Bool.orb_true_r. reflexivity.
    + rewrite Bool.orb_false_l.
      destruct (String.eqb (trim line) "" || starts_with (trim line) "#"
                || starts_with (trim line) ";"); [apply IH|].
      destruct (starts_with (trim line) "["); [apply IH|].
      destruct ins; [|apply IH].
      destruct (match split_once "=" (trim line) with
                | Some kv => Some kv | None => split_once ":" (trim line) end) as [[k v]|];
        apply IH.
Qed.

(** [parse_gitreview] fails exactly when no line trims to [[gerrit]] (in any ASCII case), and that is its only error. *)
Theorem parse_gitreview_missing_section (content : string) :
  (parse_gitreview content = Err (EMsg "missing [gerrit] section in .gitreview") <->
   Forall (fun line => eq_ignore_ascii_case (trim line) "[gerrit]" = false) (lines content)) /\
  (forall e, parse_gitreview content = Err e ->
     e = EMsg "missing [gerrit] section in .gitreview").
Proof.
  unfold parse_gitreview.
  pose proof (parse_gitreview_fold_found (lines content) false false ∅) as H.
  destruct (fold_left parse_gitreview_step (lines content) (false, false, ∅))
    as [[ins found] vals]. cbn in H. rewrite H.
  assert (Hf : existsb (fun line => eq_ignore_ascii_case (trim line) "[gerrit]") (lines content) = false <->
               Forall (fun line => eq_ignore_ascii_case (trim line) "[gerrit]" = false) (lines content)).
  { rewrite List.Forall_forall, <- Bool.not_true_iff_false, existsb_exists.
    split.
    - intros Hn x Hx. apply Bool.not_true_iff_false. intros Ht. apply Hn. eauto.
    - intros Hall [x [Hx Ht]]. rewrite (Hall x Hx) in Ht. discriminate Ht. }
  destruct (existsb _ (lines content)); split.
  - split; [intros Hc; discriminate Hc | intros Hall; apply Hf in Hall; discriminate Hall].
  - intros e Hc. discriminate Hc.
  - split; [intros _; apply Hf; reflexivity | reflexivity].
  - intros e Hc. injection Hc as <-. reflexivity.
Qed.

Lemma str_take_drop (k : nat) (s : string) :
  (k <= String.length s)%nat -> (str_take k s ++ str_drop k s)%string = s.
Proof.
  unfold str_take, str_drop. revert k. induction s as [|c s IH]; intros k Hk.
  - destruct k; reflexivity.
  - destruct k as [|k].
    + cbn -[String.append]. rewrite str_app_nil. cbn. f_equal. apply substring_all.
    + cbn [String.substring String.length]. cbn in Hk.
      rewrite str_app_cons. f_equal. replace (S (String.length s) - S k)%nat
        with (String.length s - k)%nat by lia.
      apply IH. lia.
Qed.

Lemma ends_with_true_app (s w : string) :
  ends_with s w = true -> exists q, s = (q ++ w)%string.
Proof.
  unfold ends_with. intros H. apply andb_prop in H as [H1 H2].
  apply Nat.leb_le in H1. apply String.eqb_eq in H2.
  exists (str_take (String.length s - String.length w) s).
  rewrite <- H2 at 2. symmetry. apply str_take_drop. lia.
Qed.

Lemma ends_with_app (q w : string) : ends_with (q ++ w) w = true.
Proof.
  pose proof (str_strip_suffix_app q w) as H. unfold str_strip_suffix in H.
  destruct (ends_with (q ++ w) w); [reflexivity | discriminate H].
Qed.

(** The last byte of a string. *)
Fixpoint last_char (s : string) : option ascii :=
  match s with
  | EmptyString => None
  | String c EmptyString => Some c
  | String _ s' => last_char s'
  end.

Lemma last_char_app (q w : string) : w <> ""%string -> last_char (q ++ w) = last_char w.
Proof.
  intros Hw. induction q as [|x q IH]; [reflexivity|].
  rewrite str_app_cons. cbn [last_char]. rewrite IH.
  destruct (q ++ w)%string eqn:E; [|reflexivity].
  apply (f_equal String.length) in E. rewrite string_length_app in E.
  destruct w; [congruence | cbn in E; lia].
Qed.

Lemma str_snoc_cases (s : string) : s = ""%string \/ exists p c, s = (p ++ String c "")%string.
Proof.
  induction s as [|x s IH]; [left; reflexivity|right].
  destruct IH as [->|(p & c & ->)].
  - exists ""%string, x. reflexivity.
  - exists (String x p), c. reflexivity.
Qed.

Lemma whitespace_chars_shape :
  forallb (fun w => match w with
                    | String c _ => is_ascii_whitespace c || (128 <=? nat_of_ascii c)%nat
                    | EmptyString => false
                    end) whitespace_chars = true /\
  forallb (fun w => match last_char w with
                    | Some c => is_ascii_whitespace c || (128 <=? nat_of_ascii c)%nat
                    | None => false
                    end) whitespace_chars = true.
Proof. split; vm_compute; reflexivity. Qed.

Lemma whitespace_chars_ascii (c : ascii) :
  is_ascii_whitespace c = true -> In (String c "") whitespace_chars.
Proof.
  intros H.
  assert (Hall : forallb (fun n => negb (is_ascii_whitespace (ascii_of_nat n))
                                   || existsb (String.eqb (String (ascii_of_nat n) ""))
                                              whitespace_chars) (seq 0 256) = true)
    by (vm_compute; reflexivity).
  rewrite <- (ascii_nat_embedding c) in H |- *.
  eapply forallb_forall in Hall; [|apply in_seq; split; [lia | apply Ascii.nat_ascii_bounded]].
  rewrite H in Hall. cbn [negb orb] in Hall.
  apply existsb_exists in Hall as [w [Hw Ew]]. apply String.eqb_eq in Ew. subst w. exact Hw.
Qed.

Lemma ws_prefix_some (s w : string) :
  ws_prefix s = Some w -> (1 <= String.length w)%nat /\ exists r, s = (w ++ r)%string.
Proof.
  unfold ws_prefix. intros H. apply List.find_some in H as [Hin Hp].
  split; [|apply prefix_true_app, Hp].
  pose proof (proj1 whitespace_chars_shape) as Hs.
  eapply forallb_forall in Hs; [|exact Hin].
  destruct w; [discriminate Hs | cbn; lia].
Qed.

Lemma ws_suffix_some (s w : string) :
  ws_suffix s = Some w -> (1 <= String.length w)%nat /\ exists q, s = (q ++ w)%string.
Proof.
  unfold ws_suffix. intros H. apply List.find_some in H as [Hin Hp].
  split; [|apply ends_with_true_app, Hp].
  pose proof (proj1 whitespace_chars_shape) as Hs.
  eapply forallb_forall in Hs; [|exact Hin].
  destruct w; [discriminate Hs | cbn; lia].
Qed.

Lemma trim_start_n_length (n : nat) (s : string) :
  (String.length (trim_start_n n s) <= String.length s)%nat.
Proof.
  revert s. induction n as [|n IH]; intros s; cbn [trim_start_n]; [lia|].
  destruct (ws_prefix s) as [w|] eqn:E; [|lia].
  apply ws_prefix_some in E as [Hw [r ->]]. rewrite str_drop_app.
  specialize (IH r). rewrite string_length_app. lia.
Qed.

Lemma trim_end_n_length (n : nat) (s : string) :
  (String.length (trim_end_n n s) <= String.length s)%nat.
Proof.
  revert s. induction n as [|n IH]; intros s; cbn [trim_end_n]; [lia|].
  destruct (ws_suffix s) as [w|] eqn:E; [|lia].
  apply ws_suffix_some in E as [Hw [q ->]]. rewrite string_length_app.
  replace (String.length q + String.length w - String.length w)%nat
    with (String.length q) by lia.
  rewrite str_take_app. specialize (IH q). lia.
Qed.

Lemma trim_start_length (s : string) : (String.length (trim_start s) <= String.length s)%nat.
Proof. apply trim_start_n_length. Qed.

Lemma trim_end_length (s : string) : (String.length (trim_end s) <= String.length s)%nat.
Proof. apply trim_end_n_length. Qed.

(** A string that [trim_start] keeps starts with no white space. *)
Lemma trim_start_fixed (s : string) :
  String.length (trim_start s) = String.length s -> ws_prefix s = None.
Proof.
  unfold trim_start. destruct s as [|c r]; [reflexivity|].
  cbn [String.length trim_start_n]. fold (String.length r).
  destruct (ws_prefix (String c r)) as [w|] eqn:E; [|reflexivity].
  apply ws_prefix_some in E as [Hw [r' Er]]. rewrite Er, str_drop_app.
  pose proof (trim_start_n_length (String.length r) r') as H.
  apply (f_equal String.length) in Er. rewrite string_length_app in Er. cbn in Er. lia.
Qed.

Lemma trim_end_fixed (s : string) :
  String.length (trim_end s) = String.length s -> ws_suffix s = None.
Proof.
  intros H. destruct (ws_suffix s) as [w|] eqn:E; [|reflexivity]. exfalso.
  destruct s as [|c r]; [vm_compute in E; discriminate E|].
  unfold trim_end in H. cbn [String.length trim_end_n] in H. fold (String.length r) in H.
  rewrite E in H. apply ws_suffix_some in E as [Hw [q Eq]].
  assert (Hl : (String.length q + String.length w = S (String.length r))%nat).
  { apply (f_equal String.length) in Eq. rewrite string_length_app in Eq. cbn in Eq. lia. }
  rewrite Eq in H. replace (S (String.length r) - String.length w)%nat
    with (String.length q) in H by lia.
  rewrite str_take_app in H.
  pose proof (trim_end_n_length (String.length r) q). lia.
Qed.

Lemma trim_start_none (s : string) : ws_prefix s = None -> trim_start s = s.
Proof. unfold trim_start. destruct s; [reflexivity|]. cbn [String.length trim_start_n]. intros ->. reflexivity. Qed.

Lemma trim_end_none (s : string) : ws_suffix s = None -> trim_end s = s.
Proof. unfold trim_end. destruct s; [reflexivity|]. cbn [String.length trim_end_n]. intros ->. reflexivity. Qed.

Lemma trim_id (s : string) : trim s = s -> trim_start s = s /\ trim_end s = s.
Proof.
  unfold trim. intros H.
  pose proof (trim_start_length (trim_end s)). pose proof (trim_end_length s).
  assert (He : trim_end s = s).
  { apply trim_end_none, trim_end_fixed. apply (f_equal String.length) in H. lia. }
  rewrite He in H. split; assumption.
Qed.

(** A string starting with a non-white-space ASCII byte starts with no white
    space character. *)
Lemma ws_prefix_plain (c : ascii) (r : string) :
  (nat_of_ascii c < 128)%nat -> is_ascii_whitespace c = false -> ws_prefix (String c r) = None.
Proof.
  intros Hc Hw. unfold ws_prefix.
  destruct (List.find _ whitespace_chars) as [w|] eqn:E; [|reflexivity].
  apply List.find_some in E as [Hin Hp].
  pose proof (proj1 whitespace_chars_shape) as Hs.
  eapply forallb_forall in Hs; [|exact Hin].
  destruct w as [|x w]; [discriminate Hs|]. rewrite str_prefix_cons in Hp.
  destruct (ascii_dec x c) as [->|]; [|discriminate Hp].
  rewrite Hw in Hs. apply Nat.leb_le in Hs. lia.
Qed.

Lemma ws_suffix_plain (p : string) (c : ascii) :
  (nat_of_ascii c < 128)%nat -> is_ascii_whitespace c = false ->
  ws_suffix (p ++ String c "") = None.
Proof.
  intros Hc Hw. unfold ws_suffix.
  destruct (List.find _ whitespace_chars) as [w|] eqn:E; [|reflexivity].
  apply List.find_some in E as [Hin Hp].
  pose proof (proj1 whitespace_chars_shape) as Hs1.
  pose proof (proj2 whitespace_chars_shape) as Hs.
  eapply forallb_forall in Hs1; [|exact Hin].
  eapply forallb_forall in Hs; [|exact Hin].
  apply ends_with_true_app in Hp as [q Hq].
  assert (Hne : w <> ""%string) by (destruct w; [discriminate Hs1 | discriminate]).
  apply (f_equal last_char) in Hq. rewrite (last_char_app q w Hne) in Hq.
  rewrite (last_char_app p (String c "")) in Hq by discriminate. cbn in Hq. rewrite <- Hq in Hs.
  rewrite Hw in Hs. apply Nat.leb_le in Hs. lia.
Qed.

Lemma trim_start_first (c : ascii) (r : string) :
  trim_start (String c r) = String c r -> is_ascii_whitespace c = false.
Proof.
  intros H. destruct (is_ascii_whitespace c) eqn:Hw; [|reflexivity].
  exfalso. apply (f_equal String.length), trim_start_fixed in H.
  unfold ws_prefix in H. eapply List.find_none in H; [|exact (whitespace_chars_ascii c Hw)].
  rewrite str_prefix_cons in H. destruct (ascii_dec c c) as [_|]; [|congruence].
  destruct r; discriminate H.
Qed.

Lemma trim_end_last (p : string) (c : ascii) :
  trim_end (p ++ String c "") = (p ++ String c "")%string -> is_ascii_whitespace c = false.
Proof.
  intros H. destruct (is_ascii_whitespace c) eqn:Hw; [|reflexivity].
  exfalso. apply (f_equal String.length), trim_end_fixed in H.
  unfold ws_suffix in H. eapply List.find_none in H; [|exact (whitespace_chars_ascii c Hw)].
  rewrite ends_with_app in H. discriminate H.
Qed.

Lemma is_ascii_app (a b : string) : is_ascii (a ++ b) = is_ascii a && is_ascii b.
Proof.
  unfold is_ascii. rewrite list_ascii_of_string_app. apply forallb_app.
Qed.

Lemma trim_end_not_ends_ws (v : string) (c : ascii) :
  is_ascii_whitespace c = true -> trim_end v = v -> ends_with v (String c "") = false.
Proof.
  intros Hc Hv. destruct (ends_with v (String c "")) eqn:E; [|reflexivity].
  apply ends_with_true_app in E as [q ->]. apply trim_end_last in Hv. congruence.
Qed.

(** A [key=value] line of the [[gerrit]] section, as written by a user: the
    key has no ['='], neither part has a line break or white space at its
    ends, the line does not start as a comment or a section header, and both
    parts are ASCII (the text [to_lowercase] is modelled on). *)
Definition gitreview_entry_ok (k v : string) : Prop :=
  has_char "=" k = false /\ has_char newline k = false /\ has_char newline v = false /\
  trim k = k /\ trim v = v /\
  starts_with k "#" = false /\ starts_with k ";" = false /\ starts_with k "[" = false /\
  is_ascii k = true /\ is_ascii v = true.

Definition gitreview_text (kvs : list (string * string)) : string :=
  config_text ("[gerrit]" :: map (fun kv => (kv.1 ++ "=" ++ kv.2)%string) kvs).

Lemma starts_with_app_single (a b : string) (c : ascii) :
  a <> ""%string -> starts_with (a ++ b) (String c "") = starts_with a (String c "").
Proof.
  destruct a as [|x a]; [congruence|]. intros _. rewrite str_app_cons.
  unfold starts_with. rewrite !str_prefix_cons.
  destruct (ascii_dec c x); [|reflexivity].
  destruct (a ++ b)%string, a; reflexivity.
Qed.

Lemma gitreview_line_trim (k v : string) :
  is_ascii k = true -> is_ascii v = true ->
  trim k = k -> trim v = v -> trim (k ++ "=" ++ v) = (k ++ "=" ++ v)%string.
Proof.
  intros Ak Av Hk Hv. apply trim_id in Hk as [Hks _]. apply trim_id in Hv as [_ Hve].
  unfold trim.
  assert (He : trim_end (k ++ "=" ++ v) = (k ++ "=" ++ v)%string).
  { apply trim_end_none. destruct (str_snoc_cases v) as [->|(p & d & ->)].
    - change ("=" ++ "")%string with (String "=" "").
      apply ws_suffix_plain; [apply Nat.ltb_lt; reflexivity | reflexivity].
    - rewrite is_ascii_app in Av. apply andb_prop in Av as [_ Ad].
      unfold is_ascii in Ad. cbn [list_ascii_of_string forallb] in Ad.
      rewrite andb_true_r in Ad. apply Nat.ltb_lt in Ad.
      replace (k ++ "=" ++ p ++ String d "")%string
        with ((k ++ "=" ++ p) ++ String d "")%string by (rewrite !str_app_assoc; reflexivity).
      apply ws_suffix_plain; [exact Ad | exact (trim_end_last p d Hve)]. }
  rewrite He. apply trim_start_none. destruct k as [|c k'].
  - rewrite str_app_nil. change ("=" ++ v)%string with (String "=" v).
    apply ws_prefix_plain; [apply Nat.ltb_lt; reflexivity | reflexivity].
  - rewrite str_app_cons. unfold is_ascii in Ak. cbn [list_ascii_of_string forallb] in Ak. apply andb_prop in Ak as [Ac _].
    apply Nat.ltb_lt in Ac. apply ws_prefix_plain; [exact Ac | exact (trim_start_first c k' Hks)].
Qed.

Lemma parse_gitreview_step_entry (vals : gmap string string) (k v : string) :
  gitreview_entry_ok k v ->
  parse_gitreview_step (true, true, vals) (k ++ "=" ++ v) =
  (true, true, <[to_lowercase k := v]> vals).
Proof.
  intros (Heq & _ & _ & Hk & Hv & H1 & H2 & H3 & Ak & Av).
  unfold parse_gitreview_step. rewrite gitreview_line_trim by assumption.
  replace (String.eqb (k ++ "=" ++ v) "") with false.
  2:{ symmetry. apply String.eqb_neq. intros H. apply (f_equal String.length) in H.
      rewrite !string_length_app in H. cbn [String.length] in H. lia. }
  assert (Hfirst : forall c, c <> "="%char -> starts_with k (String c "") = false ->
                     starts_with (k ++ "=" ++ v) (String c "") = false).
  { intros c Hc Hkc. destruct (decide (k = ""%string)) as [->|Hne].
    - unfold starts_with. rewrite str_app_nil. change ("=" ++ v)%string with (String "=" v). rewrite str_prefix_cons.
      destruct (ascii_dec c "="); [congruence | reflexivity].
    - rewrite starts_with_app_single by exact Hne. exact Hkc. }
  rewrite (Hfirst "#"%char), (Hfirst ";"%char), (Hfirst "["%char) by (assumption || discriminate).
  cbn [orb]. change ("=" ++ v)%string with (String "=" v).
  rewrite split_once_app by exact Heq. rewrite Hk, Hv. reflexivity.
Qed.

Lemma parse_gitreview_fold_entries (kvs : list (string * string)) (vals : gmap string string) :
  Forall (fun kv => gitreview_entry_ok kv.1 kv.2) kvs ->
  fold_left parse_gitreview_step (map (fun kv => (kv.1 ++ "=" ++ kv.2)%string) kvs) (true, true, vals) =
  (true, true, fold_left (fun m kv => <[to_lowercase kv.1 := kv.2]> m) kvs vals).
Proof.
  revert vals. induction kvs as [|[k v] kvs IH]; intros vals Hkvs; [reflexivity|].
  apply Forall_cons in Hkvs as [Hkv Hkvs].
  cbn [map fold_left fst snd]. rewrite parse_gitreview_step_entry by exact Hkv.
  apply IH, Hkvs.
Qed.

(** [parse_gitreview] reads back the [key=value] lines of a [[gerrit]] section, with lower-cased keys and a later duplicate winning. *)
Theorem parse_gitreview_roundtrip (kvs : list (string * string)) :
  Forall (fun kv => gitreview_entry_ok kv.1 kv.2) kvs ->
  parse_gitreview (gitreview_text kvs) =
  Ok (fold_left (fun m kv => <[to_lowercase kv.1 := kv.2]> m) kvs ∅).
Proof.
  intros Hkvs. unfold parse_gitreview, gitreview_text.
  rewrite lines_config_text.
  - cbn [fold_left]. 
    change (parse_gitreview_step (false, false, ∅) "[gerrit]") with
      ((true, true, ∅) : gitreview_state).
    rewrite parse_gitreview_fold_entries by exact Hkvs. reflexivity.
  - constructor; [split; reflexivity|].
    apply Forall_map. eapply Forall_impl; [exact Hkvs|].
    intros [k v] (Heq & Hk1 & Hv1 & Hk & Hv & _). cbn [fst snd] in *.
    split.
    + rewrite !has_char_app, Hk1, Hv1. reflexivity.
    + apply trim_id in Hv as [_ Hve].
      change ("=" ++ v)%string with (String "=" v).
      unfold strip_cr. rewrite str_strip_suffix_none; [reflexivity|].
      rewrite ends_with_single_app by discriminate.
      destruct v as [|x v']; [reflexivity|].
      change (String "=" (String x v')) with ("=" ++ String x v')%string.
      rewrite ends_with_single_app by discriminate.
      apply trim_end_not_ends_ws; [reflexivity | exact Hve].
Qed.

Definition example_gitreview : list (string * string) :=
  [("host", "review.opendev.org"); ("port", "29418"); ("Project", "openstack/nova.git")].

Lemma parse_gitreview_roundtrip_witness :
  Forall (fun kv => gitreview_entry_ok kv.1 kv.2) example_gitreview /\
  parse_gitreview (gitreview_text example_gitreview) =
  Ok (fold_left (fun m kv => <[to_lowercase kv.1 := kv.2]> m) example_gitreview ∅).
Proof.
  assert (H : Forall (fun kv => gitreview_entry_ok kv.1 kv.2) example_gitreview)
    by (repeat constructor).
  split; [exact H|]. apply parse_gitreview_roundtrip. exact H.
Defined.

(* ================================================================== *)
(** ** [review.rs]: [parse_numeric_path_segments] *)








